(** * note-editor: the timeline document model, its undo/redo history, and the
    lane geometry used to place and hit-test notes.

    The development embeds [TimelineRecord] (objects/Timeline) and
    [LaneRenderer] (objects/LaneRenderer) of the editor.

    Modelling conventions.
    - JavaScript objects live in a store of typed cells addressed by
      references; an array of objects is a list of references, [===] on
      objects is equality of references, and assigning a field updates the
      cell, so every alias observes it.
    - A [Fraction] is kept by value in the record that holds it, and the
      snapshot of the history by its contents.  Where the sources show the
      snapshot holding the very [Fraction] of a live object, the section
      [SharedInstances] says which entries of the snapshot hold it and what a
      write into it does.
    - A call that throws (a [TypeError] on [undefined], a failed patch) is
      [None]; a call that returns is [Some] of the state it leaves.
    - JavaScript numbers are rationals ([Q]); rounding of doubles is not
      modelled.  Integer-valued fields are [Z]. *)

From Stdlib Require Import ZArith QArith Qround Qminmax Lia Lqa Sorted Ascii.
From Stdlib Require HexString.
From stdpp Require Import base option list gmap strings.

(** ** JavaScript helpers *)

(** A reference to an object of the JavaScript heap. *)
Definition ref := nat.

(** [Array.prototype.sort] is stable; an insertion sort that places an element
    before the first one it does not exceed gives the same array. *)
Fixpoint insertBy {A : Type} (le : A → A → bool) (x : A) (l : list A) : list A :=
  match l with
  | [] => [x]
  | y :: l' => if le x y then x :: y :: l' else y :: insertBy le x l'
  end.

Definition sortBy {A : Type} (le : A → A → bool) (l : list A) : list A :=
  foldr (insertBy le) [] l.

(** [a.sort(cmp)] for a comparator returning a number. *)
Definition sortWith {A : Type} (cmp : A → A → Q) (l : list A) : list A :=
  sortBy (λ a b, Qle_bool (cmp a b) 0) l.

(** A loop body run over the elements of an array, stopping at the first
    exception. *)
Fixpoint forM {A W : Type} (body : A → W → option W) (l : list A) (w : W) : option W :=
  match l with
  | [] => Some w
  | x :: l' => w' ← body x w; forM body l' w'
  end.

(** [array[i]] for a numeric index: [undefined] out of range. *)
Definition nthZ {A : Type} (l : list A) (i : Z) : option A :=
  if (i <? 0)%Z then None else l !! Z.to_nat i.

(** [array.slice(0, n)]: a negative [n] counts from the end. *)
Definition slice0 {A : Type} (n : Z) (l : list A) : list A :=
  if (n <? 0)%Z then take (Z.to_nat (Z.of_nat (length l) + n)) l
  else take (Z.to_nat n) l.

(** ** math: Fraction, lerp *)

Record Fraction := mkFraction { numerator : Z; denominator : Z }.

(** Modelled from the spec: [Fraction.to01] (math, not among the sources) is
    "[numerator / denominator]", the offset inside a measure. *)
Definition to01 (f : Fraction) : Q :=
  (inject_Z (numerator f) / inject_Z (denominator f))%Q.

(** Modelled from the spec: the chart position "measure index + unit-interval
    offset" that [getMeasurePosition] and the comparators use.  The value is
    kept in lowest terms, the way one double stands for one number. *)
Definition chartPosition (measureIndex : Z) (measurePosition : Fraction) : Q :=
  Qred (inject_Z measureIndex + to01 measurePosition)%Q.

(** Modelled from the spec: [lerp] and [inverseLerp] (math, not among the
    sources) are linear interpolation and its inverse. *)
Definition lerp (a b t : Q) : Q := (a + (b - a) * t)%Q.

Definition inverseLerp (a b v : Q) : Q := ((v - a) / (b - a))%Q.

(** ** Entities *)

Module Note.
Record t := mk {
  guid : string;
  lane : string;
  measureIndex : Z;
  measurePosition : Fraction;
  horizontalPosition : Fraction;
  horizontalSize : Z;
  type : string;
  speed : Q;
  layer : string;
  time : Q                      (* editorProps.time *)
}.

Definition setTime (v : Q) (n : t) : t :=
  mk (guid n) (lane n) (measureIndex n) (measurePosition n) (horizontalPosition n)
     (horizontalSize n) (type n) (speed n) (layer n) v.

Definition setLane (v : string) (n : t) : t :=
  mk (guid n) v (measureIndex n) (measurePosition n) (horizontalPosition n)
     (horizontalSize n) (type n) (speed n) (layer n) (time n).

(** [getMeasurePosition()] *)
Definition getMeasurePosition (n : t) : Q :=
  chartPosition (measureIndex n) (measurePosition n).
End Note.

Module NoteLine.
Record t := mk {
  guid : string;
  head : string;
  tail : string;
  innerNotes : list string
}.

Definition setInnerNotes (v : list string) (l : t) : t := mk (guid l) (head l) (tail l) v.

Definition setEnds (h tl : string) (l : t) : t := mk (guid l) h tl (innerNotes l).
End NoteLine.

Module Measure.
(** The serialised part of a measure. *)
Record data := mkData {
  index : Z;
  beat : Fraction
}.

(** A live measure: its data and the screen bounds the layout pass assigns. *)
Record t := mk {
  dataOf : data;
  x : Q;
  y : Q;
  width : Q;
  height : Q
}.
End Measure.

Module LanePoint.
Record t := mk {
  guid : string;
  measureIndex : Z;
  measurePosition : Fraction;
  horizontalPosition : Fraction;
  horizontalSize : Z
}.
End LanePoint.

Module Lane.
Record t := mk {
  guid : string;
  points : list string;
  templateName : string;
  division : Z
}.

Definition setPoints (v : list string) (l : t) : t :=
  mk (guid l) v (templateName l) (division l).
End Lane.

Module OtherObject.
Record t := mk {
  guid : string;
  type : Z;
  measureIndex : Z;
  measurePosition : Fraction;
  value : Q;
  layer : string
}.

(** Modelled from the spec: BPM markers are "identified by a type predicate"
    ([isBPM], objects/OtherObject, not among the sources); the marker that
    [removeOtherObject] synthesises as a BPM has [type: 0]. *)
Definition isBPM (o : t) : bool := (type o =? 0)%Z.
End OtherObject.

(** Modelled from the spec: [sortMeasure] (objects/Measure, not among the
    sources) orders by chart position; as a comparator it is the difference of
    the two positions. *)
Definition sortMeasure (p1 p2 : Q) : Q := (p1 - p2)%Q.

Global Instance fraction_inhabited : Inhabited Fraction := populate (mkFraction 0 1).
Global Instance q_inhabited : Inhabited Q := populate 0%Q.
Global Instance note_inhabited : Inhabited Note.t :=
  populate (Note.mk "" "" 0 inhabitant inhabitant 0 "" 0%Q "" 0%Q).
Global Instance noteLine_inhabited : Inhabited NoteLine.t := populate (NoteLine.mk "" "" "" []).
Global Instance measure_inhabited : Inhabited Measure.t :=
  populate (Measure.mk (Measure.mkData 0 inhabitant) 0%Q 0%Q 0%Q 0%Q).
Global Instance lanePoint_inhabited : Inhabited LanePoint.t :=
  populate (LanePoint.mk "" 0 inhabitant inhabitant 0).
Global Instance lane_inhabited : Inhabited Lane.t := populate (Lane.mk "" [] "" 0).
Global Instance otherObject_inhabited : Inhabited OtherObject.t :=
  populate (OtherObject.mk "" 0 0 inhabitant 0%Q "").

(** ** The serialised document ([toJS()] / [TimelineJsonData]) *)

Record TimelineData := mkData {
  d_notes : list Note.t;
  d_noteLines : list NoteLine.t;
  d_measures : list Measure.data;
  d_lanes : list Lane.t;
  d_lanePoints : list LanePoint.t;
  d_otherObjects : list OtherObject.t
}.

Definition defaultTimelineData : TimelineData := mkData [] [] [] [] [] [].

(** ** External collaborators

    [TimeCalculator] (utils/TimeCalculator), [Note.normalize] (objects/Note)
    and the structural diff (fast-json-patch) are not among the sources.  A
    time calculator is represented by what it was built from. *)

Record TimeCalculator := mkTimeCalculator {
  tc_objects : list OtherObject.t;     (* the markers, sorted by position *)
  tc_measures : list Measure.t
}.

Class Collaborators := {
  getTime : TimeCalculator → Q → Q;
  normalize : Note.t → Note.t;
  Patch : Type;
  compare : TimelineData → TimelineData → Patch;
  applyPatch : TimelineData → Patch → option TimelineData
}.

(** What the history engine relies on: a patch computed from [a] to [b] takes
    [a] to [b]; normalising a note moves it neither in the chart nor in time. *)
Class CollaboratorsOk `{Collaborators} : Prop := {
  applyPatch_compare : ∀ a b, applyPatch a (compare a b) = Some b;
  normalize_position : ∀ n, Note.getMeasurePosition (normalize n) = Note.getMeasurePosition n;
  normalize_time : ∀ n, Note.time (normalize n) = Note.time n
}.

(** ** The object store and the timeline *)

Record Store := mkStore {
  noteObjs : gmap ref Note.t;
  lineObjs : gmap ref NoteLine.t;
  measureObjs : gmap ref Measure.t;
  laneObjs : gmap ref Lane.t;
  pointObjs : gmap ref LanePoint.t;
  otherObjs : gmap ref OtherObject.t;
  nextRef : ref                      (* the next object to be created *)
}.

(** The entity collections of [TimelineRecord], its derived indices and its
    time calculator. *)
Record Live := mkLive {
  notes : list ref;
  noteLines : list ref;
  measures : list ref;
  lanes : list ref;
  lanePoints : list ref;
  otherObjects : list ref;
  timeCalculator : TimeCalculator;
  noteMap : gmap string ref;
  lanePointMap : gmap string ref;
  laneMap : gmap string ref;
  previouslyCreatedNote : option ref
}.

(** The part of [Chart] (stores/Chart, not among the sources) the timeline
    reads and writes. *)
Record Chart := mkChart {
  canUndo : bool;
  canRedo : bool;
  layers : list string;              (* the guids of [chart.layers] *)
  currentLayer : string
}.

Definition setNoteObjs (v : gmap ref Note.t) (s : Store) : Store :=
  mkStore v (lineObjs s) (measureObjs s) (laneObjs s) (pointObjs s) (otherObjs s) (nextRef s).

Definition setLineObjs (v : gmap ref NoteLine.t) (s : Store) : Store :=
  mkStore (noteObjs s) v (measureObjs s) (laneObjs s) (pointObjs s) (otherObjs s) (nextRef s).

Definition setLaneObjs (v : gmap ref Lane.t) (s : Store) : Store :=
  mkStore (noteObjs s) (lineObjs s) (measureObjs s) v (pointObjs s) (otherObjs s) (nextRef s).

(** [new OtherObjectRecord(...)]: a fresh cell. *)
Definition allocOther (o : OtherObject.t) (s : Store) : Store :=
  mkStore (noteObjs s) (lineObjs s) (measureObjs s) (laneObjs s) (pointObjs s)
          (<[nextRef s := o]> (otherObjs s)) (S (nextRef s)).

Definition setNotes (v : list ref) (l : Live) : Live :=
  mkLive v (noteLines l) (measures l) (lanes l) (lanePoints l) (otherObjects l)
         (timeCalculator l) (noteMap l) (lanePointMap l) (laneMap l) (previouslyCreatedNote l).

Definition setNoteLines (v : list ref) (l : Live) : Live :=
  mkLive (notes l) v (measures l) (lanes l) (lanePoints l) (otherObjects l)
         (timeCalculator l) (noteMap l) (lanePointMap l) (laneMap l) (previouslyCreatedNote l).

Definition setMeasuresField (v : list ref) (l : Live) : Live :=
  mkLive (notes l) (noteLines l) v (lanes l) (lanePoints l) (otherObjects l)
         (timeCalculator l) (noteMap l) (lanePointMap l) (laneMap l) (previouslyCreatedNote l).

Definition setLanesField (v : list ref) (l : Live) : Live :=
  mkLive (notes l) (noteLines l) (measures l) v (lanePoints l) (otherObjects l)
         (timeCalculator l) (noteMap l) (lanePointMap l) (laneMap l) (previouslyCreatedNote l).

Definition setLanePoints (v : list ref) (l : Live) : Live :=
  mkLive (notes l) (noteLines l) (measures l) (lanes l) v (otherObjects l)
         (timeCalculator l) (noteMap l) (lanePointMap l) (laneMap l) (previouslyCreatedNote l).

Definition setOtherObjects (v : list ref) (l : Live) : Live :=
  mkLive (notes l) (noteLines l) (measures l) (lanes l) (lanePoints l) v
         (timeCalculator l) (noteMap l) (lanePointMap l) (laneMap l) (previouslyCreatedNote l).

Definition setTimeCalculator (v : TimeCalculator) (l : Live) : Live :=
  mkLive (notes l) (noteLines l) (measures l) (lanes l) (lanePoints l) (otherObjects l)
         v (noteMap l) (lanePointMap l) (laneMap l) (previouslyCreatedNote l).

Definition setNoteMap (v : gmap string ref) (l : Live) : Live :=
  mkLive (notes l) (noteLines l) (measures l) (lanes l) (lanePoints l) (otherObjects l)
         (timeCalculator l) v (lanePointMap l) (laneMap l) (previouslyCreatedNote l).

Definition setLanePointMap (v : gmap string ref) (l : Live) : Live :=
  mkLive (notes l) (noteLines l) (measures l) (lanes l) (lanePoints l) (otherObjects l)
         (timeCalculator l) (noteMap l) v (laneMap l) (previouslyCreatedNote l).

Definition setLaneMap (v : gmap string ref) (l : Live) : Live :=
  mkLive (notes l) (noteLines l) (measures l) (lanes l) (lanePoints l) (otherObjects l)
         (timeCalculator l) (noteMap l) (lanePointMap l) v (previouslyCreatedNote l).

Definition setPreviouslyCreatedNote (v : option ref) (l : Live) : Live :=
  mkLive (notes l) (noteLines l) (measures l) (lanes l) (lanePoints l) (otherObjects l)
         (timeCalculator l) (noteMap l) (lanePointMap l) (laneMap l) v.

Definition setFlags (u r : bool) (c : Chart) : Chart := mkChart u r (layers c) (currentLayer c).

(** [objects.map(x => Record.new(x))]: one fresh cell per element, created in
    order; the new array holds [seq next (length l)]. *)
Fixpoint allocAll {A : Type} (h : gmap ref A) (next : ref) (l : list A) : gmap ref A :=
  match l with
  | [] => h
  | x :: l' => allocAll (<[next := x]> h) (S next) l'
  end.

(** A [Map] from guid to object filled by [set] in array order: a later
    element with the same guid replaces an earlier one. *)
Definition indexBy {A : Type} `{Inhabited A} (key : A → string) (h : gmap ref A)
    (rs : list ref) : gmap string ref :=
  foldl (λ m r, <[key (h !!! r) := r]> m) ∅ rs.

Section TimelineModel.
Context `{Collaborators}.

(** One checkpoint of the history ([type History]). *)
Record History := mkHistory {
  undoPatch : Patch;                 (* [undo] *)
  redoPatch : Patch                  (* [redo] *)
}.

Record Hist := mkHist {
  histories : list History;
  historyIndex : Z;
  prevData : option TimelineData
}.

Record World := mkWorld {
  store : Store;
  live : Live;
  hist : Hist;
  chart : Chart
}.

Definition updStore (f : Store → Store) (w : World) : World :=
  mkWorld (f (store w)) (live w) (hist w) (chart w).

Definition updLive (f : Live → Live) (w : World) : World :=
  mkWorld (store w) (f (live w)) (hist w) (chart w).

Definition setHist (v : Hist) (w : World) : World :=
  mkWorld (store w) (live w) v (chart w).

Definition updChart (f : Chart → Chart) (w : World) : World :=
  mkWorld (store w) (live w) (hist w) (f (chart w)).

Definition getNote (w : World) (r : ref) : Note.t := noteObjs (store w) !!! r.
Definition getLine (w : World) (r : ref) : NoteLine.t := lineObjs (store w) !!! r.
Definition getMeasure (w : World) (r : ref) : Measure.t := measureObjs (store w) !!! r.
Definition getLane (w : World) (r : ref) : Lane.t := laneObjs (store w) !!! r.
Definition getPoint (w : World) (r : ref) : LanePoint.t := pointObjs (store w) !!! r.
Definition getOther (w : World) (r : ref) : OtherObject.t := otherObjs (store w) !!! r.

(** Assignment to fields of one object. *)
Definition putNote (r : ref) (v : Note.t) (w : World) : World :=
  updStore (λ s, setNoteObjs (<[r := v]> (noteObjs s)) s) w.

Definition putLine (r : ref) (v : NoteLine.t) (w : World) : World :=
  updStore (λ s, setLineObjs (<[r := v]> (lineObjs s)) s) w.

Definition putLane (r : ref) (v : Lane.t) (w : World) : World :=
  updStore (λ s, setLaneObjs (<[r := v]> (laneObjs s)) s) w.

(** [toJS()]: the six collections as plain data. *)
Definition toJS (w : World) : TimelineData :=
  mkData (map (getNote w) (notes (live w)))
         (map (getLine w) (noteLines (live w)))
         (map (λ r, Measure.dataOf (getMeasure w r)) (measures (live w)))
         (map (getLane w) (lanes (live w)))
         (map (getPoint w) (lanePoints (live w)))
         (map (getOther w) (otherObjects (live w))).

(** *** calculateTime *)

Definition otherPosition (o : OtherObject.t) : Q :=
  chartPosition (OtherObject.measureIndex o) (OtherObject.measurePosition o).

(** [new TimeCalculator([...otherObjects].sort(sortMeasure), measures)] *)
Definition freshTimeCalculator (w : World) : TimeCalculator :=
  mkTimeCalculator
    (sortWith (λ a b, sortMeasure (otherPosition a) (otherPosition b))
              (map (getOther w) (otherObjects (live w))))
    (map (getMeasure w) (measures (live w))).

Definition retime (tc : TimeCalculator) (n : Note.t) : Note.t :=
  Note.setTime (getTime tc (Note.getMeasurePosition n)) n.

Definition calculateTime (w : World) : World :=
  let tc := freshTimeCalculator w in
  foldl (λ w r, putNote r (retime tc (getNote w r)) w)
        (updLive (setTimeCalculator tc) w) (notes (live w)).

(** *** other objects *)

Definition addOtherObject (object : ref) (w : World) : World :=
  let w := updLive (λ l, setOtherObjects (otherObjects l ++ [object]) l) w in
  if OtherObject.isBPM (getOther w object) then calculateTime w else w.

(** The marker [removeOtherObject] creates when no BPM marker is left. *)
Definition provisionalBPM (fresh layer : string) : OtherObject.t :=
  OtherObject.mk fresh 0 0 (mkFraction 0 1) 120%Q layer.

(** [fresh] is the value [guid()] returns if it is called. *)
Definition removeOtherObject (fresh : string) (object : ref) (w : World) : option World :=
  let w := updLive (λ l, setOtherObjects (filter (λ obj, obj ≠ object) (otherObjects l)) l) w in
  if OtherObject.isBPM (getOther w object) then
    w ← (if negb (existsb (λ r, OtherObject.isBPM (getOther w r)) (otherObjects (live w)))
         then layer ← head (layers (chart w));          (* chart.layers[0].guid *)
              let r := nextRef (store w) in
              Some (addOtherObject r (updStore (allocOther (provisionalBPM fresh layer)) w))
         else Some w);
    Some (calculateTime w)
  else Some w.

Definition setMeasures (ms : list ref) (w : World) : World :=
  updLive (setMeasuresField ms) w.

(** *** notes and note lines *)

Definition updateNoteMap (w : World) : World :=
  calculateTime
    (updLive (setNoteMap (indexBy Note.guid (noteObjs (store w)) (notes (live w)))) w).

Definition addNote (note : ref) (updateMap : bool) (w : World) : World :=
  let w := updLive (λ l, setNotes (notes l ++ [note]) l) w in
  if updateMap then updateNoteMap w else w.

Definition removeNoteLine (noteLine : ref) (w : World) : World :=
  updLive (λ l, setNoteLines (filter (λ r, r ≠ noteLine) (noteLines l)) l) w.

Definition addNoteLine (noteLine : ref) (w : World) : World :=
  updLive (λ l, setNoteLines (noteLines l ++ [noteLine]) l) w.

(** [noteLine.head === note.guid || noteLine.tail === note.guid] *)
Definition endsAt (g : string) (l : NoteLine.t) : bool :=
  bool_decide (NoteLine.head l = g) || bool_decide (NoteLine.tail l = g).

Definition stripInner (g : string) (l : NoteLine.t) : NoteLine.t :=
  NoteLine.setInnerNotes (filter (λ x, x ≠ g) (NoteLine.innerNotes l)) l.

Definition removeNote (note : ref) (updateMap : bool) (w : World) : World :=
  let g := Note.guid (getNote w note) in
  let w :=
    match previouslyCreatedNote (live w) with
    | Some p => if bool_decide (g = Note.guid (getNote w p))
                then updLive (setPreviouslyCreatedNote None) w else w
    | None => w
    end in
  let w := foldl (λ w lr, removeNoteLine lr w) w
                 (filter (λ lr, endsAt g (getLine w lr)) (noteLines (live w))) in
  let w := foldl (λ w lr, putLine lr (stripInner g (getLine w lr)) w) w (noteLines (live w)) in
  let w := updLive (λ l, setNotes (filter (λ r, r ≠ note) (notes l)) l) w in
  if updateMap then updateNoteMap w else w.

(** *** lanes and lane points *)

Definition updateLanePointMap (w : World) : World :=
  updLive (setLanePointMap (indexBy LanePoint.guid (pointObjs (store w)) (lanePoints (live w)))) w.

Definition addLanePoint (value : ref) (w : World) : World :=
  updateLanePointMap (updLive (λ l, setLanePoints (lanePoints l ++ [value]) l) w).

Definition clearLanePoints (w : World) : World :=
  updateLanePointMap (updLive (setLanePoints []) w).

Definition updateLaneMap (w : World) : World :=
  calculateTime
    (updLive (setLaneMap (indexBy Lane.guid (laneObjs (store w)) (lanes (live w)))) w).

Definition setLanes (ls : list ref) (w : World) : World :=
  updateLaneMap (updLive (setLanesField ls) w).

Definition addLane (lane : ref) (w : World) : World :=
  updateLaneMap (updLive (λ l, setLanesField (lanes l ++ [lane]) l) w).

Definition clearLanes (w : World) : World :=
  updLive (λ l, setLaneMap ∅ (setLanesField [] l)) w.

(** *** toMutable: reload every collection from plain data *)

(** Modelled from the spec: [MeasureRecord.new] (objects/Measure, not among
    the sources) wraps the data; the screen bounds are "assigned by a separate
    layout pass". *)
Definition newMeasure (d : Measure.data) : Measure.t := Measure.mk d 0%Q 0%Q 0%Q 0%Q.

(** The [Record.new] of the other entities reinterpret the plain object as a
    record with the same fields. *)
Definition toMutable (data : TimelineData) (w : World) : World :=
  let s := store w in
  let n0 := nextRef s in
  let n1 := n0 + length (d_notes data) in
  let n2 := n1 + length (d_noteLines data) in
  let n3 := n2 + length (d_measures data) in
  let n4 := n3 + length (d_lanes data) in
  let n5 := n4 + length (d_lanePoints data) in
  let n6 := n5 + length (d_otherObjects data) in
  let s' :=
    mkStore (allocAll (noteObjs s) n0 (d_notes data))
            (allocAll (lineObjs s) n1 (d_noteLines data))
            (allocAll (measureObjs s) n2 (map newMeasure (d_measures data)))
            (allocAll (laneObjs s) n3 (d_lanes data))
            (allocAll (pointObjs s) n4 (d_lanePoints data))
            (allocAll (otherObjs s) n5 (d_otherObjects data))
            n6 in
  let l := live w in
  let l' :=
    mkLive (seq n0 (length (d_notes data)))
           (seq n1 (length (d_noteLines data)))
           (seq n2 (length (d_measures data)))
           (seq n3 (length (d_lanes data)))
           (seq n4 (length (d_lanePoints data)))
           (seq n5 (length (d_otherObjects data)))
           (timeCalculator l) (noteMap l) (lanePointMap l) (laneMap l)
           (previouslyCreatedNote l) in
  updateLaneMap (updateLanePointMap (updateNoteMap (mkWorld s' l' (hist w) (chart w)))).

(** *** History *)

Definition normalizeNotes (w : World) : World :=
  foldl (λ w r, putNote r (normalize (getNote w r)) w) w (notes (live w)).

Definition checkpoint (a b : TimelineData) : History :=
  mkHistory (compare a b) (compare b a).

Definition initialSave (w : World) : World :=
  let a := defaultTimelineData in
  let b := toJS w in
  setHist (mkHist (histories (hist w) ++ [checkpoint a b])
                  (historyIndex (hist w) + 1)
                  (Some (toJS w))) w.

(** [save()].  Comparing against a [prevData] that is still [null] throws;
    that needs a history that is not empty, which never leaves it [null].
    [prevData] is kept by its contents; the objects that the snapshot shares
    with the timeline, and the writes that reach it through them, are the
    subject of [Shared] below. *)
Definition save (w : World) : option World :=
  let w := normalizeNotes w in
  if (length (histories (hist w)) =? 0)%nat then Some (initialSave w)
  else
    let hs := slice0 (historyIndex (hist w)) (histories (hist w)) in
    a ← prevData (hist w);
    let b := toJS w in
    Some (updChart (setFlags true false)
            (setHist (mkHist (hs ++ [checkpoint a b])
                             (historyIndex (hist w) + 1)
                             (Some b)) w)).

(** [undo()]; [this.chart] is set by [TimelineRecord.new]. *)
Definition undo (w : World) : option World :=
  if negb (canUndo (chart w)) then Some w
  else
    let i := (historyIndex (hist w) - 1)%Z in
    pd ← prevData (hist w);
    h ← nthZ (histories (hist w)) i;
    data ← applyPatch pd (redoPatch h);
    let w := setHist (mkHist (histories (hist w)) i (Some data)) w in
    let w := toMutable data w in
    let w := updChart (setFlags (1 <? i)%Z true) w in
    Some (updLive (setPreviouslyCreatedNote None) w).

Definition redo (w : World) : option World :=
  if negb (canRedo (chart w)) then Some w
  else
    let i := (historyIndex (hist w) + 1)%Z in
    pd ← prevData (hist w);
    h ← nthZ (histories (hist w)) (i - 1);
    data ← applyPatch pd (undoPatch h);
    let w := setHist (mkHist (histories (hist w)) i (Some data)) w in
    let w := toMutable data w in
    let w := updChart (setFlags true (i <? Z.of_nat (length (histories (hist w))))%Z) w in
    Some (updLive (setPreviouslyCreatedNote None) w).

(** The timeline object before [TimelineRecord.new] fills it. *)
Definition emptyWorld (c : Chart) : World :=
  mkWorld (mkStore ∅ ∅ ∅ ∅ ∅ ∅ 0)
          (mkLive [] [] [] [] [] [] (mkTimeCalculator [] []) ∅ ∅ ∅ None)
          (mkHist [] 0 None)
          c.

(** [TimelineRecord.new(chart, data)]: reload the data, then the first save. *)
Definition new (c : Chart) (data : TimelineData) : option World :=
  save (toMutable data (emptyWorld c)).

(** *** optimizeLane *)

(** [lanePoints.find(lp => lp.guid === g)] and the position read off it;
    [None] when there is no such point (reading a field of [undefined]). *)
Definition pointPosition (w : World) (g : string) : option Q :=
  r ← list_find (λ r, LanePoint.guid (getPoint w r) = g) (lanePoints (live w));
  let lp := getPoint w r.2 in
  Some (chartPosition (LanePoint.measureIndex lp) (LanePoint.measurePosition lp)).

(** [lane.points.slice().sort(...)]: the comparator runs on every element as
    soon as there are two; it throws on a guid with no lane point. *)
Definition sortPoints (w : World) (pts : list string) : option (list string) :=
  if (length pts <? 2)%nat then Some pts
  else
    keyed ← mapM (λ g, p ← pointPosition w g; Some (p, g)) pts;
    Some (map snd (sortWith (λ a b, (a.1 - b.1)%Q) keyed)).

Definition sortLane (lane : ref) (w : World) : option World :=
  pts ← sortPoints w (Lane.points (getLane w lane));
  Some (putLane lane (Lane.setPoints pts (getLane w lane)) w).

(** [lane2.points[0] === lastLanePoint] for a lane other than [lane]; both
    sides are [undefined] for lanes without points. *)
Definition follows (w : World) (lane lane2 : ref) : bool :=
  bool_decide (lane ≠ lane2)
  && bool_decide (List.head (Lane.points (getLane w lane2)) = last (Lane.points (getLane w lane))).

(** The first lane, in array order, that has a lane to absorb, with that lane. *)
Definition nextLaneOf (w : World) (lane : ref) : option ref :=
  List.find (follows w lane) (lanes (live w)).

Definition findMerge (w : World) : option (ref * ref) :=
  head (omap (λ lane, nextLane ← nextLaneOf w lane; Some (lane, nextLane))
             (lanes (live w))).

Definition mergeLanes (lane nextLane : ref) (w : World) : World :=
  let g := Lane.guid (getLane w lane) in
  let gn := Lane.guid (getLane w nextLane) in
  let w := foldl (λ w r, putNote r (Note.setLane g (getNote w r)) w) w
                 (filter (λ r, Note.lane (getNote w r) = gn) (notes (live w))) in
  let nextLaneIndex := list_find (λ l, l = nextLane) (lanes (live w)) in
  let w := putLane lane (Lane.setPoints (Lane.points (getLane w lane)
                                         ++ drop 1 (Lane.points (getLane w nextLane)))
                                        (getLane w lane)) w in
  setLanes (match nextLaneIndex with
            | Some (i, _) => delete i (lanes (live w))
            | None => lanes (live w)
            end) w.

(** The [while (1)] loop: one pass per iteration, until a pass merges nothing.
    Every merge removes a lane, so [length lanes] iterations are enough. *)
Fixpoint mergeLoop (fuel : nat) (w : World) : World :=
  match fuel with
  | 0 => w
  | S fuel' =>
      match findMerge w with
      | Some (lane, nextLane) => mergeLoop fuel' (mergeLanes lane nextLane w)
      | None => w
      end
  end.

Definition optimizeLane (w : World) : option World :=
  w ← forM sortLane (lanes (live w)) w;
  Some (mergeLoop (length (lanes (live w))) w).

(** *** optimizeNoteLine, optimizeNote, optimize *)

(** [this.noteMap.get(g)!] followed by a field access. *)
Definition lookupNote (w : World) (g : string) : option (ref * Note.t) :=
  r ← noteMap (live w) !! g; Some (r, getNote w r).

Definition optimizeNoteLine (w : World) : option World :=
  forM (λ lr w,
          let l := getLine w lr in
          h ← lookupNote w (NoteLine.head l);
          t ← lookupNote w (NoteLine.tail l);
          match sortWith (λ a b, sortMeasure (Note.getMeasurePosition a) (Note.getMeasurePosition b))
                         [h.2; t.2] with
          | [a; b] => Some (putLine lr (NoteLine.setEnds (Note.guid a) (Note.guid b) l) w)
          | _ => None
          end)
       (noteLines (live w)) w.

(** The first loop of [optimizeNote] for one inner guid; the state carries the
    set of kept inner notes. *)
Definition pruneInner (headPos tailPos : Q) (g : string) (st : gset string * World)
    : option (gset string * World) :=
  n ← lookupNote st.2 g;
  let pos := Note.getMeasurePosition n.2 in
  if negb (Qle_bool headPos pos) || negb (Qle_bool pos tailPos)
  then Some (st.1, removeNote n.1 false st.2)
  else Some ({[g]} ∪ st.1, st.2).

Definition pruneLine (lr : ref) (st : gset string * World) : option (gset string * World) :=
  let l := getLine st.2 lr in
  h ← lookupNote st.2 (NoteLine.head l);
  t ← lookupNote st.2 (NoteLine.tail l);
  forM (pruneInner (Note.getMeasurePosition h.2) (Note.getMeasurePosition t.2))
       (NoteLine.innerNotes l) st.

Definition dropLooseNote (inner : gset string) (r : ref) (w : World) : World :=
  let n := getNote w r in
  if (Note.horizontalSize n =? 0)%Z && bool_decide (Note.guid n ∉ inner)
  then removeNote r false w else w.

Definition optimizeNote (w : World) : option World :=
  st ← forM pruneLine (noteLines (live w)) (∅, w);
  let w := foldl (λ w r, dropLooseNote st.1 r w) st.2 (notes (live st.2)) in
  Some (updateNoteMap w).

Definition optimize (w : World) : option World :=
  w ← optimizeLane w;
  w ← optimizeNoteLine w;
  optimizeNote w.

End TimelineModel.

(** ** LaneRenderer *)

(** An object as a callee sees it: its identity and the fields it reads. *)
Record Obj (A : Type) := mkObj { self : ref; fields : A }.
Arguments mkObj {A} _ _.
Arguments self {A} _.
Arguments fields {A} _.

Module Vector2.
Record t := mk { x : Q; y : Q }.
End Vector2.

Record LinePointInfo := mkLinePointInfo {
  point : Vector2.t;
  width : Q
}.

Record LineInfo := mkLineInfo {
  measure : ref;                     (* the measure object the segment lies in *)
  start : LinePointInfo;
  end_ : LinePointInfo
}.

Record NotePointInfo := mkNotePointInfo {
  npLane : ref;
  linePointInfo : option LinePointInfo;
  horizontalIndex : Z;
  verticalIndex : Z;
  measureIndex : Z
}.

(** [linesCache]: a [WeakMap] keyed by the lane object. *)
Abbreviation LinesCache := (gmap ref (list LineInfo)).

Definition noLines : LinesCache := ∅.

(** The first element, in order, for which [f] answers. *)
Fixpoint firstSome {A B : Type} (f : A → option B) (l : list A) : option B :=
  match l with
  | [] => None
  | a :: l' => match f a with Some b => Some b | None => firstSome f l' end
  end.

Local Open Scope Q_scope.

(** *** getLines *)

(** A control point as [getLines] maps it: horizontal offset, width and chart
    position. *)
Record Knot := mkKnot { k_x : Q; k_width : Q; k_value : Q }.

Definition toKnot (p : LanePoint.t) : Knot :=
  mkKnot (to01 (LanePoint.horizontalPosition p))
         (inject_Z (LanePoint.horizontalSize p)
          / inject_Z (denominator (LanePoint.horizontalPosition p)))
         (inject_Z (LanePoint.measureIndex p) + to01 (LanePoint.measurePosition p)).

Definition toLinePointInfo (measures : list (Obj Measure.t)) (p1 p2 : Knot)
    (measureIndex : Z) (value : Q) : option LinePointInfo :=
  m ← nthZ measures measureIndex;
  let m := fields m in
  let p := inverseLerp (k_value p1) (k_value p2) value in
  Some (mkLinePointInfo
          (Vector2.mk (Measure.x m + Measure.width m * lerp (k_x p1) (k_x p2) p)
                      (Measure.y m + Measure.height m * (inject_Z measureIndex + 1 - value)))
          (Measure.width m * lerp (k_width p1) (k_width p2) p)).

(** The [while (true)] loop between two control points: one segment per
    measure crossed.  [v2] grows by one per iteration until it is [p2.value]. *)
Fixpoint segments (fuel : nat) (measures : list (Obj Measure.t)) (p1 p2 : Knot)
    (v1 v2 : Q) : option (list LineInfo) :=
  match fuel with
  | O => None
  | S fuel' =>
      let m := Qfloor v1 in
      mo ← nthZ measures m;
      a ← toLinePointInfo measures p1 p2 m v1;
      b ← toLinePointInfo measures p1 p2 m v2;
      let line := mkLineInfo (self mo) a b in
      if Qeq_bool v2 (k_value p2) then Some [line]
      else rest ← segments fuel' measures p1 p2 v2 (Qmin (v2 + 1) (k_value p2));
           Some (line :: rest)
  end.

Definition getLines (points : list LanePoint.t) (measures : list (Obj Measure.t))
    : option (list LineInfo) :=
  let _points :=
    map toKnot
        (sortWith (λ a b, sortMeasure
                            (chartPosition (LanePoint.measureIndex a) (LanePoint.measurePosition a))
                            (chartPosition (LanePoint.measureIndex b) (LanePoint.measurePosition b)))
                  points) in
  lines ← mapM (λ p : Knot * Knot,
                  let v1 := k_value p.1 in
                  let v2 := Qmin (inject_Z (Qfloor v1) + 1) (k_value p.2) in
                  segments (Z.to_nat (Qfloor (k_value p.2) - Qfloor v1) + 2)
                           measures p.1 p.2 v1 v2)
               (zip _points (drop 1 _points));
  Some (concat lines).

(** *** getNotePointInfo *)

Definition getX (horizontal : Fraction) (info : LinePointInfo) (i : Z) : Q :=
  Vector2.x (point info)
  + width info * (to01 horizontal + inject_Z i / inject_Z (denominator horizontal)).

Definition getNotePointInfo (cache : LinesCache) (lane : Obj Lane.t) (m : Obj Measure.t)
    (horizontal vertical : Fraction) : option LinePointInfo :=
  let y := Measure.y (fields m) + Measure.height (fields m) * (1 - to01 vertical) in
  targetLine ← List.find
      (λ line, bool_decide (measure line = self m)
               && Qle_bool y (Vector2.y (point (start line)))
               && Qle_bool (Vector2.y (point (end_ line))) y)
      (default [] (cache !! self lane));
  let s := start targetLine in
  let e := end_ targetLine in
  let rate := inverseLerp (Vector2.y (point e)) (Vector2.y (point s)) y in
  let left := lerp (getX horizontal e 0) (getX horizontal s 0) rate in
  let right := lerp (getX horizontal e 1) (getX horizontal s 1) rate in
  Some (mkLinePointInfo (Vector2.mk left y) (right - left)).

(** *** getNotePointInfoFromMousePosition *)

Definition Qlt_bool (a b : Q) : bool := negb (Qle_bool b a).

(** The containment test of one grid cell. *)
Definition inCell (height : Q) (mousePosition : Vector2.t) (data : LinePointInfo) : bool :=
  Qle_bool (Vector2.x (point data)) (Vector2.x mousePosition)
  && Qlt_bool (Vector2.x mousePosition) (Vector2.x (point data) + width data)
  && Qle_bool (Vector2.y (point data) - height) (Vector2.y mousePosition)
  && Qlt_bool (Vector2.y mousePosition) (Vector2.y (point data) + height).

(** The body of the inner loop for column [i] and row [j]. *)
Definition hitCell (cache : LinesCache) (lane : Obj Lane.t) (m nextMeasure : Obj Measure.t)
    (measureDivision : Z) (mousePosition : Vector2.t) (i j : Z) : option NotePointInfo :=
  let height := Measure.height (fields m) / inject_Z measureDivision / 2 in
  let horizontal := mkFraction i (Lane.division (fields lane)) in
  let vertical := mkFraction j measureDivision in
  data ← getNotePointInfo cache lane m horizontal vertical;
  if inCell height mousePosition data then
    if (j =? measureDivision)%Z then
      Some (mkNotePointInfo (self lane)
              (getNotePointInfo cache lane nextMeasure horizontal (mkFraction 0 measureDivision))
              i (measureDivision - 1)%Z (Measure.index (Measure.dataOf (fields nextMeasure))))
    else
      Some (mkNotePointInfo (self lane) (Some data)
              i (measureDivision - j - 1)%Z (Measure.index (Measure.dataOf (fields m))))
  else None.

Definition getNotePointInfoFromMousePosition (cache : LinesCache) (lane : Obj Lane.t)
    (m nextMeasure : Obj Measure.t) (measureDivision : Z) (mousePosition : Vector2.t)
    (isResizeOrDragMode : bool) : option NotePointInfo :=
  let division := Lane.division (fields lane) in
  let left := (if isResizeOrDragMode then - division else 0)%Z in
  let right := (division + (if isResizeOrDragMode then 1 else 0))%Z in
  firstSome (λ i, firstSome (hitCell cache lane m nextMeasure measureDivision mousePosition i)
                            (seqZ 0 (measureDivision + 1)))
            (seqZ left (right - left)).

(** *** render: the part that fills [linesCache] *)

(** [render] computes the lane's segments and caches them before it draws;
    it throws, leaving the cache as it was, when a point of the lane is not in
    [lanePointMap] or a segment falls outside [measures]. *)
Definition render (cache : LinesCache) (lane : Obj Lane.t)
    (lanePointMap : gmap string LanePoint.t) (measures : list (Obj Measure.t))
    : option LinesCache :=
  pts ← mapM (λ g, lanePointMap !! g) (Lane.points (fields lane));
  lines ← getLines pts measures;
  Some (<[self lane := lines]> cache).

(** One [render] call with its arguments. *)
Record RenderCall := mkRenderCall {
  rc_lane : Obj Lane.t;
  rc_lanePointMap : gmap string LanePoint.t;
  rc_measures : list (Obj Measure.t)
}.

(** The cache after a run of [render] calls, whether they returned or threw. *)
Definition cacheAfter (calls : list RenderCall) (cache : LinesCache) : LinesCache :=
  foldl (λ c call, default c (render c (rc_lane call) (rc_lanePointMap call) (rc_measures call)))
        cache calls.

Local Close Scope Q_scope.

(** ** Vocabulary of the statements *)

(** A loop that assigns [f] of the current contents to every cell of [rs]. *)
Definition mapCells {A : Type} `{Inhabited A} (f : A → A) (h : gmap ref A) (rs : list ref)
    : gmap ref A :=
  foldl (λ h r, <[r := f (h !!! r)]> h) h rs.

(** A boolean order read as a relation. *)
Definition leP {A : Type} (le : A → A → bool) (a b : A) : Prop := le a b = true.

Section Vocabulary.
Context `{Collaborators}.

(** The BPM markers among [otherObjects] (the [bpmChanges] getter). *)
Definition bpmChanges (w : World) : list ref :=
  filter (λ r, OtherObject.isBPM (getOther w r) = true) (otherObjects (live w)).

(** No NoteLine of the timeline mentions the guid [g]. *)
Definition unreferenced (g : string) (w : World) : Prop :=
  Forall (λ lr, NoteLine.head (getLine w lr) ≠ g
                ∧ NoteLine.tail (getLine w lr) ≠ g
                ∧ g ∉ NoteLine.innerNotes (getLine w lr))
         (noteLines (live w)).

(** *** History *)

(** What a reload ([toMutable]) makes of a document: the same entities, with
    every judgment time recomputed from its markers and measures. *)
Definition reloaded (d : TimelineData) : TimelineData :=
  let tc := mkTimeCalculator
              (sortWith (λ a b, sortMeasure (otherPosition a) (otherPosition b))
                        (d_otherObjects d))
              (map newMeasure (d_measures d)) in
  mkData (map (retime tc) (d_notes d)) (d_noteLines d) (d_measures d)
         (d_lanes d) (d_lanePoints d) (d_otherObjects d).

(** An edit that leaves the snapshot alone: anything a caller does to the
    entities and the indices between two calls of the history engine by
    adding, removing or replacing objects and by assigning fields of the
    records.  It touches neither the history nor the chart's flags, and it
    does not write into an object that [prevData] holds as well: such a
    write is [writePosition]. *)
Definition applyEdit (e : World → World) (w : World) : World :=
  mkWorld (store (e w)) (live (e w)) (hist w) (chart w).

(** Edits interleaved with [save()]: each edit is followed by a save. *)
Fixpoint rounds (es : list (World → World)) (w : World) : option World :=
  match es with
  | [] => Some w
  | e :: es' => w' ← save (applyEdit e w); rounds es' w'
  end.

(** [n] calls of [undo()]. *)
Fixpoint undos (n : nat) (w : World) : option World :=
  match n with
  | O => Some w
  | S n' => w' ← undo w; undos n' w'
  end.

(** The checkpoints between consecutive snapshots, starting from [s0]. *)
Fixpoint chain (s0 : TimelineData) (snaps : list TimelineData) : list History :=
  match snaps with
  | [] => []
  | s1 :: rest => checkpoint s0 s1 :: chain s1 rest
  end.

(** The history records the snapshots [snaps] taken since the empty document,
    and the cursor stands after the [k]-th of them. *)
Definition tracks (snaps : list TimelineData) (k : nat) (w : World) : Prop :=
  histories (hist w) = chain defaultTimelineData snaps
  ∧ historyIndex (hist w) = Z.of_nat k
  ∧ 1 ≤ k ≤ length snaps
  ∧ prevData (hist w) = snaps !! (k - 1).

(** The flags agree with the cursor: undo is offered only past the first
    checkpoint, redo only before the last. *)
Definition sound (w : World) : Prop :=
  ∃ snaps k, tracks snaps k w
             ∧ (canUndo (chart w) = true → 2 ≤ k)
             ∧ (canRedo (chart w) = true → k < length snaps).

(** The states of a timeline: built by [TimelineRecord.new] on a chart whose
    flags are still off, then edited ([applyEdit]), saved, undone and
    redone. *)
Inductive reachable : World → Prop :=
  | reach_new c d w :
      canUndo c = false → canRedo c = false → new c d = Some w → reachable w
  | reach_edit e w : reachable w → reachable (applyEdit e w)
  | reach_save w w' : reachable w → save w = Some w' → reachable w'
  | reach_undo w w' : reachable w → undo w = Some w' → reachable w'
  | reach_redo w w' : reachable w → redo w = Some w' → reachable w'.

(** *** optimizeLane *)

(** The position the comparator of [optimizeLane] reads for a point guid. *)
Definition posOf (w : World) (g : string) : Q := default 0%Q (pointPosition w g).

(** The order the comparator induces on point guids. *)
Definition pointLe (w : World) (g1 g2 : string) : bool :=
  Qle_bool (posOf w g1 - posOf w g2) 0.

(** A list of point guids that [optimizeLane]'s sort leaves as it is: at most
    one point, or points that all exist and ascend. *)
Definition tidy (w : World) (pts : list string) : Prop :=
  length pts < 2
  ∨ (Forall (λ g, is_Some (pointPosition w g)) pts ∧ Sorted (leP (pointLe w)) pts).

(** The lane [z] is an object of the store with tidy points. *)
Definition good (w : World) (z : ref) : Prop :=
  is_Some (laneObjs (store w) !! z) ∧ tidy w (Lane.points (getLane w z)).

(** Every lane of the timeline is. *)
Definition settled (w : World) : Prop :=
  ∀ lane, lane ∈ lanes (live w) → good w lane.

(** *** Derived indices *)

Definition noteMapOk (w : World) : Prop :=
  noteMap (live w) = indexBy Note.guid (noteObjs (store w)) (notes (live w)).

Definition lanePointMapOk (w : World) : Prop :=
  lanePointMap (live w) = indexBy LanePoint.guid (pointObjs (store w)) (lanePoints (live w)).

Definition laneMapOk (w : World) : Prop :=
  laneMap (live w) = indexBy Lane.guid (laneObjs (store w)) (lanes (live w)).

Definition timeCalculatorOk (w : World) : Prop :=
  timeCalculator (live w) = freshTimeCalculator w.

(** Every derived index is what a rebuild from its collection gives. *)
Definition indexed (w : World) : Prop :=
  noteMapOk w ∧ lanePointMapOk w ∧ laneMapOk w ∧ timeCalculatorOk w.

(** Two states agree on what an index is read from. *)
Definition sameNotes (w w' : World) : Prop :=
  noteMap (live w') = noteMap (live w)
  ∧ notes (live w') = notes (live w)
  ∧ ∀ r, Note.guid (getNote w' r) = Note.guid (getNote w r).

Definition samePoints (w w' : World) : Prop :=
  lanePointMap (live w') = lanePointMap (live w)
  ∧ lanePoints (live w') = lanePoints (live w)
  ∧ pointObjs (store w') = pointObjs (store w).

Definition sameLanes (w w' : World) : Prop :=
  laneMap (live w') = laneMap (live w)
  ∧ lanes (live w') = lanes (live w)
  ∧ ∀ r, Lane.guid (getLane w' r) = Lane.guid (getLane w r).

Definition sameClock (w w' : World) : Prop :=
  timeCalculator (live w') = timeCalculator (live w)
  ∧ otherObjects (live w') = otherObjects (live w)
  ∧ otherObjs (store w') = otherObjs (store w)
  ∧ measures (live w') = measures (live w)
  ∧ measureObjs (store w') = measureObjs (store w).

(** Everything the lane indices and the time calculator are read from. *)
Definition sameRest (w w' : World) : Prop :=
  samePoints w w' ∧ sameLanes w w' ∧ sameClock w w'.

(** The public mutating operations, with [updateNoteMap] left at its default. *)
Inductive Op :=
  | OpAddNote (note : ref)
  | OpRemoveNote (note : ref)
  | OpAddNoteLine (noteLine : ref)
  | OpRemoveNoteLine (noteLine : ref)
  | OpAddOtherObject (object : ref)
  | OpRemoveOtherObject (fresh : string) (object : ref)
  | OpAddLane (lane : ref)
  | OpSetLanes (ls : list ref)
  | OpAddLanePoint (value : ref)
  | OpOptimize
  | OpUndo
  | OpRedo.

Definition run (op : Op) (w : World) : option World :=
  match op with
  | OpAddNote note => Some (addNote note true w)
  | OpRemoveNote note => Some (removeNote note true w)
  | OpAddNoteLine noteLine => Some (addNoteLine noteLine w)
  | OpRemoveNoteLine noteLine => Some (removeNoteLine noteLine w)
  | OpAddOtherObject object => Some (addOtherObject object w)
  | OpRemoveOtherObject fresh object => removeOtherObject fresh object w
  | OpAddLane lane => Some (addLane lane w)
  | OpSetLanes ls => Some (setLanes ls w)
  | OpAddLanePoint value => Some (addLanePoint value w)
  | OpOptimize => optimize w
  | OpUndo => undo w
  | OpRedo => redo w
  end.

(** The operations that change [otherObjects] without recalculating: adding or
    removing an object that is not a BPM marker. *)
Definition skipsRecalculation (op : Op) (w : World) : Prop :=
  match op with
  | OpAddOtherObject object | OpRemoveOtherObject _ object =>
      OtherObject.isBPM (getOther w object) = false
  | _ => False
  end.

(** The operations that rebuild the time calculator before they return:
    those that end in [calculateTime].  An [undo()] or [redo()] that the
    chart's flag turns into a no-op rebuilds nothing. *)
Definition recalculates (op : Op) (w : World) : Prop :=
  match op with
  | OpAddNote _ | OpRemoveNote _ | OpAddLane _ | OpSetLanes _ | OpOptimize => True
  | OpAddOtherObject object | OpRemoveOtherObject _ object =>
      OtherObject.isBPM (getOther w object) = true
  | OpUndo => canUndo (chart w) = true
  | OpRedo => canRedo (chart w) = true
  | OpAddNoteLine _ | OpRemoveNoteLine _ | OpAddLanePoint _ => False
  end.

End Vocabulary.

(** ** A concrete chart

    Collaborators to run the model with: the judgment time of a position is
    the position, notes are already normal, and a patch is the whole target
    document. *)

Definition plain : Collaborators :=
  {| getTime := λ _ p, p;
     normalize := λ n, n;
     Patch := TimelineData;
     compare := λ _ b, b;
     applyPatch := λ _ p, Some p |}.

Definition chart0 : Chart := mkChart false false ["layer-0"] "layer-0".

(** Three notes on lane B, two note lines, two measures, two lanes that share
    the point [b], a BPM marker and a speed marker. *)
Definition data0 : TimelineData :=
  mkData
    [ Note.mk "n1" "lane-b" 0 (mkFraction 1 2) (mkFraction 0 4) 1 "tap" 1%Q "layer-0" 0%Q;
      Note.mk "n2" "lane-b" 1 (mkFraction 0 1) (mkFraction 1 4) 1 "tap" 1%Q "layer-0" 0%Q;
      Note.mk "n3" "lane-b" 0 (mkFraction 3 4) (mkFraction 0 4) 0 "tap" 1%Q "layer-0" 0%Q ]
    [ NoteLine.mk "l1" "n1" "n2" ["n3"];
      NoteLine.mk "l2" "n2" "n3" ["n1"] ]
    [ Measure.mkData 0 (mkFraction 4 4); Measure.mkData 1 (mkFraction 4 4) ]
    [ Lane.mk "lane-a" ["b"; "a"] "normal" 4;
      Lane.mk "lane-b" ["b"; "c"] "normal" 4 ]
    [ LanePoint.mk "a" 0 (mkFraction 0 1) (mkFraction 0 1) 1;
      LanePoint.mk "b" 1 (mkFraction 0 1) (mkFraction 0 1) 1;
      LanePoint.mk "c" 2 (mkFraction 0 1) (mkFraction 0 1) 1 ]
    [ OtherObject.mk "bpm" 0 0 (mkFraction 0 1) 150%Q "layer-0";
      OtherObject.mk "speed" 1 0 (mkFraction 1 2) 2%Q "layer-0" ].

(** The timeline [TimelineRecord.new] builds from it.  Its objects are, in
    order of creation: notes 0-2, note lines 3-4, measures 5-6, lanes 7-8,
    lane points 9-11, the BPM marker 12 and the speed marker 13. *)
Definition world0 : @World plain :=
  default (emptyWorld chart0) (new chart0 data0).


(** [world0] after the note [n1] is removed and the chart saved. *)
Definition world1 : @World plain :=
  default world0 (rounds [removeNote 0 true] world0).

(** [world1] with an edit that has not been saved: the note [n2] removed. *)
Definition world1_pending : @World plain := applyEdit (removeNote 1 true) world1.

(** [world0] after [optimize()]. *)
Definition world0_optimized : @World plain := default world0 (optimize world0).

(** A timeline whose only other object is a speed marker (object 0). *)
Definition speedOnly : @World plain :=
  default (emptyWorld chart0)
    (new chart0 (mkData [] [] [] [] [] [OtherObject.mk "speed" 1 0 (mkFraction 1 2) 2%Q "layer-0"])).

(** Geometry: three measures of 100 by 100 stacked at the origin, and a lane
    through them that is 80 wide and starts at x = 10. *)
Definition measureAt (r : ref) (i : Z) : Obj Measure.t :=
  mkObj r (Measure.mk (Measure.mkData i (mkFraction 4 4)) 0%Q 0%Q 100%Q 100%Q).

Definition measure0 : Obj Measure.t := measureAt 100 0.
Definition measure1 : Obj Measure.t := measureAt 101 1.
Definition measure2 : Obj Measure.t := measureAt 102 2.

Definition screenMeasures : list (Obj Measure.t) := [measure0; measure1; measure2].

Definition wideLane : Obj Lane.t := mkObj 7 (Lane.mk "lane-a" ["a"; "c"] "normal" 4).

Definition otherLane : Obj Lane.t := mkObj 8 (Lane.mk "lane-b" ["a"; "c"] "normal" 4).

Definition wideLanePoints : gmap string LanePoint.t :=
  {[ "a" := LanePoint.mk "a" 0 (mkFraction 0 1) (mkFraction 1 10) 8;
     "c" := LanePoint.mk "c" 2 (mkFraction 0 1) (mkFraction 1 10) 8 ]}.

(** The cache after [wideLane] has been rendered once. *)
Definition renderedOnce : gmap ref (list LineInfo) :=
  cacheAfter [mkRenderCall wideLane wideLanePoints screenMeasures] noLines.

(** * The callers and the neighbours of the timeline and of the lane geometry *)

(** ** LaneRenderer.defaultRender *)

(** What a renderer hands to the canvas: the quad of [drawQuad] and the
    stroke of a [lineStyle(..).moveTo(..).lineTo(..)] chain. *)
Inductive DrawOp :=
  | DrawQuad (p1 p2 p3 p4 : Vector2.t) (color : Z)
  | DrawLine (lineWidth : Z) (color : Z) (from to : Vector2.t).

(** The part of [Pixi.getRenderArea()] and of a [LaneTemplate]
    (containers/Pixi, stores/MusicGameSystem, not among the sources) that
    [defaultRender] reads. *)
Record RenderArea := mkRenderArea { ra_left : Q; ra_right : Q }.

Record LaneTemplate := mkLaneTemplate { lt_color : Z; lt_division : Z }.

Local Open Scope Q_scope.

(** The test on which [defaultRender] skips a segment ("the lane is outside
    the drawing range").  Both additions on the left side use the width of
    the start of the segment. *)
Definition culled (renderArea : RenderArea) (line : LineInfo) : bool :=
  (Qlt_bool (Vector2.x (point (start line)) + width (start line)) (ra_left renderArea)
   && Qlt_bool (Vector2.x (point (end_ line)) + width (start line)) (ra_left renderArea))
  || (Qlt_bool (ra_right renderArea) (Vector2.x (point (start line)))
      && Qlt_bool (ra_right renderArea) (Vector2.x (point (end_ line)))).

Definition defaultRender (renderArea : RenderArea) (lines : list LineInfo)
    (laneTemplate : LaneTemplate) : list DrawOp :=
  flat_map
    (λ line,
       if culled renderArea line then []
       else
         let s := start line in
         let e := end_ line in
         DrawQuad (point s)
                  (Vector2.mk (Vector2.x (point s) + width s) (Vector2.y (point s)))
                  (Vector2.mk (Vector2.x (point e) + width e) (Vector2.y (point e)))
                  (point e)
                  (lt_color laneTemplate)
         :: map (λ i : Z,
                   DrawLine 1 16777215
                     (Vector2.mk (Vector2.x (point s)
                                  + width s / inject_Z (lt_division laneTemplate) * inject_Z i)
                                 (Vector2.y (point s)))
                     (Vector2.mk (Vector2.x (point e)
                                  + width e / inject_Z (lt_division laneTemplate) * inject_Z i)
                                 (Vector2.y (point e))))
                (seqZ 0 (lt_division laneTemplate + 1)))
    lines.

(** ** NoteRenderer *)

Record Rectangle := mkRectangle { r_x : Q; r_y : Q; r_width : Q; r_height : Q }.

Module NoteRenderer.
Section WithResolver.
(** [LaneRendererResolver.resolve(lane).getNotePointInfo] (objects/
    LaneRendererResolver, not among the sources): the answer of the lane's
    renderer, whichever it is. *)
Variable resolved : Obj Lane.t → Obj Measure.t → Fraction → Fraction → option LinePointInfo.

(** [getBounds]: the non-null assertion on the answer makes it throw when the
    renderer has none. *)
Definition getBounds (note : Note.t) (lane : Obj Lane.t) (m : Obj Measure.t)
    : option Rectangle :=
  q ← resolved lane m (Note.horizontalPosition note) (Note.measurePosition note);
  Some (mkRectangle (Vector2.x (point q)) (Vector2.y (point q) - 5)
                    (width q * inject_Z (Note.horizontalSize note)) 10).

(** [render]: logs an error and draws nothing without an answer; else one
    stroke of width 6 in the note's colour ([customRender]). *)
Definition render (color : Z) (note : Note.t) (lane : Obj Lane.t) (m : Obj Measure.t)
    : list DrawOp :=
  match resolved lane m (Note.horizontalPosition note) (Note.measurePosition note) with
  | None => []
  | Some q =>
      let w := width q * inject_Z (Note.horizontalSize note) in
      [DrawLine 6 color (point q)
                (Vector2.mk (Vector2.x (point q) + w) (Vector2.y (point q)))]
  end.
End WithResolver.
End NoteRenderer.

(** ** OtherObjectRenderer *)

Module OtherObjectRenderer.

(** The per-frame state: how many objects were drawn at a position, by the
    text of the position, and the order each object was given. *)
Record t := mk {
  drawedPositions : gmap string Z;
  renderOrders : gmap ref Z
}.

Definition updateFrame (st : t) : t := mk ∅ ∅.

Definition getRenderOrder (st : t) (object : ref) : option Z := renderOrders st !! object.

Section WithBounds.
(** The text [`${bounds.x}/${bounds.y}`] of the bounds that [getBounds]
    computes for an object in a measure, as the arithmetic of the code gives
    it.  It contains a [/], so it is the name of no inherited property. *)
Variable positionText : OtherObject.t → Measure.t → string.

(** The bookkeeping of [render]: the state it leaves and the offset
    [labelAddY] at which it writes the label.  The drawing that follows it
    (the rectangle and the label, from the object's type) is left out. *)
Definition render (object : Obj OtherObject.t) (m : Measure.t) (st : t) : t * Z :=
  let key := positionText (fields object) m in
  let '(labelAddY, d) :=
    match drawedPositions st !! key with
    | Some n => ((0 + n * 20)%Z, <[key := (n + 1)%Z]> (drawedPositions st))
    | None => (0%Z, <[key := 1%Z]> (drawedPositions st))
    end in
  (mk d (<[self object := default 0%Z (d !! key)]> (renderOrders st)), labelAddY).

(** A frame: [updateFrame()], then the objects rendered in order. *)
Definition frame (calls : list (Obj OtherObject.t * Measure.t)) (st : t) : t :=
  foldl (λ st c, (render c.1 c.2 st).1) (updateFrame st) calls.
End WithBounds.

End OtherObjectRenderer.

Local Close Scope Q_scope.

(** ** Inspector: colours *)

Module Inspector.

(** [n.toString(16)] for a number that is a non-negative integer: lowercase
    digits, no leading zero. *)
Definition toString16 (n : N) : string :=
  match n with
  | N0 => "0"
  | Npos p => HexString.Raw.of_pos p ""
  end.

(** [s.padStart(n, "0")]: zeros in front up to the length [n]. *)
Definition padStart0 (n : nat) (s : string) : string :=
  Nat.iter (n - String.length s) (String "0"%char) s.

(** The text the inspector shows for a numeric colour. *)
Definition colorText (n : N) : string := "#" +:+ padStart0 6 (toString16 n).

(** [s.substr(1)] *)
Definition substr1 (s : string) : string :=
  match s with
  | EmptyString => EmptyString
  | String _ s' => s'
  end.

Definition isWhiteSpace (c : Ascii.ascii) : bool :=
  let n := Ascii.nat_of_ascii c in
  (n =? 9)%nat || (n =? 10)%nat || (n =? 11)%nat || (n =? 12)%nat || (n =? 13)%nat
  || (n =? 32)%nat.

Fixpoint trimStart (s : string) : string :=
  match s with
  | String c s' => if isWhiteSpace c then trimStart s' else s
  | EmptyString => EmptyString
  end.

(** The longest prefix of hexadecimal digits, read as a number; [None] when
    it is empty. *)
Fixpoint digits16 (s : string) (acc : N) (seen : bool) : option N :=
  match s with
  | EmptyString => if seen then Some acc else None
  | String c s' =>
      match HexString.ascii_to_digit c with
      | Some v => digits16 s' (v + 16 * acc)%N true
      | None => if seen then Some acc else None
      end
  end.

(** [parseInt(s, 16)]: white space, a sign and a [0x] prefix are skipped,
    then the digits are read; [None] is [NaN]. *)
Definition parseInt16 (s : string) : option Z :=
  let s := trimStart s in
  let '(sign, s) :=
    match s with
    | String "-"%char s' => ((-1)%Z, s')
    | String "+"%char s' => (1%Z, s')
    | _ => (1%Z, s)
    end in
  let s :=
    match s with
    | String "0"%char (String "x"%char s') => s'
    | String "0"%char (String "X"%char s') => s'
    | _ => s
    end in
  n ← digits16 s 0 false; Some (sign * Z.of_N n)%Z.

(** What the [onChange] handler of a colour stores for the text [value]. *)
Definition colorValue (value : string) : option Z := parseInt16 (substr1 value).

End Inspector.

(** ** Editor (stores/EditorStore) *)

Module Editor.

(** [divs.indexOf(x)] *)
Definition indexOf (x : Z) (l : list Z) : Z :=
  match list_find (λ y, y = x) l with
  | Some (i, _) => Z.of_nat i
  | None => (-1)%Z
  end.

(** [changeMeasureDivision(index)], with [EditorSetting.MEASURE_DIVISIONS]
    (stores/EditorSetting, not among the sources) as [divs]; the result is
    the new [setting.measureDivision], [None] when it is [undefined]. *)
Definition changeMeasureDivision (divs : list Z) (measureDivision : Z) (index : Z)
    : option Z :=
  let index := (index + indexOf measureDivision divs)%Z in
  let index := Z.max 0 (Z.min (Z.of_nat (length divs) - 1) index) in
  nthZ divs index.

(** The value of [currentChart]. *)
Inductive Current :=
  | CurrentNull
  | CurrentUndefined
  | CurrentChart (c : ref).

Record t := mk {
  charts : list ref;
  currentChart : Current;
  currentChartIndex : Z
}.

Definition setCurrentChart (chartIndex : Z) (e : t) : t :=
  match charts e with
  | [] => mk (charts e) CurrentNull chartIndex
  | _ => mk (charts e)
            (match nthZ (charts e) chartIndex with
             | Some c => CurrentChart c
             | None => CurrentUndefined
             end)
            chartIndex
  end.

(** [charts.filter((_, index) => index !== chartIndex)] *)
Definition removeAt {A : Type} (chartIndex : Z) (l : list A) : list A :=
  if (chartIndex <? 0)%Z then l else delete (Z.to_nat chartIndex) l.

Definition removeChart (chartIndex : Z) (e : t) : t :=
  setCurrentChart 0 (mk (removeAt chartIndex (charts e)) (currentChart e) (currentChartIndex e)).

(** [lanes.findIndex(lane => lane.guid === g)] *)
Definition findLane (g : string) (lanes : list Lane.t) : Z :=
  match list_find (λ l, Lane.guid l = g) lanes with
  | Some (i, _) => Z.of_nat i
  | None => (-1)%Z
  end.

(** The body of the [forEach] of [moveLane] for one note: [None] when the
    note's type is not in [noteTypeMap] (a [TypeError]).  [typeMap] gives the
    [excludeLanes] of a type, [None] inside when the type has none. *)
Definition moveNote (indexer : Z → Z) (lanes : list Lane.t)
    (typeMap : gmap string (option (list string))) (note : Note.t) : option Note.t :=
  match nthZ lanes (indexer (findLane (Note.lane note) lanes)) with
  | None => Some note
  | Some lane =>
      excludeLanes ← typeMap !! Note.type note;
      if bool_decide (Lane.templateName lane ∈ default [] excludeLanes) then Some note
      else Some (Note.setLane (Lane.guid lane) note)
  end.

(** [moveLane(indexer)] on the inspected notes. *)
Definition moveLane (indexer : Z → Z) (lanes : list Lane.t)
    (typeMap : gmap string (option (list string))) (notes : list Note.t)
    : option (list Note.t) :=
  mapM (moveNote indexer lanes typeMap) notes.

(** The indexer of the [flipLane] command. *)
Definition flip (lanes : list Lane.t) (i : Z) : Z := (Z.of_nat (length lanes) - i - 1)%Z.

End Editor.

(** ** AudioSelect: the name of the picked file *)

Module AudioSelect.

Definition isSeparator (c : Ascii.ascii) : bool :=
  bool_decide (c = "/"%char) || bool_decide (c = "\"%char).

(** [path.split(/[\/\\]/)]: the pieces between separators, the current
    piece first in [cur]. *)
Fixpoint split (cur : string) (path : string) : list string :=
  match path with
  | EmptyString => [cur]
  | String c rest =>
      if isSeparator c then cur :: split EmptyString rest
      else split (cur +:+ String c EmptyString) rest
  end.

(** [result[0].split(/[\/\\]/).pop()!] *)
Definition pickedName (path : string) : string :=
  default EmptyString (last (split EmptyString path)).

End AudioSelect.

(** ** ChartInformation: notes grouped by type *)

Module ChartInformation.

(** One step of [_.groupBy]: the element joins the group of its key, or
    opens a new group after the others. *)
Fixpoint addTo {A : Type} (k : string) (x : A) (groups : list (string * list A))
    : list (string * list A) :=
  match groups with
  | [] => [(k, [x])]
  | (k', xs) :: rest =>
      if bool_decide (k = k') then (k', xs ++ [x]) :: rest
      else (k', xs) :: addTo k x rest
  end.

(** [_.groupBy(notes, "type")]: the properties of the object it builds, in
    the order in which they are added to it. *)
Definition groupBy {A : Type} (key : A → string) (l : list A) : list (string * list A) :=
  foldl (λ groups x, addTo (key x) x groups) [] l.

Definition digitValue (c : Ascii.ascii) : option N :=
  let n := Ascii.N_of_ascii c in
  if (48 <=? n)%N && (n <=? 57)%N then Some (n - 48)%N else None.

Fixpoint decimalValue (s : string) (acc : N) : option N :=
  match s with
  | EmptyString => Some acc
  | String c s' => d ← digitValue c; decimalValue s' (10 * acc + d)%N
  end.

(** The array index that a property name stands for: the name is the decimal
    text, without a leading zero, of an integer below 2^32 - 1. *)
Definition arrayIndex (s : string) : option N :=
  match s with
  | EmptyString => None
  | String c s' =>
      if bool_decide (c = "0"%char) && negb (bool_decide (s' = EmptyString)) then None
      else n ← decimalValue s 0; if (n <? 4294967295)%N then Some n else None
  end.

(** [Object.keys] and [Object.entries] of a plain object whose properties
    were added in the order [props]: the names that are array indices come
    first, in ascending order, then the other names in the order they were
    added. *)
Definition ownEntries {A : Type} (props : list (string * A)) : list (string * A) :=
  sortBy (λ a b, (default 0 (arrayIndex a.1) <=? default 0 (arrayIndex b.1))%N)
         (filter (λ p, is_Some (arrayIndex p.1)) props)
  ++ filter (λ p, ¬ is_Some (arrayIndex p.1)) props.

(** The two rows of the table: the total with the type names, and the
    number of notes with the count of each type. *)
Definition headerRow (notes : list Note.t) : list string :=
  map fst (ownEntries (groupBy Note.type notes)).

Definition countRow (notes : list Note.t) : nat * list nat :=
  (length notes, map (λ g, length g.2) (ownEntries (groupBy Note.type notes))).

End ChartInformation.

(** ** Further vocabulary *)

Section VocabularyMore.
Context `{Collaborators}.

(** [n] calls of [redo()]. *)
Fixpoint redos (n : nat) (w : World) : option World :=
  match n with
  | O => Some w
  | S n' => w' ← redo w; redos n' w'
  end.

(** Every note of the timeline names a lane of the timeline. *)
Definition attached (w : World) : Prop :=
  ∀ r, r ∈ notes (live w) →
       ∃ z, z ∈ lanes (live w) ∧ Lane.guid (getLane w z) = Note.lane (getNote w r).

(** The lane point guid [g] is a point of some lane of the timeline. *)
Definition onLane (w : World) (g : string) : Prop :=
  ∃ z, z ∈ lanes (live w) ∧ g ∈ Lane.points (getLane w z).

(** What sorting the points of a lane leaves alone: the notes, the lanes and
    their guids, and which points each lane has. *)
Definition laneFrame (w w' : World) : Prop :=
  noteObjs (store w') = noteObjs (store w)
  ∧ notes (live w') = notes (live w)
  ∧ lanes (live w') = lanes (live w)
  ∧ (∀ z, Lane.guid (getLane w' z) = Lane.guid (getLane w z))
  ∧ (∀ z g, g ∈ Lane.points (getLane w' z) ↔ g ∈ Lane.points (getLane w z)).

End VocabularyMore.

(** *** getLines *)

(** The segment [line] lies in the measure of index [m] and runs from chart
    position [a] to chart position [b] between the control points [p1] and
    [p2]. *)
Definition lineAt (measures : list (Obj Measure.t)) (p1 p2 : Knot) (m : Z) (a b : Q)
    (line : LineInfo) : Prop :=
  ∃ mo A B, nthZ measures m = Some mo
            ∧ toLinePointInfo measures p1 p2 m a = Some A
            ∧ toLinePointInfo measures p1 p2 m b = Some B
            ∧ line = mkLineInfo (self mo) A B.

(** The state of the [while (true)] loop of [getLines] towards the position
    [pv]: the segment from [v1] to [v2] stays in the measure of [v1] and ends
    at [pv] or at the end of that measure. *)
Definition inStep (pv v1 v2 : Q) : Prop :=
  (v1 <= v2 ∧ v2 <= inject_Z (Qfloor v1) + 1 ∧ v2 <= pv
   ∧ (v2 == pv ∨ v2 == inject_Z (Qfloor v1) + 1))%Q.

(** The chart position [getLines] reads off a control point. *)
Definition pointValue (p : LanePoint.t) : Q := k_value (toKnot p).

(** The order [getLines] sorts the control points in. *)
Definition byValue (a b : LanePoint.t) : bool :=
  Qle_bool (sortMeasure (chartPosition (LanePoint.measureIndex a) (LanePoint.measurePosition a))
                        (chartPosition (LanePoint.measureIndex b) (LanePoint.measurePosition b)))
           0.

(** *** OtherObjectRenderer *)

(** How many of the calls [calls] are at the position whose text is [key]. *)
Definition drawnAt (positionText : OtherObject.t → Measure.t → string) (key : string)
    (calls : list (Obj OtherObject.t * Measure.t)) : nat :=
  length (filter (λ c, positionText (fields c.1) c.2 = key) calls).

(** *** Inspector *)

(** A text of hexadecimal digits only. *)
Fixpoint allHex (s : string) : bool :=
  match s with
  | EmptyString => true
  | String c s' =>
      match HexString.ascii_to_digit c with
      | Some _ => allHex s'
      | None => false
      end
  end.

(** *** AudioSelect *)

(** A name without a path separator. *)
Fixpoint noSeparator (s : string) : bool :=
  match s with
  | EmptyString => true
  | String c s' => negb (AudioSelect.isSeparator c) && noSeparator s'
  end.

(** *** Editor *)

(** The lane templates a note of type [ty] may not be placed on. *)
Definition excluded (typeMap : gmap string (option (list string))) (ty : string)
    : list string :=
  default [] (default None (typeMap !! ty)).

(** *** Removing notes *)

Section VocabularyNotes.
Context `{Collaborators}.

(** A step that only removes notes and note lines: the two collections
    shrink in place, the notes keep their guids, a guid no line mentioned is
    still mentioned by none, and no line mentions a note the step removed. *)
Definition removesCleanly (w w' : World) : Prop :=
  notes (live w') `sublist_of` notes (live w)
  ∧ noteLines (live w') `sublist_of` noteLines (live w)
  ∧ (∀ r, Note.guid (getNote w' r) = Note.guid (getNote w r))
  ∧ (∀ g, unreferenced g w → unreferenced g w')
  ∧ (∀ r, r ∈ notes (live w) → r ∉ notes (live w') →
          unreferenced (Note.guid (getNote w r)) w').

(** The guid [g] is an inner note of some note line of the timeline. *)
Definition innerOfSomeLine (g : string) (w : World) : Prop :=
  ∃ lr, lr ∈ noteLines (live w) ∧ g ∈ NoteLine.innerNotes (getLine w lr).

(** What the first loop of [optimizeNote] keeps true of its state (the set
    of kept inner notes and the timeline), seen from the timeline [w0] it
    started on: the note objects and [noteMap] are untouched, the lines have
    gained no inner note, the set holds inner notes of [w0] only, and a note
    that is gone is what [noteMap] gives for an inner note of [w0]. *)
Definition pruned (w0 : World) (st : gset string * World) : Prop :=
  noteObjs (store st.2) = noteObjs (store w0)
  ∧ noteMap (live st.2) = noteMap (live w0)
  ∧ (∀ lr g, g ∈ NoteLine.innerNotes (getLine st.2 lr) →
             g ∈ NoteLine.innerNotes (getLine w0 lr))
  ∧ (∀ g, g ∈ st.1 → innerOfSomeLine g w0)
  ∧ (∀ r, r ∈ notes (live w0) → r ∉ notes (live st.2) →
          ∃ g, noteMap (live w0) !! g = Some r ∧ innerOfSomeLine g w0).

End VocabularyNotes.

(** ** Further concrete data *)

(** The two control points of [wideLane]. *)
Definition pointA : LanePoint.t := LanePoint.mk "a" 0 (mkFraction 0 1) (mkFraction 1 10) 8.

Definition pointC : LanePoint.t := LanePoint.mk "c" 2 (mkFraction 0 1) (mkFraction 1 10) 8.

(** A segment between x = 10 and x = 90, and a render area to its right. *)
Definition someLine : LineInfo :=
  mkLineInfo 100 (mkLinePointInfo (Vector2.mk 10 100) 80) (mkLinePointInfo (Vector2.mk 10 0) 80).

Definition areaToTheRight : RenderArea := mkRenderArea 200 300.

(** Divisions to choose from, three lanes of which the last has a template
    that taps may not use, and two notes. *)
Definition someDivisions : list Z := [1; 2; 4; 8; 16]%Z.

Definition threeLanes : list Lane.t :=
  [ Lane.mk "lane-a" [] "normal" 4; Lane.mk "lane-b" [] "normal" 4;
    Lane.mk "lane-c" [] "side" 4 ].

Definition someTypes : gmap string (option (list string)) :=
  {[ "tap" := Some ["side"]; "hold" := None ]}.

Definition tapOnA : Note.t :=
  Note.mk "n1" "lane-a" 0 (mkFraction 1 2) (mkFraction 0 4) 1 "tap" 1%Q "layer-0" 0%Q.

Definition holdOnB : Note.t :=
  Note.mk "n2" "lane-b" 0 (mkFraction 1 2) (mkFraction 0 4) 1 "hold" 1%Q "layer-0" 0%Q.

(** * Objects the snapshot shares with the timeline

    [toJS()] (immutable) turns the records and the arrays into plain objects
    and arrays of their own, but it hands on an instance of a class that a
    record holds as it is.  The [measurePosition] of the marker that
    [removeOtherObject] creates is such an instance ([new Fraction(0, 1)]),
    so the snapshot that [save()] leaves in [prevData] holds, at the place of
    that marker, the very object the live marker holds, and a write into it
    is seen through both.  [jsonpatch.deepClone] and [jsonpatch.compare] read
    [prevData] as it is when they are called.

    [World] keeps the contents of [prevData]; [Shared] adds which entries of
    [prevData.otherObjects] hold an object of the timeline.  Whether the
    position of a marker loaded from a document is such an instance depends
    on [OtherObjectRecord.createInstance] (objects/OtherObject, not among the
    sources); [instances] lists the markers for which the sources show it. *)

(** The keys of a [Fraction]. *)
Inductive FractionKey :=
  | KeyNumerator
  | KeyDenominator.

(** [fraction[key] = value] *)
Definition setKey (key : FractionKey) (value : Z) (f : Fraction) : Fraction :=
  match key with
  | KeyNumerator => mkFraction value (denominator f)
  | KeyDenominator => mkFraction (numerator f) value
  end.

Definition setMeasurePosition (v : Fraction) (o : OtherObject.t) : OtherObject.t :=
  OtherObject.mk (OtherObject.guid o) (OtherObject.type o) (OtherObject.measureIndex o) v
                 (OtherObject.value o) (OtherObject.layer o).

Definition setOtherData (v : list OtherObject.t) (d : TimelineData) : TimelineData :=
  mkData (d_notes d) (d_noteLines d) (d_measures d) (d_lanes d) (d_lanePoints d) v.

Section SharedInstances.
Context `{Collaborators}.

Record Shared := mkShared {
  world : World;
  instances : list ref;        (* the markers whose position the timeline made with [new] *)
  held : list (option ref)     (* per entry of [prevData.otherObjects]: the marker whose
                                  position object the entry holds *)
}.

Definition putOther (r : ref) (v : OtherObject.t) (w : World) : World :=
  updStore (λ s, mkStore (noteObjs s) (lineObjs s) (measureObjs s) (laneObjs s)
                         (pointObjs s) (<[r := v]> (otherObjs s)) (nextRef s)) w.





(** The write [parent[key] = value] of the inspector's [onChange]
    (Inspector.bind) for a key of the [measurePosition] of the marker
    [object]: [parent] is the object the marker holds, and every entry of the
    snapshot that holds it shows the write.  The time calculator is not
    rebuilt. *)
Definition writePosition (object : ref) (key : FractionKey) (value : Z) (s : Shared)
    : Shared :=
  let w := world s in
  let write := λ o, setMeasurePosition (setKey key value (OtherObject.measurePosition o)) o in
  let pd :=
    (λ d, setOtherData
            (imap (λ k o, if decide (held s !! k = Some (Some object)) then write o else o)
                  (d_otherObjects d)) d)
    <$> prevData (hist w) in
  mkShared (setHist (mkHist (histories (hist w)) (historyIndex (hist w)) pd)
                    (putOther object (write (getOther w object)) w))
           (instances s) (held s).

End SharedInstances.


(** ** Store cells and frames *)

Section Cells.
Context {A : Type} `{Inhabited A}.

Lemma mapCells_cons (f : A → A) (h : gmap ref A) x rs :
  mapCells f h (x :: rs) = mapCells f (<[x := f (h !!! x)]> h) rs.
Proof. reflexivity. Qed.

Lemma mapCells_notin (f : A → A) rs : ∀ (h : gmap ref A) r,
  r ∉ rs → mapCells f h rs !! r = h !! r.
Proof.
  induction rs as [|x rs IH]; intros h r Hr; [done|].
  apply not_elem_of_cons in Hr as [Hne Hr].
  rewrite mapCells_cons, IH by done. by rewrite lookup_insert_ne.
Qed.

Lemma mapCells_notin_total (f : A → A) rs (h : gmap ref A) r :
  r ∉ rs → mapCells f h rs !!! r = h !!! r.
Proof. intros Hr. by rewrite !lookup_total_alt, mapCells_notin. Qed.

Lemma mapCells_idem (f : A → A) rs : (∀ v, f (f v) = f v) →
  ∀ (h : gmap ref A) r, r ∈ rs → mapCells f h rs !!! r = f (h !!! r).
Proof.
  intros Hf. induction rs as [|x rs IH]; intros h r Hr; [by apply elem_of_nil in Hr|].
  rewrite mapCells_cons.
  destruct (decide (r ∈ rs)) as [Hin|Hout].
  - rewrite IH by done. destruct (decide (x = r)) as [->|Hne].
    + by rewrite lookup_total_insert_eq, Hf.
    + by rewrite lookup_total_insert_ne.
  - apply elem_of_cons in Hr as [->|?]; [|done].
    by rewrite mapCells_notin_total, lookup_total_insert_eq.
Qed.

Lemma mapCells_once (f : A → A) rs : NoDup rs →
  ∀ (h : gmap ref A) r, r ∈ rs → mapCells f h rs !!! r = f (h !!! r).
Proof.
  induction 1 as [|x rs Hx Hnd IH]; intros h r Hr; [by apply elem_of_nil in Hr|].
  rewrite mapCells_cons. apply elem_of_cons in Hr as [->|Hr].
  - by rewrite mapCells_notin_total, lookup_total_insert_eq.
  - rewrite IH by done. rewrite lookup_total_insert_ne; [done|]. intros ->. done.
Qed.

Lemma mapCells_dom (f : A → A) rs : ∀ (h : gmap ref A) r,
  is_Some (h !! r) → is_Some (mapCells f h rs !! r).
Proof.
  induction rs as [|x rs IH]; intros h r Hr; [done|].
  rewrite mapCells_cons. apply IH.
  destruct (decide (x = r)) as [->|Hne].
  - rewrite lookup_insert_eq. eauto.
  - by rewrite lookup_insert_ne.
Qed.
End Cells.

Section Frames.
Context `{Collaborators}.

Lemma world_eta (w : World) :
  mkWorld (store w) (live w) (hist w) (chart w) = w.
Proof. by destruct w. Qed.

Lemma store_eta (s : Store) :
  mkStore (noteObjs s) (lineObjs s) (measureObjs s) (laneObjs s) (pointObjs s) (otherObjs s)
          (nextRef s) = s.
Proof. by destruct s. Qed.

Lemma foldl_putNote (f : Note.t → Note.t) rs : ∀ w,
  foldl (λ w r, putNote r (f (getNote w r)) w) w rs
  = updStore (λ s, setNoteObjs (mapCells f (noteObjs s) rs) s) w.
Proof.
  induction rs as [|r rs IH]; intros w; simpl.
  - unfold updStore, setNoteObjs, mapCells. simpl. by rewrite store_eta, world_eta.
  - rewrite IH. reflexivity.
Qed.

Lemma foldl_putLine (f : NoteLine.t → NoteLine.t) rs : ∀ w,
  foldl (λ w r, putLine r (f (getLine w r)) w) w rs
  = updStore (λ s, setLineObjs (mapCells f (lineObjs s) rs) s) w.
Proof.
  induction rs as [|r rs IH]; intros w; simpl.
  - unfold updStore, setLineObjs, mapCells. simpl. by rewrite store_eta, world_eta.
  - rewrite IH. reflexivity.
Qed.

Lemma calculateTime_eq w :
  calculateTime w
  = mkWorld (setNoteObjs (mapCells (retime (freshTimeCalculator w)) (noteObjs (store w))
                                   (notes (live w))) (store w))
            (setTimeCalculator (freshTimeCalculator w) (live w)) (hist w) (chart w).
Proof. unfold calculateTime. rewrite foldl_putNote. reflexivity. Qed.

(** C10.  [removeOtherObject] of an object that is not a BPM marker returns,
    drops that object from [otherObjects] and changes nothing else: the other
    collections, the three maps, the time calculator, every object of the
    store (so every note's judgment time), the history and the chart are as
    before, and no marker is created. *)
Theorem removeOtherObject_nonBPM_frame fresh object w :
  OtherObject.isBPM (getOther w object) = false →
  ∃ w', removeOtherObject fresh object w = Some w'
        ∧ otherObjects (live w') = filter (λ obj, obj ≠ object) (otherObjects (live w))
        ∧ notes (live w') = notes (live w)
        ∧ noteLines (live w') = noteLines (live w)
        ∧ measures (live w') = measures (live w)
        ∧ lanes (live w') = lanes (live w)
        ∧ lanePoints (live w') = lanePoints (live w)
        ∧ noteMap (live w') = noteMap (live w)
        ∧ lanePointMap (live w') = lanePointMap (live w)
        ∧ laneMap (live w') = laneMap (live w)
        ∧ timeCalculator (live w') = timeCalculator (live w)
        ∧ store w' = store w
        ∧ hist w' = hist w
        ∧ chart w' = chart w.
Proof.
  intros Hb. eexists. split.
  - unfold removeOtherObject. 
    change (getOther (updLive _ w) object) with (getOther w object).
    rewrite Hb. reflexivity.
  - simpl. repeat split.
Qed.

End Frames.

(** ** removeNote *)

Section Notes.
Context `{Collaborators}.

Lemma foldl_removeNoteLine ts : ∀ w,
  foldl (λ w lr, removeNoteLine lr w) w ts
  = updLive (λ l, setNoteLines (foldl (λ ls lr, filter (λ r, r ≠ lr) ls) (noteLines l) ts) l) w.
Proof.
  induction ts as [|t ts IH]; intros w; simpl.
  - destruct w as [? [] ? ?]. reflexivity.
  - rewrite IH. reflexivity.
Qed.

Lemma elem_of_foldl_filter (ts : list ref) : ∀ (ls : list ref) r,
  r ∈ foldl (λ ls lr, filter (λ r, r ≠ lr) ls) ls ts ↔ r ∈ ls ∧ r ∉ ts.
Proof.
  induction ts as [|t ts IH]; intros ls r; simpl.
  - split; [intros ?; split; [done|apply not_elem_of_nil]|tauto].
  - rewrite IH, list_elem_of_filter, not_elem_of_cons. tauto.
Qed.

Lemma filter_idem {A} (P : A → Prop) `{∀ x, Decision (P x)} (l : list A) :
  filter P (filter P l) = filter P l.
Proof.
  induction l as [|x xs IH]; [done|].
  rewrite filter_cons. case_decide; [|done].
  rewrite filter_cons. case_decide; [|done]. by rewrite IH.
Qed.

Lemma stripInner_idem g l : stripInner g (stripInner g l) = stripInner g l.
Proof. unfold stripInner, NoteLine.setInnerNotes. simpl. by rewrite filter_idem. Qed.

Lemma updateNoteMap_noteLines w :
  noteLines (live (updateNoteMap w)) = noteLines (live w).
Proof. unfold updateNoteMap. by rewrite calculateTime_eq. Qed.

Lemma updateNoteMap_getLine w lr : getLine (updateNoteMap w) lr = getLine w lr.
Proof. unfold updateNoteMap, getLine. by rewrite calculateTime_eq. Qed.

(** C3.  After [removeNote(n)] has returned, whatever [updateNoteMap] was, no
    NoteLine of [noteLines] has [n.guid] as its head, as its tail, or among
    its [innerNotes]. *)
Theorem removeNote_unreferenced note updateMap w :
  unreferenced (Note.guid (getNote w note)) (removeNote note updateMap w).
Proof.
  set (g := Note.guid (getNote w note)).
  unfold unreferenced. apply Forall_forall. intros lr Hlr.
  unfold removeNote in *. fold g in Hlr |- *.
  set (w0 := match previouslyCreatedNote (live w) with
             | Some p => if bool_decide (g = Note.guid (getNote w p))
                         then updLive (setPreviouslyCreatedNote None) w else w
             | None => w end) in *.
  rewrite foldl_removeNoteLine, foldl_putLine in Hlr |- *.
  set (kept := foldl (λ ls lr, filter (λ r, r ≠ lr) ls) (noteLines (live w0))
                 (filter (λ lr, endsAt g (getLine w0 lr)) (noteLines (live w0)))) in *.
  assert (lr ∈ kept ∧
          getLine (if updateMap then updateNoteMap _ else _) lr
          = stripInner g (getLine w0 lr)) as [Hk ->].
  { destruct updateMap.
    - rewrite updateNoteMap_noteLines in Hlr. rewrite updateNoteMap_getLine.
      simpl in Hlr. split; [done|].
      unfold getLine at 1. simpl. apply mapCells_idem; [apply stripInner_idem|done].
    - simpl in Hlr. split; [done|].
      unfold getLine at 1. simpl. apply mapCells_idem; [apply stripInner_idem|done]. }
  apply elem_of_foldl_filter in Hk as [Hin Hnot].
  assert (endsAt g (getLine w0 lr) = false) as Hends.
  { destruct (endsAt g (getLine w0 lr)) eqn:E; [|done].
    exfalso. apply Hnot. apply list_elem_of_filter. by rewrite E. }
  unfold endsAt in Hends. apply orb_false_elim in Hends as [Hh Ht].
  apply bool_decide_eq_false in Hh, Ht. simpl.
  split; [done|]. split; [done|].
  intros Hin'. apply list_elem_of_filter in Hin' as [Hne _]. done.
Qed.

End Notes.

(** ** otherObjects and the BPM markers *)

Section Others.
Context `{Collaborators}.

Lemma calculateTime_otherObjects w :
  otherObjects (live (calculateTime w)) = otherObjects (live w).
Proof. by rewrite calculateTime_eq. Qed.

Lemma calculateTime_getOther w r : getOther (calculateTime w) r = getOther w r.
Proof. unfold getOther. by rewrite calculateTime_eq. Qed.

Lemma bpmChanges_calculateTime w : bpmChanges (calculateTime w) = bpmChanges w.
Proof.
  unfold bpmChanges. rewrite calculateTime_otherObjects.
  apply list_filter_iff. intros r. by rewrite calculateTime_getOther.
Qed.

Lemma elem_of_bpmChanges w r :
  r ∈ bpmChanges w ↔ OtherObject.isBPM (getOther w r) = true ∧ r ∈ otherObjects (live w).
Proof. unfold bpmChanges. by rewrite list_elem_of_filter. Qed.

Lemma bpmChanges_addOtherObject w o r :
  r ∈ bpmChanges w → r ∈ bpmChanges (addOtherObject o w).
Proof.
  intros [Hb Hin]%elem_of_bpmChanges. unfold addOtherObject.
  assert (r ∈ bpmChanges (updLive (λ l, setOtherObjects (otherObjects l ++ [o]) l) w)) as Hr.
  { apply elem_of_bpmChanges. split; [done|]. simpl. apply elem_of_app. by left. }
  cbv zeta. destruct (OtherObject.isBPM (getOther _ o)); [by rewrite bpmChanges_calculateTime|done].
Qed.

Lemma existsb_bpm_false w (rs : list ref) :
  existsb (λ r, OtherObject.isBPM (getOther w r)) rs = false ↔
  ∀ r, r ∈ rs → OtherObject.isBPM (getOther w r) = false.
Proof.
  induction rs as [|x rs IH]; simpl.
  - split; [intros _ r Hr; by apply elem_of_nil in Hr|done].
  - rewrite orb_false_iff, IH. split.
    + intros [Hx Hrs] r [->|Hr]%elem_of_cons; eauto.
    + intros Hall. split; [apply Hall; left|intros r Hr; apply Hall; by right].
Qed.

Lemma filter_nil_iff {A} (P : A → Prop) `{∀ x, Decision (P x)} (l : list A) :
  (∀ x, x ∈ l → ¬ P x) → filter P l = [].
Proof.
  intros Hall. induction l as [|x l IH]; [done|].
  rewrite filter_cons. case_decide as Hx.
  - exfalso. eapply Hall; [left|done].
  - apply IH. intros y Hy. apply Hall. by right.
Qed.

(** Removing the only BPM marker leaves exactly the provisional one. *)
Lemma removeOtherObject_last_bpm w fresh b layer rest :
  bpmChanges w = [b] →
  layers (chart w) = layer :: rest →
  (∀ r, r ∈ otherObjects (live w) → r < nextRef (store w)) →
  ∃ w' r, removeOtherObject fresh b w = Some w'
          ∧ bpmChanges w' = [r]
          ∧ getOther w' r = provisionalBPM fresh layer.
Proof.
  intros Hone Hlayers Hfresh.
  assert (OtherObject.isBPM (getOther w b) = true ∧ b ∈ otherObjects (live w)) as [Hb Hin].
  { apply elem_of_bpmChanges. rewrite Hone. left. }
  assert (∀ r, r ∈ otherObjects (live w) → r ≠ b → OtherObject.isBPM (getOther w r) = false)
    as Hothers.
  { intros r Hr Hne. destruct (OtherObject.isBPM (getOther w r)) eqn:E; [|done].
    exfalso. assert (r ∈ bpmChanges w) as Hrb by by apply elem_of_bpmChanges.
    rewrite Hone in Hrb. apply list_elem_of_singleton in Hrb. done. }
  set (rest' := filter (λ obj, obj ≠ b) (otherObjects (live w))).
  set (r := nextRef (store w)).
  unfold removeOtherObject. cbv zeta.
  change (getOther (updLive _ w) b) with (getOther w b). rewrite Hb.
  assert (existsb (λ r0, OtherObject.isBPM (getOther w r0)) rest' = false) as Hno.
  { apply existsb_bpm_false. intros x [Hne Hx]%list_elem_of_filter. by apply Hothers. }
  simpl. fold rest'. 
  change (existsb _ rest') with (existsb (λ r0, OtherObject.isBPM (getOther w r0)) rest').
  rewrite Hno. simpl. rewrite Hlayers. simpl.
  eexists _, r. split; [reflexivity|].
  rewrite bpmChanges_calculateTime, calculateTime_getOther.
  unfold addOtherObject. cbv zeta.
  set (w2 := updLive _ (updStore _ _)).
  assert (getOther w2 r = provisionalBPM fresh layer) as Hr.
  { unfold getOther, w2. simpl. by rewrite lookup_total_insert_eq. }
  fold r. rewrite Hr. simpl.
  rewrite bpmChanges_calculateTime, calculateTime_getOther, Hr.
  split; [|done].
  unfold bpmChanges. 
  change (otherObjects (live w2)) with (rest' ++ [r]).
  rewrite filter_app.
  rewrite (filter_nil_iff _ rest').
  - rewrite filter_cons. rewrite decide_True by (by rewrite Hr). done.
  - intros x [Hne Hx]%list_elem_of_filter.
    assert (getOther w2 x = getOther w x) as ->.
    { unfold getOther, w2. simpl. rewrite lookup_total_insert_ne; [done|].
      specialize (Hfresh x Hx). fold r in Hfresh. lia. }
    rewrite Hothers by done. done.
Qed.

Lemma removeOtherObject_keeps_bpm w fresh o w' :
  bpmChanges w ≠ [] → removeOtherObject fresh o w = Some w' → bpmChanges w' ≠ [].
Proof.
  intros Hne Hrm.
  destruct (bpmChanges w) as [|x xs] eqn:E; [done|].
  assert (x ∈ bpmChanges w) as [Hx Hin]%elem_of_bpmChanges by (rewrite E; left).
  set (w1 := updLive (λ l, setOtherObjects (filter (λ obj, obj ≠ o) (otherObjects l)) l) w).
  unfold removeOtherObject in Hrm. cbv zeta in Hrm. fold w1 in Hrm.
  change (getOther w1 o) with (getOther w o) in Hrm.
  destruct (OtherObject.isBPM (getOther w o)) eqn:Ho.
  - destruct (existsb _ _) eqn:Hex in Hrm; simpl in Hrm.
    + injection Hrm as <-. rewrite bpmChanges_calculateTime.
      apply existsb_exists in Hex as (y & Hy & Hby).
      apply list_elem_of_In in Hy.
      assert (y ∈ bpmChanges w1) as Hyb by by apply elem_of_bpmChanges.
      intros Hnil. rewrite Hnil in Hyb. by apply elem_of_nil in Hyb.
    + destruct (head (layers (chart w))) as [layer|]; simpl in Hrm; [|done].
      injection Hrm as <-. rewrite bpmChanges_calculateTime.
      unfold addOtherObject.
      set (w2 := updLive _ (updStore _ _)).
      assert (getOther w2 (nextRef (store w)) = provisionalBPM fresh layer) as Hr.
      { unfold getOther, w2. simpl. by rewrite lookup_total_insert_eq. }
      rewrite Hr. simpl. rewrite bpmChanges_calculateTime.
      assert (nextRef (store w) ∈ bpmChanges w2) as Hyb.
      { apply elem_of_bpmChanges. rewrite Hr. split; [done|].
        unfold w2. simpl. apply elem_of_app. right. left. }
      intros Hnil. rewrite Hnil in Hyb. by apply elem_of_nil in Hyb.
  - injection Hrm as <-.
    assert (x ∈ bpmChanges w1) as Hyb.
    { apply elem_of_bpmChanges. split; [done|]. simpl.
      apply list_elem_of_filter. split; [|done]. intros ->. congruence. }
    intros Hnil. rewrite Hnil in Hyb. by apply elem_of_nil in Hyb.
Qed.

Lemma removeOtherObject_last_bpm_layers w fresh b w' :
  bpmChanges w = [b] → removeOtherObject fresh b w = Some w' → layers (chart w) ≠ [].
Proof.
  intros Hone Hrm Hnil.
  assert (OtherObject.isBPM (getOther w b) = true ∧ b ∈ otherObjects (live w)) as [Hb Hin].
  { apply elem_of_bpmChanges. rewrite Hone. left. }
  unfold removeOtherObject in Hrm. cbv zeta in Hrm.
  change (getOther (updLive _ w) b) with (getOther w b) in Hrm. rewrite Hb in Hrm.
  destruct (existsb _ _) eqn:Hex in Hrm; simpl in Hrm.
  - apply existsb_exists in Hex as (y & Hy & Hby). apply list_elem_of_In in Hy.
    simpl in Hy. apply list_elem_of_filter in Hy as [Hne Hy].
    assert (y ∈ bpmChanges w) as Hyb by by apply elem_of_bpmChanges.
    rewrite Hone in Hyb. apply list_elem_of_singleton in Hyb. done.
  - rewrite Hnil in Hrm. done.
Qed.

(** C4, as amended.  When [otherObjects] holds exactly one BPM marker and
    [removeOtherObject] is applied to it, the call returns whenever the chart
    has a layer, and once it has returned [otherObjects] holds exactly one BPM
    marker, with value 120 at position 0/1 of measure 0.  A timeline that has a
    BPM marker still has one after any [addOtherObject] or
    [removeOtherObject]. *)
Theorem bpm_marker_invariant :
  (∀ w fresh b w',
     bpmChanges w = [b] →
     (∀ r, r ∈ otherObjects (live w) → r < nextRef (store w)) →
     removeOtherObject fresh b w = Some w' →
     ∃ r, bpmChanges w' = [r]
          ∧ OtherObject.value (getOther w' r) = 120%Q
          ∧ OtherObject.measureIndex (getOther w' r) = 0%Z
          ∧ OtherObject.measurePosition (getOther w' r) = mkFraction 0 1)
  ∧ (∀ w fresh b,
       bpmChanges w = [b] →
       (∀ r, r ∈ otherObjects (live w) → r < nextRef (store w)) →
       layers (chart w) ≠ [] → is_Some (removeOtherObject fresh b w))
  ∧ (∀ w fresh o w',
       bpmChanges w ≠ [] → removeOtherObject fresh o w = Some w' → bpmChanges w' ≠ [])
  ∧ (∀ w o, bpmChanges w ≠ [] → bpmChanges (addOtherObject o w) ≠ []).
Proof.
  split; [|split; [|split]].
  - intros w fresh b w' H1 H3 Hrm.
    pose proof (removeOtherObject_last_bpm_layers w fresh b w' H1 Hrm) as Hl.
    destruct (layers (chart w)) as [|layer rest] eqn:El; [done|].
    destruct (removeOtherObject_last_bpm w fresh b layer rest H1 El H3)
      as (w'' & r & Hrm' & ? & Hr).
    rewrite Hrm in Hrm'. injection Hrm' as <-.
    exists r. rewrite Hr. done.
  - intros w fresh b H1 H3 Hl.
    destruct (layers (chart w)) as [|layer rest] eqn:El; [done|].
    destruct (removeOtherObject_last_bpm w fresh b layer rest H1 El H3)
      as (w'' & r & -> & _). eauto.
  - apply removeOtherObject_keeps_bpm.
  - intros w o Hne. destruct (bpmChanges w) as [|x xs] eqn:E; [done|].
    assert (x ∈ bpmChanges (addOtherObject o w)) as Hx.
    { apply bpmChanges_addOtherObject. rewrite E. left. }
    intros Hnil. rewrite Hnil in Hx. by apply elem_of_nil in Hx.
Qed.

End Others.

(** ** The history engine *)

Section Alloc.
Context {A : Type} `{Inhabited A}.

Lemma allocAll_lookup_lt (l : list A) : ∀ (h : gmap ref A) n r,
  r < n → allocAll h n l !! r = h !! r.
Proof.
  induction l as [|x l IH]; intros h n r Hr; simpl; [done|].
  rewrite IH by lia. apply lookup_insert_ne. lia.
Qed.

Lemma allocAll_read (l : list A) : ∀ (h : gmap ref A) n,
  map (λ r, allocAll h n l !!! r) (seq n (length l)) = l.
Proof.
  induction l as [|x l IH]; intros h n; simpl; [done|].
  f_equal; [|apply IH].
  by rewrite lookup_total_alt, allocAll_lookup_lt, lookup_insert_eq by lia.
Qed.

Lemma allocAll_read_via {B C : Type} (g : B → A) (f : A → C) (l : list B)
    (h : gmap ref A) n :
  map (λ r, f (allocAll h n (map g l) !!! r)) (seq n (length l)) = map (λ x, f (g x)) l.
Proof.
  rewrite <- (length_map g l).
  rewrite <- (map_map (λ r, allocAll h n (map g l) !!! r) f).
  by rewrite allocAll_read, map_map.
Qed.
End Alloc.

Section Reload.
Context `{Collaborators}.

Lemma retime_idem tc n : retime tc (retime tc n) = retime tc n.
Proof. reflexivity. Qed.

Lemma toJS_calculateTime w :
  toJS (calculateTime w)
  = mkData (map (retime (freshTimeCalculator w)) (d_notes (toJS w)))
           (d_noteLines (toJS w)) (d_measures (toJS w)) (d_lanes (toJS w))
           (d_lanePoints (toJS w)) (d_otherObjects (toJS w)).
Proof.
  rewrite calculateTime_eq. unfold toJS. simpl. f_equal.
  rewrite map_map. apply map_ext_in. intros r Hr%list_elem_of_In.
  unfold getNote. simpl. apply mapCells_idem; [apply retime_idem|done].
Qed.

Lemma freshTimeCalculator_calculateTime w :
  freshTimeCalculator (calculateTime w) = freshTimeCalculator w.
Proof. by rewrite calculateTime_eq. Qed.

Lemma toJS_toMutable data w : toJS (toMutable data w) = reloaded data.
Proof.
  unfold toMutable. cbv zeta.
  set (s' := mkStore _ _ _ _ _ _ _). set (l' := mkLive _ _ _ _ _ _ _ _ _ _ _).
  set (W0 := mkWorld s' l' (hist w) (chart w)).
  assert (toJS W0 = data) as HW0.
  { unfold toJS, getNote, getLine, getMeasure, getLane, getPoint, getOther. simpl.
    rewrite !allocAll_read.
    rewrite (allocAll_read_via newMeasure Measure.dataOf). simpl.
    rewrite map_id. by destruct data. }
  assert (freshTimeCalculator W0
          = mkTimeCalculator
              (sortWith (λ a b, sortMeasure (otherPosition a) (otherPosition b))
                        (d_otherObjects data))
              (map newMeasure (d_measures data))) as Htc.
  { unfold freshTimeCalculator, getOther, getMeasure. simpl.
    rewrite allocAll_read.
    by rewrite (allocAll_read_via newMeasure (λ x, x)). }
  unfold updateLaneMap, updateLanePointMap, updateNoteMap.
  rewrite toJS_calculateTime.
  set (W1 := calculateTime (updLive _ W0)).
  assert (toJS W1 = reloaded data) as HW1.
  { unfold W1. rewrite toJS_calculateTime.
    change (toJS (updLive _ W0)) with (toJS W0).
    change (freshTimeCalculator (updLive _ W0)) with (freshTimeCalculator W0).
    rewrite HW0, Htc. reflexivity. }
  change (toJS (updLive _ (updLive _ W1))) with (toJS W1).
  change (freshTimeCalculator (updLive _ (updLive _ W1))) with (freshTimeCalculator W1).
  unfold W1 at 1. rewrite freshTimeCalculator_calculateTime.
  change (freshTimeCalculator (updLive _ W0)) with (freshTimeCalculator W0).
  rewrite HW1, Htc. unfold reloaded. simpl. f_equal.
  rewrite map_map. apply map_ext. intros n. apply retime_idem.
Qed.

Lemma toMutable_hist data w : hist (toMutable data w) = hist w.
Proof.
  unfold toMutable, updateLaneMap, updateLanePointMap, updateNoteMap. cbv zeta.
  by rewrite !calculateTime_eq.
Qed.

Lemma toMutable_chart data w : chart (toMutable data w) = chart w.
Proof.
  unfold toMutable, updateLaneMap, updateLanePointMap, updateNoteMap. cbv zeta.
  by rewrite !calculateTime_eq.
Qed.

Lemma toMutable_notes data w :
  notes (live (toMutable data w)) = seq (nextRef (store w)) (length (d_notes data)).
Proof.
  unfold toMutable, updateLaneMap, updateLanePointMap, updateNoteMap. cbv zeta.
  by rewrite !calculateTime_eq.
Qed.

End Reload.

Section Chain.
Context `{Collaborators}.

Lemma chain_length snaps : ∀ s0, length (chain s0 snaps) = length snaps.
Proof. induction snaps as [|s snaps IH]; intros s0; simpl; [done|]. by rewrite IH. Qed.

Lemma chain_lookup snaps : ∀ s0 i a b,
  (s0 :: snaps) !! i = Some a → snaps !! i = Some b →
  chain s0 snaps !! i = Some (checkpoint a b).
Proof.
  induction snaps as [|s snaps IH]; intros s0 i a b Ha Hb; [done|].
  destruct i as [|i]; simpl in *.
  - by injection Ha as <-; injection Hb as <-.
  - by apply IH.
Qed.

Lemma chain_take snaps : ∀ s0 k, take k (chain s0 snaps) = chain s0 (take k snaps).
Proof.
  induction snaps as [|s snaps IH]; intros s0 k; [by destruct k|].
  destruct k as [|k]; simpl; [done|]. by rewrite IH.
Qed.

Lemma chain_snoc snaps : ∀ s0 a b,
  (s0 :: snaps) !! length snaps = Some a →
  chain s0 (snaps ++ [b]) = chain s0 snaps ++ [checkpoint a b].
Proof.
  induction snaps as [|s snaps IH]; intros s0 a b Ha; simpl in *.
  - by injection Ha as <-.
  - f_equal. by apply IH.
Qed.

Lemma normalizeNotes_hist w : hist (normalizeNotes w) = hist w.
Proof. unfold normalizeNotes. by rewrite foldl_putNote. Qed.

Lemma normalizeNotes_chart w : chart (normalizeNotes w) = chart w.
Proof. unfold normalizeNotes. by rewrite foldl_putNote. Qed.

(** The last two assignments of [undo] and [redo] touch neither the entities
    nor the history. *)
Lemma toJS_dress f v w :
  toJS (updLive (setPreviouslyCreatedNote v) (updChart f w)) = toJS w.
Proof. reflexivity. Qed.

Lemma hist_dress f v w :
  hist (updLive (setPreviouslyCreatedNote v) (updChart f w)) = hist w.
Proof. reflexivity. Qed.

Lemma chart_dress f v w :
  chart (updLive (setPreviouslyCreatedNote v) (updChart f w)) = f (chart w).
Proof. reflexivity. Qed.

Lemma undo_eq w pd h data :
  canUndo (chart w) = true → prevData (hist w) = Some pd →
  nthZ (histories (hist w)) (historyIndex (hist w) - 1) = Some h →
  applyPatch pd (redoPatch h) = Some data →
  undo w
  = Some (updLive (setPreviouslyCreatedNote None)
            (updChart (setFlags (1 <? historyIndex (hist w) - 1)%Z true)
               (toMutable data
                  (setHist (mkHist (histories (hist w)) (historyIndex (hist w) - 1)
                                   (Some data)) w)))).
Proof.
  intros Hu Hp Hh Ha. unfold undo. rewrite Hu, Hp. cbn [negb mbind option_bind].
  rewrite Hh. cbn [mbind option_bind]. rewrite Ha. reflexivity.
Qed.

Lemma redo_eq w pd h data :
  canRedo (chart w) = true → prevData (hist w) = Some pd →
  nthZ (histories (hist w)) (historyIndex (hist w) + 1 - 1) = Some h →
  applyPatch pd (undoPatch h) = Some data →
  redo w
  = Some (updLive (setPreviouslyCreatedNote None)
            (updChart (setFlags true
                         (historyIndex (hist w) + 1
                          <? Z.of_nat (length (histories (hist w))))%Z)
               (toMutable data
                  (setHist (mkHist (histories (hist w)) (historyIndex (hist w) + 1)
                                   (Some data)) w)))).
Proof.
  intros Hr Hp Hh Ha. unfold redo. rewrite Hr, Hp. cbn [negb mbind option_bind].
  rewrite Hh. cbn [mbind option_bind]. rewrite Ha. cbn [mbind option_bind].
  by rewrite toMutable_hist.
Qed.

Lemma slice0_nat {A} (k : nat) (l : list A) : slice0 (Z.of_nat k) l = take k l.
Proof.
  unfold slice0. destruct (Z.ltb_spec (Z.of_nat k) 0); [lia|]. by rewrite Nat2Z.id.
Qed.

Lemma nthZ_nat {A} (k : nat) (l : list A) : nthZ l (Z.of_nat k) = l !! k.
Proof.
  unfold nthZ. destruct (Z.ltb_spec (Z.of_nat k) 0); [lia|]. by rewrite Nat2Z.id.
Qed.

Lemma save_tracks snaps k w e :
  tracks snaps k w →
  ∃ w', save (applyEdit e w) = Some w'
        ∧ tracks (take k snaps ++ [toJS w']) (S k) w'
        ∧ canUndo (chart w') = true ∧ canRedo (chart w') = false.
Proof.
  intros (Hh & Hi & [Hk1 Hk2] & Hp).
  destruct (snaps !! (k - 1)) as [a|] eqn:Ea;
    [|apply lookup_ge_None in Ea; lia].
  unfold save. cbv zeta.
  rewrite normalizeNotes_hist. simpl. rewrite Hh, chain_length.
  destruct (Nat.eqb_spec (length snaps) 0) as [|_]; [lia|].
  rewrite Hp. simpl. eexists. split; [reflexivity|].
  set (b := toJS (normalizeNotes (applyEdit e w))).
  split; [|done]. unfold tracks. simpl.
  change (toJS (updChart _ (setHist _ _))) with b.
  rewrite Hi, slice0_nat, chain_take.
  assert (length (take k snaps) = k) as Hlen by (rewrite length_take; lia).
  split; [|split; [lia|split]].
  - symmetry. apply chain_snoc. rewrite Hlen.
    destruct k as [|k]; [lia|]. simpl. rewrite lookup_take_lt by lia.
    by replace (S k - 1) with k in Ea by lia.
  - rewrite length_app, Hlen. simpl. lia.
  - replace (k - 0) with (length (take k snaps)) by lia.
    by rewrite list_lookup_middle.
Qed.

Lemma undo_tracks `{!CollaboratorsOk} snaps k w a :
  tracks snaps k w → 2 ≤ k → canUndo (chart w) = true → snaps !! (k - 2) = Some a →
  ∃ w', undo w = Some w'
        ∧ tracks snaps (k - 1) w'
        ∧ canUndo (chart w') = (1 <? Z.of_nat (k - 1))%Z
        ∧ canRedo (chart w') = true
        ∧ toJS w' = reloaded a.
Proof.
  intros (Hh & Hi & [Hk1 Hk2] & Hp) Hk Hu Ha.
  destruct (snaps !! (k - 1)) as [b|] eqn:Eb;
    [|apply lookup_ge_None in Eb; lia].
  assert (nthZ (histories (hist w)) (historyIndex (hist w) - 1) = Some (checkpoint a b))
    as Hn.
  { rewrite Hi, Hh.
    replace (Z.of_nat k - 1)%Z with (Z.of_nat (k - 1)) by lia.
    rewrite nthZ_nat. apply chain_lookup; [|done].
    destruct k as [|[|k]]; [lia..|]. simpl.
    by replace (S (S k) - 2) with k in Ha by lia. }
  eexists. split.
  { apply (undo_eq w b (checkpoint a b) a); [done..|]. apply applyPatch_compare. }
  unfold tracks. rewrite hist_dress, chart_dress, toJS_dress, toMutable_hist, toJS_toMutable.
  cbn [hist setHist histories historyIndex prevData canUndo canRedo setFlags].
  rewrite Hi.
  replace (Z.of_nat k - 1)%Z with (Z.of_nat (k - 1)) by lia.
  split; [|done].
  split; [done|]. split; [done|]. split; [lia|].
  by replace (k - 1 - 1) with (k - 2) by lia.
Qed.

Lemma redo_tracks `{!CollaboratorsOk} snaps k w b :
  tracks snaps k w → canRedo (chart w) = true → snaps !! k = Some b →
  ∃ w', redo w = Some w'
        ∧ tracks snaps (S k) w'
        ∧ canUndo (chart w') = true
        ∧ canRedo (chart w') = (Z.of_nat (S k) <? Z.of_nat (length snaps))%Z
        ∧ toJS w' = reloaded b.
Proof.
  intros (Hh & Hi & [Hk1 Hk2] & Hp) Hr Hb.
  destruct (snaps !! (k - 1)) as [a|] eqn:Ea;
    [|apply lookup_ge_None in Ea; lia].
  assert (nthZ (histories (hist w)) (historyIndex (hist w) + 1 - 1) = Some (checkpoint a b))
    as Hn.
  { rewrite Hi, Hh.
    replace (Z.of_nat k + 1 - 1)%Z with (Z.of_nat k) by lia.
    rewrite nthZ_nat. apply chain_lookup; [|done].
    destruct k as [|k]; [lia|]. simpl.
    by replace (S k - 1) with k in Ea by lia. }
  eexists. split.
  { apply (redo_eq w a (checkpoint a b) b); [done..|]. apply applyPatch_compare. }
  unfold tracks. rewrite hist_dress, chart_dress, toJS_dress, toMutable_hist, toJS_toMutable.
  cbn [hist setHist histories historyIndex prevData canUndo canRedo setFlags].
  rewrite Hi, Hh, chain_length.
  replace (Z.of_nat k + 1)%Z with (Z.of_nat (S k)) by lia.
  split; [|done].
  split; [done|]. split; [done|].
  pose proof (lookup_lt_Some _ _ _ Hb). split; [lia|].
  by replace (S k - 1) with k by lia.
Qed.

End Chain.

Section RoundTrip.
Context `{Collaborators}.

Lemma applyEdit_id w : applyEdit (λ w, w) w = w.
Proof. by destruct w. Qed.

Lemma toJS_normalizeNotes w :
  NoDup (notes (live w)) →
  toJS (normalizeNotes w)
  = mkData (map normalize (d_notes (toJS w))) (d_noteLines (toJS w)) (d_measures (toJS w))
           (d_lanes (toJS w)) (d_lanePoints (toJS w)) (d_otherObjects (toJS w)).
Proof.
  intros Hnd. unfold normalizeNotes. rewrite foldl_putNote.
  unfold toJS. simpl. f_equal.
  rewrite map_map. apply map_ext_in. intros r Hr%list_elem_of_In.
  unfold getNote. simpl. by apply mapCells_once.
Qed.

Lemma initialSave_tracks w :
  histories (hist w) = [] → historyIndex (hist w) = 0%Z →
  tracks [toJS (initialSave w)] 1 (initialSave w)
  ∧ chart (initialSave w) = chart w
  ∧ toJS (initialSave w) = toJS w.
Proof.
  intros Hh Hi. unfold tracks, initialSave. simpl. rewrite Hh, Hi.
  split; [|done]. split; [done|]. split; [done|]. split; [lia|done].
Qed.

Lemma new_tracks c data :
  ∃ w0, new c data = Some w0 ∧ tracks [toJS w0] 1 w0 ∧ chart w0 = c
        ∧ toJS w0 = toJS (normalizeNotes (toMutable data (emptyWorld c))).
Proof.
  unfold new, save. cbv zeta.
  rewrite normalizeNotes_hist, toMutable_hist.
  change (length (histories (hist (emptyWorld c))) =? 0)%nat with true. cbv iota.
  assert (hist (normalizeNotes (toMutable data (emptyWorld c))) = mkHist [] 0 None) as Hh
    by (by rewrite normalizeNotes_hist, toMutable_hist).
  assert (chart (normalizeNotes (toMutable data (emptyWorld c))) = c) as Hc
    by (by rewrite normalizeNotes_chart, toMutable_chart).
  revert Hh Hc. generalize (normalizeNotes (toMutable data (emptyWorld c))). intros W Hh Hc.
  exists (initialSave W). split; [reflexivity|].
  destruct (initialSave_tracks W) as (Ht & Hc' & HJ); [by rewrite Hh..|].
  split; [done|]. split; [congruence|done].
Qed.







(** Where the line runs: a write of the inspector into the position of a
    marker whose object the snapshot does not hold is an edit that leaves
    the snapshot alone, and the round-trip law covers it. *)
Lemma writePosition_applyEdit object key value s :
  Some object ∉ held s →
  world (writePosition object key value s)
  = applyEdit
      (λ w, putOther object
              (setMeasurePosition
                 (setKey key value (OtherObject.measurePosition (getOther w object)))
                 (getOther w object)) w)
      (world s).
Proof.
  intros Hout. unfold writePosition, applyEdit. cbn [world store live chart].
  unfold putOther, updStore, setHist. cbn [store live hist chart]. f_equal.
  destruct (hist (world s)) as [hs i [d|]]; cbn [histories historyIndex prevData fmap option_fmap option_map];
    [|done].
  do 2 f_equal. destruct d as [ns ls ms las ps os]. unfold setOtherData. cbn. f_equal.
  apply list_eq. intros k. rewrite list_lookup_imap.
  destruct (os !! k) as [o|]; [|done]. cbn.
  destruct (decide (held s !! k = Some (Some object))) as [E|_]; [|done].
  destruct Hout. by eapply list_elem_of_lookup_2.
Qed.

Lemma reachable_sound `{!CollaboratorsOk} w : reachable w → sound w.
Proof.
  induction 1 as [c d w Hu Hr Hnew|e w _ IH|w w' _ IH Hs|w w' _ IH Hs|w w' _ IH Hs].
  - destruct (new_tracks c d) as (w0 & Hnew' & Ht & Hc & _).
    rewrite Hnew in Hnew'. injection Hnew' as <-.
    exists [toJS w], 1. rewrite Hc, Hu, Hr. done.
  - destruct IH as (snaps & k & Ht & HU & HR). exists snaps, k. done.
  - destruct IH as (snaps & k & Ht & HU & HR).
    destruct (save_tracks snaps k w (λ w, w) Ht) as (w1 & Hs1 & Ht1 & Hu1 & Hr1).
    rewrite applyEdit_id, Hs in Hs1. injection Hs1 as <-.
    pose proof Ht as (_ & _ & [Hk1 Hk2] & _).
    eexists _, _. split; [exact Ht1|]. rewrite Hr1. split; [lia|done].
  - destruct IH as (snaps & k & Ht & HU & HR).
    destruct (canUndo (chart w)) eqn:Hu.
    + specialize (HU eq_refl). pose proof Ht as (_ & _ & [Hk1 Hk2] & _).
      destruct (snaps !! (k - 2)) as [a0|] eqn:Ea0;
        [|apply lookup_ge_None in Ea0; lia].
      destruct (undo_tracks snaps k w a0 Ht HU Hu Ea0) as (w1 & Hs1 & Ht1 & Hu1 & Hr1 & _).
      rewrite Hs in Hs1. injection Hs1 as <-.
      exists snaps, (k - 1). split; [done|]. rewrite Hu1. split.
      * intros ?%Z.ltb_lt. lia.
      * intros _. lia.
    + unfold undo in Hs. rewrite Hu in Hs. injection Hs as <-.
      exists snaps, k. rewrite Hu. done.
  - destruct IH as (snaps & k & Ht & HU & HR).
    destruct (canRedo (chart w)) eqn:Hr.
    + specialize (HR eq_refl).
      destruct (snaps !! k) as [b|] eqn:Eb; [|apply lookup_ge_None in Eb; lia].
      destruct (redo_tracks snaps k w b Ht Hr Eb) as (w1 & Hs1 & Ht1 & Hu1 & Hr1 & _).
      rewrite Hs in Hs1. injection Hs1 as <-.
      exists snaps, (S k). split; [done|]. rewrite Hr1. split.
      * intros _. pose proof Ht as (_ & _ & [Hk1 Hk2] & _). lia.
      * intros ?%Z.ltb_lt. lia.
    + unfold redo in Hs. rewrite Hr in Hs. injection Hs as <-.
      exists snaps, k. rewrite Hr. done.
Qed.

(** C2, as amended.  In a state of the timeline in which [canUndo] holds and
    whose entities are what a reload of the last checkpoint gives (nothing
    was edited since the last save, undo or redo, and the judgment times are
    current), [undo()] followed by [redo()] returns and leaves the serialised
    state unchanged. *)
Theorem undo_redo_identity `{!CollaboratorsOk} w pd :
  reachable w → canUndo (chart w) = true →
  prevData (hist w) = Some pd → toJS w = reloaded pd →
  ∃ w1 w2, undo w = Some w1 ∧ redo w1 = Some w2 ∧ toJS w2 = toJS w.
Proof.
  intros Hreach Hu Hp HJ.
  destruct (reachable_sound w Hreach) as (snaps & k & Ht & HU & _).
  specialize (HU Hu). pose proof Ht as (_ & _ & [Hk1 Hk2] & Hp').
  destruct (snaps !! (k - 2)) as [a0|] eqn:Ea0;
    [|apply lookup_ge_None in Ea0; lia].
  destruct (undo_tracks snaps k w a0 Ht HU Hu Ea0) as (w1 & Hs1 & Ht1 & _ & Hr1 & _).
  rewrite Hp in Hp'.
  destruct (redo_tracks snaps (k - 1) w1 pd Ht1 Hr1 ltac:(done)) as (w2 & Hs2 & _ & _ & _ & HJ2).
  exists w1, w2. rewrite HJ2, HJ. done.
Qed.

End RoundTrip.

(** ** optimizeLane *)

Section Sorting.
Context {A : Type} (le : A → A → bool).

Lemma sortBy_cons x l : sortBy le (x :: l) = insertBy le x (sortBy le l).
Proof. reflexivity. Qed.

Lemma sortBy_sorted_id l : Sorted (leP le) l → sortBy le l = l.
Proof.
  induction 1 as [|x l Hs IH Hhd]; [done|].
  rewrite sortBy_cons, IH. destruct Hhd as [|y l' Hxy]; simpl; [done|].
  by rewrite Hxy.
Qed.

Lemma insertBy_Forall (P : A → Prop) x l :
  P x → Forall P l → Forall P (insertBy le x l).
Proof.
  intros Hx. induction 1 as [|y l Hy Hl IH]; simpl.
  - by constructor.
  - destruct (le x y); repeat constructor; done.
Qed.

Lemma sortBy_Forall (P : A → Prop) l : Forall P l → Forall P (sortBy le l).
Proof.
  induction 1 as [|x l Hx Hl IH]; [constructor|].
  rewrite sortBy_cons. by apply insertBy_Forall.
Qed.

Lemma insertBy_length x l : length (insertBy le x l) = S (length l).
Proof.
  induction l as [|y l IH]; simpl; [done|].
  destruct (le x y); simpl; [done|]. by rewrite IH.
Qed.

Lemma sortBy_length l : length (sortBy le l) = length l.
Proof.
  induction l as [|x l IH]; [done|].
  by rewrite sortBy_cons, insertBy_length, IH.
Qed.

Hypothesis le_total : ∀ a b, le a b = false → le b a = true.

Lemma insertBy_Sorted x l : Sorted (leP le) l → Sorted (leP le) (insertBy le x l).
Proof.
  induction 1 as [|y l Hs IH Hhd]; simpl.
  - repeat constructor.
  - destruct (le x y) eqn:Hxy.
    + constructor; [by constructor|]. by constructor.
    + constructor; [done|].
      destruct l as [|z l]; simpl in *.
      * constructor. by apply le_total.
      * destruct (le x z); constructor.
        -- by apply le_total.
        -- by inversion Hhd.
Qed.

Lemma sortBy_Sorted l : Sorted (leP le) (sortBy le l).
Proof.
  induction l as [|x l IH]; [constructor|].
  rewrite sortBy_cons. by apply insertBy_Sorted.
Qed.

End Sorting.

Lemma sortBy_map {A B} (f : A → B) (le : B → B → bool) (l : list A) :
  sortBy le (map f l) = map f (sortBy (λ a b, le (f a) (f b)) l).
Proof.
  induction l as [|x l IH]; [done|].
  simpl map. rewrite !sortBy_cons, IH.
  generalize (sortBy (λ a b, le (f a) (f b)) l). intros s.
  induction s as [|y s IHs]; simpl; [done|].
  destruct (le (f x) (f y)); simpl; [done|]. by rewrite IHs.
Qed.

Lemma Sorted_app_overlap {A} (R : A → A → Prop) (l1 : list A) x l2 :
  Sorted R (l1 ++ [x]) → Sorted R (x :: l2) → Sorted R (l1 ++ x :: l2).
Proof.
  intros H1 H2. induction l1 as [|a l1 IH]; simpl in *; [done|].
  inversion H1 as [|? ? Hs Hhd]; subst. constructor; [by apply IH|].
  destruct l1 as [|b l1]; simpl in *.
  - inversion Hhd; subst. by constructor.
  - inversion Hhd; subst. by constructor.
Qed.

Section OptimizeLane.
Context `{Collaborators}.

Lemma pointLe_total w a b : pointLe w a b = false → pointLe w b a = true.
Proof.
  unfold pointLe. intros Hab. apply Qle_bool_iff.
  destruct (Qle_bool (posOf w a - posOf w b) 0) eqn:E; [done|].
  assert (¬ (posOf w a - posOf w b <= 0)%Q) as Hn.
  { intros Hc. apply Qle_bool_iff in Hc. congruence. }
  lra.
Qed.

Lemma sortPoints_eq w pts :
  sortPoints w pts
  = if (length pts <? 2)%nat then Some pts
    else if decide (Forall (λ g, is_Some (pointPosition w g)) pts)
         then Some (sortBy (pointLe w) pts) else None.
Proof.
  unfold sortPoints. destruct (length pts <? 2)%nat; [done|].
  destruct (decide _) as [Hall|Hnot].
  - assert (mapM (λ g, p ← pointPosition w g; Some (p, g)) pts
            = Some (map (λ g, (posOf w g, g)) pts)) as ->.
    { apply mapM_Some. apply Forall2_fmap_r, Forall_Forall2_diag.
      eapply Forall_impl; [exact Hall|]. intros g [p Hp]. unfold posOf, compose. by rewrite Hp. }
    simpl. f_equal. unfold sortWith.
    rewrite (sortBy_map (λ g, (posOf w g, g))). rewrite map_map. simpl. by rewrite map_id.
  - destruct (mapM _ pts) as [keyed|] eqn:E; [|done].
    exfalso. apply Hnot.
    assert (is_Some (mapM (λ g, p ← pointPosition w g; Some (p, g)) pts)) as Hs by eauto.
    apply mapM_is_Some in Hs. eapply Forall_impl; [exact Hs|].
    intros g [x Hx]. simpl in Hx. destruct (pointPosition w g); [eauto|done].
Qed.

Lemma tidy_sortPoints w pts : tidy w pts → sortPoints w pts = Some pts.
Proof.
  intros Ht. rewrite sortPoints_eq.
  destruct (Nat.ltb_spec (length pts) 2) as [|Hlen]; [done|].
  destruct Ht as [?|[Hall Hs]]; [lia|].
  rewrite decide_True by done. f_equal. by apply sortBy_sorted_id.
Qed.

Lemma sortPoints_tidy w pts pts' : sortPoints w pts = Some pts' → tidy w pts'.
Proof.
  rewrite sortPoints_eq.
  destruct (Nat.ltb_spec (length pts) 2) as [Hlen|Hlen].
  - intros [= <-]. by left.
  - destruct (decide _) as [Hall|]; [|done]. intros [= <-]. right. split.
    + by apply sortBy_Forall.
    + apply sortBy_Sorted, pointLe_total.
Qed.

Lemma tidy_merge w pts1 pts2 :
  tidy w pts1 → tidy w pts2 → head pts2 = last pts1 →
  tidy w (pts1 ++ drop 1 pts2).
Proof.
  intros H1 H2 Hjoin.
  destruct pts2 as [|x [|y r]]; simpl; [by rewrite app_nil_r..|].
  simpl in Hjoin. symmetry in Hjoin. apply last_Some in Hjoin as [q ->].
  destruct H2 as [Hlen|[Hall2 Hs2]]; [simpl in Hlen; lia|].
  destruct q as [|a q]; [by right|].
  destruct H1 as [Hlen|[Hall1 Hs1]].
  { rewrite length_app in Hlen. simpl in Hlen. lia. }
  right. rewrite <- app_assoc. simpl. split.
  - apply Forall_app in Hall1 as [Hq _].
    change (a :: q ++ x :: y :: r) with ((a :: q) ++ x :: y :: r).
    apply Forall_app. done.
  - by apply (Sorted_app_overlap _ (a :: q)).
Qed.

Lemma tidy_ext w w' pts :
  lanePoints (live w') = lanePoints (live w) →
  pointObjs (store w') = pointObjs (store w) →
  tidy w pts → tidy w' pts.
Proof.
  intros E1 E2. unfold tidy, pointLe, posOf, pointPosition, getPoint.
  by rewrite E1, E2.
Qed.

Lemma sortLane_inv x w w' :
  sortLane x w = Some w' →
  ∃ pts, sortPoints w (Lane.points (getLane w x)) = Some pts
         ∧ w' = putLane x (Lane.setPoints pts (getLane w x)) w.
Proof.
  unfold sortLane. destruct (sortPoints _ _) as [pts|]; simpl; [|done].
  intros [= <-]. eauto.
Qed.

Lemma sortLane_good x w w' z :
  sortLane x w = Some w' → z = x ∨ good w z → good w' z.
Proof.
  intros (pts & Hs & ->)%sortLane_inv Hz. unfold good, getLane. simpl.
  destruct (decide (z = x)) as [->|Hne].
  - rewrite lookup_insert_eq, lookup_total_insert_eq. split; [eauto|].
    simpl. apply (tidy_ext w); [done..|]. by eapply sortPoints_tidy.
  - destruct Hz as [?|[Ha Ht]]; [done|].
    rewrite lookup_insert_ne, lookup_total_insert_ne by done. split; [done|].
    by apply (tidy_ext w).
Qed.

Lemma forM_sortLane ls : ∀ w w',
  forM sortLane ls w = Some w' →
  lanes (live w') = lanes (live w)
  ∧ (∀ z, z ∈ ls ∨ good w z → good w' z).
Proof.
  induction ls as [|x ls IH]; intros w w'; simpl.
  - intros [= <-]. split; [done|]. intros z [Hz|?]; [by apply elem_of_nil in Hz|done].
  - destruct (sortLane x w) as [w1|] eqn:Hx; simpl; [|done].
    intros Hrest. destruct (IH _ _ Hrest) as [Hl Hg].
    pose proof Hx as (pts & _ & E)%sortLane_inv.
    split; [by rewrite Hl, E|].
    intros z Hz. apply Hg.
    destruct Hz as [[->|Hz]%elem_of_cons|Hz].
    + right. eapply sortLane_good; [done|by left].
    + by left.
    + right. eapply sortLane_good; [done|by right].
Qed.

Lemma settled_sortLane w lane :
  settled w → lane ∈ lanes (live w) → sortLane lane w = Some w.
Proof.
  intros Hs Hin. destruct (Hs lane Hin) as [[l Hl] Ht].
  unfold sortLane. rewrite (tidy_sortPoints _ _ Ht). simpl. f_equal.
  unfold putLane, updStore, getLane. rewrite (lookup_total_correct _ _ _ Hl).
  replace (Lane.setPoints (Lane.points l) l) with l by by destruct l.
  rewrite insert_id by done.
  destruct w as [[] ? ? ?]. reflexivity.
Qed.

Lemma settled_forM_sortLane w ls :
  settled w → ls ⊆ lanes (live w) → forM sortLane ls w = Some w.
Proof.
  intros Hs. induction ls as [|x ls IH]; intros Hsub; simpl; [done|].
  rewrite settled_sortLane; [|done|apply Hsub; left]. simpl.
  apply IH. intros z Hz. apply Hsub. by right.
Qed.

Lemma findMerge_Some w lane next :
  findMerge w = Some (lane, next) →
  lane ∈ lanes (live w) ∧ next ∈ lanes (live w) ∧ follows w lane next = true.
Proof.
  unfold findMerge. intros Hh.
  assert ((lane, next) ∈ omap (λ lane, nextLane ← nextLaneOf w lane; Some (lane, nextLane))
                              (lanes (live w))) as Hin.
  { destruct (omap _ _) as [|p ps]; [done|]. injection Hh as ->. left. }
  apply list_elem_of_omap in Hin as (l0 & Hl0 & Hf).
  destruct (nextLaneOf w l0) as [n|] eqn:En; simpl in Hf; [|done].
  injection Hf as -> ->. unfold nextLaneOf in En.
  apply find_some in En as [Hn Hfol]. apply list_elem_of_In in Hn. done.
Qed.

Lemma mergeLanes_lanePoints lane next w :
  lanePoints (live (mergeLanes lane next w)) = lanePoints (live w)
  ∧ pointObjs (store (mergeLanes lane next w)) = pointObjs (store w).
Proof.
  unfold mergeLanes, setLanes, updateLaneMap. cbv zeta.
  by rewrite calculateTime_eq, foldl_putNote.
Qed.

Lemma mergeLanes_laneObjs lane next w :
  laneObjs (store (mergeLanes lane next w))
  = <[lane := Lane.setPoints (Lane.points (getLane w lane)
                              ++ drop 1 (Lane.points (getLane w next)))
                             (getLane w lane)]> (laneObjs (store w)).
Proof.
  unfold mergeLanes, setLanes, updateLaneMap. cbv zeta.
  by rewrite calculateTime_eq, foldl_putNote.
Qed.

Lemma mergeLanes_lanes lane next w :
  lanes (live (mergeLanes lane next w))
  = match list_find (λ l, l = next) (lanes (live w)) with
    | Some (i, _) => delete i (lanes (live w))
    | None => lanes (live w)
    end.
Proof.
  unfold mergeLanes, setLanes, updateLaneMap. cbv zeta.
  by rewrite calculateTime_eq, foldl_putNote.
Qed.

Lemma mergeLanes_length lane next w :
  next ∈ lanes (live w) →
  S (length (lanes (live (mergeLanes lane next w)))) = length (lanes (live w)).
Proof.
  intros Hin. rewrite mergeLanes_lanes.
  destruct (list_find _ _) as [[i x]|] eqn:E.
  - apply list_find_Some in E as (Hi & _ & _). apply lookup_lt_Some in Hi.
    rewrite length_delete by (by apply lookup_lt_is_Some). lia.
  - apply list_find_None in E. exfalso.
    eapply Forall_forall in E; [|exact Hin]. done.
Qed.

Lemma mergeLanes_subset lane next w z :
  z ∈ lanes (live (mergeLanes lane next w)) → z ∈ lanes (live w).
Proof.
  rewrite mergeLanes_lanes. destruct (list_find _ _) as [[i x]|]; [|done].
  intros Hz. eapply elem_of_sublist; [exact Hz|]. apply sublist_delete.
Qed.

Lemma mergeLanes_settled lane next w :
  settled w → findMerge w = Some (lane, next) → settled (mergeLanes lane next w).
Proof.
  intros Hs (Hl & Hn & Hf)%findMerge_Some z Hz%mergeLanes_subset.
  destruct (mergeLanes_lanePoints lane next w) as [E1 E2].
  unfold good, getLane. rewrite mergeLanes_laneObjs.
  destruct (decide (z = lane)) as [->|Hne].
  - rewrite lookup_insert_eq, lookup_total_insert_eq. split; [eauto|]. simpl.
    apply (tidy_ext w); [done..|].
    apply tidy_merge; [apply (Hs lane Hl)|apply (Hs next Hn)|].
    unfold follows in Hf. apply andb_prop in Hf as [_ Hj].
    by apply bool_decide_eq_true in Hj.
  - rewrite lookup_insert_ne, lookup_total_insert_ne by done.
    destruct (Hs z Hz) as [Ha Ht]. split; [done|]. by apply (tidy_ext w).
Qed.

Lemma mergeLoop_settled fuel : ∀ w, settled w → settled (mergeLoop fuel w).
Proof.
  induction fuel as [|fuel IH]; intros w Hs; simpl; [done|].
  destruct (findMerge w) as [[lane next]|] eqn:E; [|done].
  apply IH. by apply mergeLanes_settled.
Qed.

Lemma mergeLoop_done fuel : ∀ w,
  length (lanes (live w)) ≤ fuel → findMerge (mergeLoop fuel w) = None.
Proof.
  induction fuel as [|fuel IH]; intros w Hlen; simpl.
  - unfold findMerge. destruct (lanes (live w)); [done|simpl in Hlen; lia].
  - destruct (findMerge w) as [[lane next]|] eqn:E; [|done].
    apply IH. apply findMerge_Some in E as (_ & Hn & _).
    pose proof (mergeLanes_length lane next w Hn). lia.
Qed.

Lemma mergeLoop_fixed fuel w : findMerge w = None → mergeLoop fuel w = w.
Proof. intros E. destruct fuel; simpl; [done|]. by rewrite E. Qed.

Lemma optimizeLane_settled w w' :
  optimizeLane w = Some w' → settled w' ∧ findMerge w' = None.
Proof.
  unfold optimizeLane.
  destruct (forM sortLane (lanes (live w)) w) as [w1|] eqn:E; simpl; [|done].
  intros [= <-]. apply forM_sortLane in E as [Hl Hg]. split.
  - apply mergeLoop_settled. intros z Hz. apply Hg. left. by rewrite <- Hl.
  - by apply mergeLoop_done.
Qed.

Lemma optimizeLane_fixed w :
  settled w → findMerge w = None → optimizeLane w = Some w.
Proof.
  intros Hs Hf. unfold optimizeLane.
  rewrite settled_forM_sortLane by done. simpl. by rewrite mergeLoop_fixed.
Qed.

(** C6.  [optimizeLane] is idempotent: run on the state a first run returned,
    it returns that very state (the same lanes with the same point lists, the
    same notes on the same lanes); where the first run throws there is no
    second run. *)
Theorem optimizeLane_idempotent w :
  optimizeLane w ≫= optimizeLane = optimizeLane w.
Proof.
  destruct (optimizeLane w) as [w'|] eqn:E; simpl; [|done].
  apply optimizeLane_settled in E as [Hs Hf]. by apply optimizeLane_fixed.
Qed.

(** The fixed-point loop comes to rest: after [optimizeLane] no lane has a
    lane left to absorb. *)
Lemma optimizeLane_no_merge_left w w' :
  optimizeLane w = Some w' → findMerge w' = None.
Proof. intros E. by apply optimizeLane_settled in E as [_ ?]. Qed.

End OptimizeLane.

(** ** Derived indices *)

Section IndexBy.
Context {A : Type} `{Inhabited A} (key : A → string).

Lemma indexBy_ext (h h' : gmap ref A) rs :
  (∀ r, r ∈ rs → key (h' !!! r) = key (h !!! r)) →
  indexBy key h' rs = indexBy key h rs.
Proof.
  unfold indexBy. generalize (∅ : gmap string ref).
  induction rs as [|x rs IH]; intros m Hk; simpl; [done|].
  rewrite Hk by left. apply IH. intros r Hr. apply Hk. by right.
Qed.

Lemma mapCells_key (f : A → A) rs : (∀ v, key (f v) = key v) →
  ∀ (h : gmap ref A) r, key (mapCells f h rs !!! r) = key (h !!! r).
Proof.
  intros Hf. induction rs as [|x rs IH]; intros h r; [done|].
  rewrite mapCells_cons, IH. destruct (decide (x = r)) as [->|Hne].
  - by rewrite lookup_total_insert_eq.
  - by rewrite lookup_total_insert_ne.
Qed.
End IndexBy.

Section Indices.
Context `{Collaborators}.

Lemma sameNotes_ok w w' : sameNotes w w' → noteMapOk w → noteMapOk w'.
Proof.
  intros (E1 & E2 & E3) Hok. unfold noteMapOk in *. rewrite E1, E2, Hok.
  symmetry. apply indexBy_ext. intros r _. apply E3.
Qed.

Lemma samePoints_ok w w' : samePoints w w' → lanePointMapOk w → lanePointMapOk w'.
Proof. intros (E1 & E2 & E3) Hok. unfold lanePointMapOk in *. by rewrite E1, E2, E3. Qed.

Lemma sameLanes_ok w w' : sameLanes w w' → laneMapOk w → laneMapOk w'.
Proof.
  intros (E1 & E2 & E3) Hok. unfold laneMapOk in *. rewrite E1, E2, Hok.
  symmetry. apply indexBy_ext. intros r _. apply E3.
Qed.

Lemma sameClock_ok w w' : sameClock w w' → timeCalculatorOk w → timeCalculatorOk w'.
Proof.
  intros (E1 & E2 & E3 & E4 & E5) Hok. unfold timeCalculatorOk in *.
  rewrite E1, Hok. unfold freshTimeCalculator, getOther, getMeasure.
  by rewrite E2, E3, E4, E5.
Qed.

Lemma sameNotes_trans w1 w2 w3 : sameNotes w1 w2 → sameNotes w2 w3 → sameNotes w1 w3.
Proof.
  intros (A1 & A2 & A3) (B1 & B2 & B3). split; [congruence|]. split; [congruence|].
  intros r. by rewrite B3.
Qed.

Lemma samePoints_trans w1 w2 w3 : samePoints w1 w2 → samePoints w2 w3 → samePoints w1 w3.
Proof. intros (A1 & A2 & A3) (B1 & B2 & B3). repeat split; congruence. Qed.

Lemma sameLanes_trans w1 w2 w3 : sameLanes w1 w2 → sameLanes w2 w3 → sameLanes w1 w3.
Proof.
  intros (A1 & A2 & A3) (B1 & B2 & B3). split; [congruence|]. split; [congruence|].
  intros r. by rewrite B3.
Qed.

Lemma sameClock_trans w1 w2 w3 : sameClock w1 w2 → sameClock w2 w3 → sameClock w1 w3.
Proof. intros (A1 & A2 & A3 & A4 & A5) (B1 & B2 & B3 & B4 & B5). repeat split; congruence. Qed.

Lemma retime_guid tc n : Note.guid (retime tc n) = Note.guid n.
Proof. reflexivity. Qed.

(** calculateTime *)
Lemma calculateTime_sameNotes w : sameNotes w (calculateTime w).
Proof.
  rewrite calculateTime_eq. split; [done|]. split; [done|].
  intros r. unfold getNote. simpl. apply mapCells_key. apply retime_guid.
Qed.

Lemma calculateTime_samePoints w : samePoints w (calculateTime w).
Proof. by rewrite calculateTime_eq. Qed.

Lemma calculateTime_sameLanes w : sameLanes w (calculateTime w).
Proof. by rewrite calculateTime_eq. Qed.

Lemma calculateTime_clock w : timeCalculatorOk (calculateTime w).
Proof.
  unfold timeCalculatorOk. rewrite freshTimeCalculator_calculateTime.
  by rewrite calculateTime_eq.
Qed.

(** The three rebuilds. *)
Lemma updateNoteMap_indexed w :
  lanePointMapOk w → laneMapOk w → indexed (updateNoteMap w).
Proof.
  intros Hp Hl. unfold updateNoteMap.
  set (w1 := updLive _ w).
  split; [|split; [|split]].
  - apply (sameNotes_ok w1); [apply calculateTime_sameNotes|]. done.
  - apply (samePoints_ok w1); [apply calculateTime_samePoints|]. done.
  - apply (sameLanes_ok w1); [apply calculateTime_sameLanes|]. done.
  - apply calculateTime_clock.
Qed.

Lemma updateLaneMap_indexed w :
  noteMapOk w → lanePointMapOk w → indexed (updateLaneMap w).
Proof.
  intros Hn Hp. unfold updateLaneMap.
  set (w1 := updLive _ w).
  split; [|split; [|split]].
  - apply (sameNotes_ok w1); [apply calculateTime_sameNotes|]. done.
  - apply (samePoints_ok w1); [apply calculateTime_samePoints|]. done.
  - apply (sameLanes_ok w1); [apply calculateTime_sameLanes|]. done.
  - apply calculateTime_clock.
Qed.

Lemma calculateTime_indexed w :
  noteMapOk w → lanePointMapOk w → laneMapOk w → indexed (calculateTime w).
Proof.
  intros Hn Hp Hl. split; [|split; [|split]].
  - by apply (sameNotes_ok w); [apply calculateTime_sameNotes|].
  - by apply (samePoints_ok w); [apply calculateTime_samePoints|].
  - by apply (sameLanes_ok w); [apply calculateTime_sameLanes|].
  - apply calculateTime_clock.
Qed.

Lemma toMutable_indexed data w : indexed (toMutable data w).
Proof.
  unfold toMutable. cbv zeta.
  set (W0 := mkWorld _ _ _ _).
  apply updateLaneMap_indexed.
  - apply (sameNotes_ok (updateNoteMap W0)); [done|].
    unfold updateNoteMap.
    apply (sameNotes_ok (updLive (setNoteMap (indexBy Note.guid (noteObjs (store W0))
                                                (notes (live W0)))) W0));
      [apply calculateTime_sameNotes|done].
  - done.
Qed.

Lemma sameRest_refl w : sameRest w w.
Proof. by repeat split. Qed.

Lemma sameRest_trans w1 w2 w3 : sameRest w1 w2 → sameRest w2 w3 → sameRest w1 w3.
Proof.
  intros (A1 & A2 & A3) (B1 & B2 & B3). split; [|split].
  - by eapply samePoints_trans.
  - by eapply sameLanes_trans.
  - by eapply sameClock_trans.
Qed.

Lemma sameNotes_refl w : sameNotes w w.
Proof. by repeat split. Qed.

Lemma forM_rel {A W : Type} (R : W → W → Prop) (body : A → W → option W) :
  (∀ w, R w w) → (∀ w1 w2 w3, R w1 w2 → R w2 w3 → R w1 w3) →
  (∀ x w w', body x w = Some w' → R w w') →
  ∀ l w w', forM body l w = Some w' → R w w'.
Proof.
  intros Hrefl Htrans Hbody. induction l as [|x l IH]; intros w w'; simpl.
  - by intros [= <-].
  - destruct (body x w) as [w1|] eqn:E; simpl; [|done].
    intros Hl. eapply Htrans; [by eapply Hbody|by apply IH].
Qed.

Lemma foldl_rel {A W : Type} (R : W → W → Prop) (body : W → A → W) :
  (∀ w, R w w) → (∀ w1 w2 w3, R w1 w2 → R w2 w3 → R w1 w3) →
  (∀ x w, R w (body w x)) →
  ∀ l w, R w (foldl body w l).
Proof.
  intros Hrefl Htrans Hbody. induction l as [|x l IH]; intros w; simpl; [done|].
  eapply Htrans; [apply Hbody|apply IH].
Qed.

Lemma removeNote_false_rest note w : sameRest w (removeNote note false w).
Proof.
  unfold removeNote. cbv zeta.
  rewrite foldl_removeNoteLine, foldl_putLine.
  destruct (previouslyCreatedNote (live w)) as [p|]; [|by repeat split].
  case_bool_decide; by repeat split.
Qed.

Lemma removeNote_true_indexed note w :
  lanePointMapOk w → laneMapOk w → indexed (removeNote note true w).
Proof.
  intros Hp Hl.
  change (removeNote note true w) with (updateNoteMap (removeNote note false w)).
  destruct (removeNote_false_rest note w) as (Sp & Sl & _).
  apply updateNoteMap_indexed.
  - by apply (samePoints_ok w).
  - by apply (sameLanes_ok w).
Qed.

(** optimizeLane *)
Lemma sortLane_same x w w' :
  sortLane x w = Some w' → sameNotes w w' ∧ sameRest w w'.
Proof.
  intros (pts & _ & ->)%sortLane_inv.
  split; [by repeat split|]. split; [by repeat split|]. split; [|by repeat split].
  split; [done|]. split; [done|].
  intros r. unfold getLane. simpl. destruct (decide (x = r)) as [->|Hne].
  - by rewrite lookup_total_insert_eq.
  - by rewrite lookup_total_insert_ne.
Qed.

Lemma mergeLanes_indexed lane next w :
  noteMapOk w → lanePointMapOk w → indexed (mergeLanes lane next w).
Proof.
  intros Hn Hp. unfold mergeLanes, setLanes. cbv zeta.
  rewrite foldl_putNote.
  apply updateLaneMap_indexed.
  - eapply sameNotes_ok; [|exact Hn]. split; [done|]. split; [done|].
    intros r. unfold getNote. simpl. by apply mapCells_key.
  - eapply samePoints_ok; [|exact Hp]. by repeat split.
Qed.

Lemma mergeLoop_maps fuel : ∀ w,
  noteMapOk w → lanePointMapOk w → laneMapOk w →
  noteMapOk (mergeLoop fuel w) ∧ lanePointMapOk (mergeLoop fuel w)
  ∧ laneMapOk (mergeLoop fuel w).
Proof.
  induction fuel as [|fuel IH]; intros w Hn Hp Hl; simpl; [done|].
  destruct (findMerge w) as [[lane next]|]; [|done].
  destruct (mergeLanes_indexed lane next w Hn Hp) as (? & ? & ? & _).
  by apply IH.
Qed.

Lemma optimizeLane_maps w w' :
  optimizeLane w = Some w' → noteMapOk w → lanePointMapOk w → laneMapOk w →
  noteMapOk w' ∧ lanePointMapOk w' ∧ laneMapOk w'.
Proof.
  unfold optimizeLane.
  destruct (forM sortLane (lanes (live w)) w) as [w1|] eqn:E; simpl; [|done].
  intros [= <-] Hn Hp Hl. 
  assert (sameNotes w w1 ∧ sameRest w w1) as (Sn & Sp & Sl & Sc).
  { revert E. apply (forM_rel (λ w w', sameNotes w w' ∧ sameRest w w')).
    - intros w0. split; [apply sameNotes_refl|apply sameRest_refl].
    - intros w2 w3 w4 [A1 A2] [B1 B2]. split.
      + by eapply sameNotes_trans.
      + by eapply sameRest_trans.
    - apply sortLane_same. }
  apply mergeLoop_maps.
  - by apply (sameNotes_ok w).
  - by apply (samePoints_ok w).
  - by apply (sameLanes_ok w).
Qed.

(** optimizeNoteLine *)
Lemma optimizeNoteLine_maps w w' :
  optimizeNoteLine w = Some w' → noteMapOk w → lanePointMapOk w → laneMapOk w →
  noteMapOk w' ∧ lanePointMapOk w' ∧ laneMapOk w'.
Proof.
  unfold optimizeNoteLine. intros E Hn Hp Hl.
  assert (sameNotes w w' ∧ sameRest w w') as (Sn & Sp & Sl & Sc).
  { revert E. apply (forM_rel (λ w w', sameNotes w w' ∧ sameRest w w')).
    - intros w0. split; [apply sameNotes_refl|apply sameRest_refl].
    - intros w2 w3 w4 [A1 A2] [B1 B2]. split.
      + by eapply sameNotes_trans.
      + by eapply sameRest_trans.
    - intros lr w0 w0'. cbv beta zeta.
      destruct (lookupNote w0 (NoteLine.head (getLine w0 lr))) as [h|]; [|done].
      destruct (lookupNote w0 (NoteLine.tail (getLine w0 lr))) as [t|]; [|done].
      cbn -[sortWith].
      destruct (sortWith _ _) as [|a [|b [|? ?]]]; try done.
      intros [= <-]. by repeat split. }
  split; [by apply (sameNotes_ok w)|]. split; [by apply (samePoints_ok w)|].
  by apply (sameLanes_ok w).
Qed.

(** optimizeNote *)
Lemma pruneLine_rest lr st st' : pruneLine lr st = Some st' → sameRest st.2 st'.2.
Proof.
  unfold pruneLine. cbv beta zeta.
  destruct (lookupNote st.2 (NoteLine.head (getLine st.2 lr))) as [h|]; simpl; [|done].
  destruct (lookupNote st.2 (NoteLine.tail (getLine st.2 lr))) as [t|]; simpl; [|done].
  apply (forM_rel (λ st st' : gset string * World, sameRest st.2 st'.2)).
  - intros ?. apply sameRest_refl.
  - intros ? ? ?. apply sameRest_trans.
  - intros g s s'. unfold pruneInner.
    destruct (lookupNote s.2 g) as [n|]; simpl; [|done].
    destruct (_ || _); intros [= <-]; simpl.
    + apply removeNote_false_rest.
    + apply sameRest_refl.
Qed.

Lemma optimizeNote_indexed w w' :
  optimizeNote w = Some w' → lanePointMapOk w → laneMapOk w → indexed w'.
Proof.
  unfold optimizeNote.
  destruct (forM pruneLine (noteLines (live w)) (∅, w)) as [st|] eqn:E; simpl; [|done].
  intros [= <-] Hp Hl.
  assert (sameRest w st.2) as S1.
  { revert E. apply (forM_rel (λ st st' : gset string * World, sameRest st.2 st'.2)).
    - intros ?. apply sameRest_refl.
    - intros ? ? ?. apply sameRest_trans.
    - apply pruneLine_rest. }
  assert (sameRest st.2 (foldl (λ w r, dropLooseNote st.1 r w) st.2 (notes (live st.2))))
    as S2.
  { apply (foldl_rel sameRest).
    - apply sameRest_refl.
    - apply sameRest_trans.
    - intros r w0. unfold dropLooseNote.
      destruct (_ && _); [apply removeNote_false_rest|apply sameRest_refl]. }
  destruct (sameRest_trans _ _ _ S1 S2) as (Sp & Sl & _).
  apply updateNoteMap_indexed.
  - by apply (samePoints_ok w).
  - by apply (sameLanes_ok w).
Qed.

Lemma optimize_indexed w w' :
  optimize w = Some w' → noteMapOk w → lanePointMapOk w → laneMapOk w → indexed w'.
Proof.
  unfold optimize.
  destruct (optimizeLane w) as [w1|] eqn:E1; simpl; [|done].
  destruct (optimizeNoteLine w1) as [w2|] eqn:E2; simpl; [|done].
  intros E3 Hn Hp Hl.
  destruct (optimizeLane_maps _ _ E1 Hn Hp Hl) as (Hn1 & Hp1 & Hl1).
  destruct (optimizeNoteLine_maps _ _ E2 Hn1 Hp1 Hl1) as (_ & Hp2 & Hl2).
  by apply (optimizeNote_indexed w2).
Qed.

(** undo and redo *)
Lemma indexed_dress f v w :
  indexed w → indexed (updLive (setPreviouslyCreatedNote v) (updChart f w)).
Proof. done. Qed.

Lemma undo_indexed w w' : undo w = Some w' → canUndo (chart w) = true → indexed w'.
Proof.
  unfold undo. intros Hu Hc. rewrite Hc in Hu.
  cbn [negb] in Hu.
  destruct (prevData (hist w)) as [pd|]; [|done].
  cbn [mbind option_bind] in Hu.
  destruct (nthZ _ _) as [h|]; [|done].
  cbn [mbind option_bind] in Hu.
  destruct (applyPatch _ _) as [data|]; [|done].
  cbn [mbind option_bind] in Hu.
  injection Hu as <-. apply indexed_dress, toMutable_indexed.
Qed.

Lemma redo_indexed w w' : redo w = Some w' → canRedo (chart w) = true → indexed w'.
Proof.
  unfold redo. intros Hr Hc. rewrite Hc in Hr.
  cbn [negb] in Hr.
  destruct (prevData (hist w)) as [pd|]; [|done].
  cbn [mbind option_bind] in Hr.
  destruct (nthZ _ _) as [h|]; [|done].
  cbn [mbind option_bind] in Hr.
  destruct (applyPatch _ _) as [data|]; [|done].
  cbn [mbind option_bind] in Hr.
  injection Hr as <-. apply indexed_dress, toMutable_indexed.
Qed.

(** C5, as amended.  Each of addNote and removeNote (with [updateNoteMap] at
    its default), addNoteLine, removeNoteLine, addOtherObject,
    removeOtherObject, addLane, setLanes, addLanePoint, optimize, undo and
    redo, run on a timeline whose [noteMap], [lanePointMap] and [laneMap] are
    consistent with their collections, leaves the three maps consistent;
    nothing is asked of the time calculator before the call.  After an
    operation that recalculates (addNote, removeNote, addLane, setLanes,
    optimize, an undo or redo that is not a no-op, addOtherObject or
    removeOtherObject of a BPM marker) the time calculator is consistent
    whatever it was before.  Every other operation leaves the calculator it
    found: it is still consistent after addNoteLine, removeNoteLine,
    addLanePoint and an undo or redo that does nothing if it was before, but
    addOtherObject and removeOtherObject of an object that is not a BPM
    marker change [otherObjects] under it. *)
Theorem run_keeps_indices op w w' :
  noteMapOk w → lanePointMapOk w → laneMapOk w → run op w = Some w' →
  noteMapOk w' ∧ lanePointMapOk w' ∧ laneMapOk w'
  ∧ (recalculates op w → timeCalculatorOk w')
  ∧ (¬ recalculates op w → timeCalculator (live w') = timeCalculator (live w))
  ∧ (timeCalculatorOk w → ¬ skipsRecalculation op w → timeCalculatorOk w').
Proof.
  intros Hn Hp Hl Hrun.
  destruct op as [note|note|nl|nl|o|fresh o|lane|ls|value| | |];
    simpl in Hrun |- *.
  - injection Hrun as <-.
    assert (indexed (addNote note true w)) as Hi
      by (unfold addNote; apply updateNoteMap_indexed; done).
    destruct Hi as (? & ? & ? & ?). repeat split; try done; by intros [].
  - injection Hrun as <-.
    assert (indexed (removeNote note true w)) as Hi by by apply removeNote_true_indexed.
    destruct Hi as (? & ? & ? & ?). repeat split; try done; by intros [].
  - injection Hrun as <-. repeat split; try done; by intros [].
  - injection Hrun as <-. repeat split; try done; by intros [].
  - injection Hrun as <-. unfold addOtherObject in *. cbv zeta in *.
    change (getOther (updLive _ w) o) with (getOther w o) in *.
    destruct (OtherObject.isBPM (getOther w o)) eqn:Hb.
    + assert (indexed (calculateTime
                         (updLive (λ l, setOtherObjects (otherObjects l ++ [o]) l) w))) as Hi
        by by apply calculateTime_indexed.
      destruct Hi as (? & ? & ? & ?). repeat split; try done; intros Hc; by destruct Hc.
    + repeat split; try done; intros _ Hc; by destruct Hc.
  - unfold removeOtherObject in Hrun. cbv zeta in Hrun.
    change (getOther (updLive _ w) o) with (getOther w o) in Hrun.
    destruct (OtherObject.isBPM (getOther w o)) eqn:Hb.
    + assert (indexed w') as Hi.
      { clear Hb. destruct (negb _); simpl in Hrun.
        * destruct (head (layers (chart w))) as [layer|]; simpl in Hrun; [|done].
          injection Hrun as <-. apply calculateTime_indexed.
          -- unfold addOtherObject. cbv zeta.
             destruct (OtherObject.isBPM _).
             ++ eapply sameNotes_ok; [apply calculateTime_sameNotes|done].
             ++ done.
          -- unfold addOtherObject. cbv zeta.
             destruct (OtherObject.isBPM _).
             ++ eapply samePoints_ok; [apply calculateTime_samePoints|done].
             ++ done.
          -- unfold addOtherObject. cbv zeta.
             destruct (OtherObject.isBPM _).
             ++ eapply sameLanes_ok; [apply calculateTime_sameLanes|done].
             ++ done.
        * injection Hrun as <-. by apply calculateTime_indexed. }
      destruct Hi as (? & ? & ? & ?). repeat split; try done; intros Hc; by destruct Hc.
    + injection Hrun as <-. repeat split; try done; intros _ Hc; by destruct Hc.
  - injection Hrun as <-.
    assert (indexed (addLane lane w)) as Hi
      by (unfold addLane; by apply updateLaneMap_indexed).
    destruct Hi as (? & ? & ? & ?). repeat split; try done; by intros [].
  - injection Hrun as <-.
    assert (indexed (setLanes ls w)) as Hi
      by (unfold setLanes; by apply updateLaneMap_indexed).
    destruct Hi as (? & ? & ? & ?). repeat split; try done; by intros [].
  - injection Hrun as <-. unfold addLanePoint, updateLanePointMap.
    repeat split; try done; by intros [].
  - assert (indexed w') as Hi by by eapply optimize_indexed.
    destruct Hi as (? & ? & ? & ?). repeat split; try done; by intros [].
  - destruct (canUndo (chart w)) eqn:Hc.
    + assert (indexed w') as Hi by by eapply undo_indexed.
      destruct Hi as (? & ? & ? & ?). repeat split; try done; intros Hc'; by destruct Hc'.
    + unfold undo in Hrun. rewrite Hc in Hrun. injection Hrun as <-.
      repeat split; done.
  - destruct (canRedo (chart w)) eqn:Hc.
    + assert (indexed w') as Hi by by eapply redo_indexed.
      destruct Hi as (? & ? & ? & ?). repeat split; try done; intros Hc'; by destruct Hc'.
    + unfold redo in Hrun. rewrite Hc in Hrun. injection Hrun as <-.
      repeat split; done.
Qed.

End Indices.

(** ** LaneRenderer: properties *)

Lemma cacheAfter_other calls : ∀ (cache : LinesCache) (lane : ref),
  lane ∉ map (λ c, self (rc_lane c)) calls →
  cacheAfter calls cache !! lane = cache !! lane.
Proof.
  induction calls as [|c calls IH]; intros cache lane Hnot; [done|].
  apply not_elem_of_cons in Hnot as [Hne Hnot].
  unfold cacheAfter in *. simpl. rewrite IH by done.
  unfold render.
  destruct (mapM _ _) as [pts|]; simpl; [|done].
  destruct (getLines pts _); simpl; [|done].
  by rewrite lookup_insert_ne.
Qed.

(** C9.  For a lane that no [render] call has been made for, whatever was
    rendered for other lanes, [getNotePointInfo] returns [null] for every
    measure, horizontal and vertical position. *)
Theorem getNotePointInfo_never_rendered calls lane m horizontal vertical :
  self lane ∉ map (λ c, self (rc_lane c)) calls →
  getNotePointInfo (cacheAfter calls noLines) lane m horizontal vertical = None.
Proof.
  intros Hnot. unfold getNotePointInfo.
  rewrite cacheAfter_other by done.
  unfold noLines. rewrite lookup_empty. reflexivity.
Qed.

Local Open Scope Q_scope.

(** C8, as amended.  When [getNotePointInfo] returns a point and a width for
    horizontal position 0/d, then for 1/d and the same lane, measure and
    vertical position it returns the same y and the same width, and an x that
    is larger by exactly the returned width: the returned width is already
    that of one column out of [d]. *)
Theorem getNotePointInfo_next_column cache lane m vertical d r0 :
  (0 < d)%Z →
  getNotePointInfo cache lane m (mkFraction 0 d) vertical = Some r0 →
  ∃ r1, getNotePointInfo cache lane m (mkFraction 1 d) vertical = Some r1
        ∧ Vector2.x (point r1) == Vector2.x (point r0) + width r0
        ∧ Vector2.y (point r1) = Vector2.y (point r0)
        ∧ width r1 == width r0.
Proof.
  intros _. unfold getNotePointInfo.
  destruct (List.find _ _) as [line|]; simpl; [|done].
  intros [= <-]. eexists. split; [reflexivity|]. simpl.
  unfold getX, lerp, to01. simpl.
  split; [ring|]. split; [reflexivity|ring].
Qed.

Lemma firstSome_Some {A B} (f : A → option B) l b :
  firstSome f l = Some b → ∃ a, a ∈ l ∧ f a = Some b.
Proof.
  induction l as [|a l IH]; simpl; [done|].
  destruct (f a) eqn:E.
  - intros [= <-]. exists a. split; [left|done].
  - intros Hl. destruct (IH Hl) as (a' & ? & ?). exists a'. split; [by right|done].
Qed.

Lemma firstSome_is_Some {A B} (f : A → option B) l a :
  a ∈ l → is_Some (f a) → is_Some (firstSome f l).
Proof.
  induction l as [|a' l IH]; simpl; [by intros ?%elem_of_nil|].
  intros [->|Hin]%elem_of_cons Hs.
  - destruct Hs as [b ->]. eauto.
  - destruct (f a'); eauto.
Qed.

Lemma getNotePointInfo_y cache lane m h v r :
  getNotePointInfo cache lane m h v = Some r →
  Vector2.y (point r) = Measure.y (fields m) + Measure.height (fields m) * (1 - to01 v).
Proof.
  unfold getNotePointInfo. destruct (List.find _ _); simpl; [|done].
  by intros [= <-].
Qed.

Lemma ratio_bound (j N : Z) :
  (0 <= j < N)%Z → inject_Z j / inject_Z N <= 1 - 1 / inject_Z N.
Proof.
  intros [Hj HN].
  assert (0 < inject_Z N) as Hn by (change 0 with (inject_Z 0); rewrite <- Zlt_Qlt; lia).
  assert (inject_Z j <= inject_Z N - 1) as Hle.
  { change 1 with (inject_Z 1). unfold Qminus. rewrite <- inject_Z_opp, <- inject_Z_plus.
    rewrite <- Zle_Qle. lia. }
  apply Qle_shift_div_r; [done|].
  assert ((1 - 1 / inject_Z N) * inject_Z N == inject_Z N - 1) as -> by (field; lra).
  done.
Qed.

Lemma boundary_arith (Y H a b my : Q) :
  0 < b → a <= 1 - b → my == Y →
  Y + H * (1 - a) - H * b * (1 # 2) <= my →
  ¬ (Y + H * (1 - a) + H * b * (1 # 2) <= my) → False.
Proof.
  intros Hb Ha Hmy H1 H2.
  destruct (Qlt_le_dec 0 H) as [HH|HH].
  - assert (0 < H * (1 - a - b * (1 # 2))) by (apply Qmult_lt_0_compat; lra). lra.
  - assert (0 <= (- H) * (1 - a + b * (1 # 2))) by (apply Qmult_le_0_compat; lra). lra.
Qed.

Lemma half_height (H : Q) (N : Z) :
  (0 < N)%Z → H / inject_Z N / 2 == H * (1 / inject_Z N) * (1 # 2).
Proof.
  intros HN.
  assert (0 < inject_Z N) as Hn by (change 0 with (inject_Z 0); rewrite <- Zlt_Qlt; lia).
  field. lra.
Qed.

Lemma hitCell_below_boundary cache lane m next N mouse i j :
  (0 <= j < N)%Z → Vector2.y mouse == Measure.y (fields m) →
  hitCell cache lane m next N mouse i j = None.
Proof.
  intros Hj Hy. unfold hitCell.
  destruct (getNotePointInfo cache lane m _ _) as [data|] eqn:E; simpl; [|done].
  apply getNotePointInfo_y in E.
  destruct (inCell _ _ _) eqn:Hin; [exfalso|done].
  unfold inCell in Hin.
  apply andb_prop in Hin as [Hin H4]. apply andb_prop in Hin as [Hin H3].
  apply Qle_bool_iff in H3. unfold Qlt_bool in H4. apply negb_true_iff in H4.
  assert (¬ (Vector2.y (point data) + Measure.height (fields m) / inject_Z N / 2
             <= Vector2.y mouse)) as H4'.
  { intros Hc. apply Qle_bool_iff in Hc. congruence. }
  rewrite E in H3, H4'. unfold to01 in H3, H4'. simpl in H3, H4'.
  rewrite half_height in H3, H4' by lia.
  assert (0 < inject_Z N) as Hn by (change 0 with (inject_Z 0); rewrite <- Zlt_Qlt; lia).
  assert (0 < 1 / inject_Z N) as Hb.
  { apply Qlt_shift_div_l; [done|]. lra. }
  pose proof (ratio_bound j N Hj) as Ha.
  exact (boundary_arith (Measure.y (fields m)) (Measure.height (fields m))
           (inject_Z j / inject_Z N) (1 / inject_Z N) (Vector2.y mouse) Hb Ha Hy H3 H4').
Qed.

Lemma hitCell_boundary_fields cache lane m next N mouse i r :
  hitCell cache lane m next N mouse i N = Some r →
  verticalIndex r = (N - 1)%Z
  ∧ measureIndex r = Measure.index (Measure.dataOf (fields next))
  ∧ horizontalIndex r = i
  ∧ linePointInfo r
    = getNotePointInfo cache lane next (mkFraction i (Lane.division (fields lane))) (mkFraction 0 N).
Proof.
  unfold hitCell.
  destruct (getNotePointInfo cache lane m _ _); simpl; [|done].
  destruct (inCell _ _ _); [|done].
  rewrite Z.eqb_refl. by intros [= <-].
Qed.

Lemma hitCell_boundary_hit cache lane m next N mouse i data :
  (0 < N)%Z → 0 < Measure.height (fields m) →
  Vector2.y mouse == Measure.y (fields m) →
  getNotePointInfo cache lane m (mkFraction i (Lane.division (fields lane))) (mkFraction N N)
    = Some data →
  Vector2.x (point data) <= Vector2.x mouse →
  Vector2.x mouse < Vector2.x (point data) + width data →
  is_Some (hitCell cache lane m next N mouse i N).
Proof.
  intros HN HH Hy E Hx1 Hx2. unfold hitCell. rewrite E. simpl.
  pose proof (getNotePointInfo_y _ _ _ _ _ _ E) as Ey.
  unfold to01 in Ey. simpl in Ey.
  assert (0 < inject_Z N) as Hn by (change 0 with (inject_Z 0); rewrite <- Zlt_Qlt; lia).
  assert (inject_Z N / inject_Z N == 1) as HNN by (field; lra).
  assert (0 < Measure.height (fields m) / inject_Z N / 2) as Hh.
  { apply Qlt_shift_div_l; [lra|]. apply Qlt_shift_div_l; [done|]. lra. }
  set (h := Measure.height (fields m) / inject_Z N / 2) in *.
  assert (inCell h mouse data = true) as ->.
  { unfold inCell, Qlt_bool.
    assert (Vector2.y (point data) == Measure.y (fields m)) as Hpy.
    { rewrite Ey, HNN. ring. }
    repeat (apply andb_true_intro; split).
    - by apply Qle_bool_iff.
    - apply negb_true_iff. destruct (Qle_bool _ _) eqn:Hc; [|done].
      apply Qle_bool_iff in Hc. lra.
    - apply Qle_bool_iff. lra.
    - apply negb_true_iff. destruct (Qle_bool _ _) eqn:Hc; [|done].
      apply Qle_bool_iff in Hc. lra. }
  rewrite Z.eqb_refl. eauto.
Qed.

(** C7.  With the mouse exactly on the boundary line of the last row of
    division [N] (the top edge of the measure, where the row scanned with
    [j = N] lies), every hit [getNotePointInfoFromMousePosition] reports is in
    the next measure, at [verticalIndex = N - 1], with the point computed in
    [nextMeasure]; and a hit is reported as soon as one column of that row
    contains the mouse. *)
Theorem mouse_on_last_row_boundary cache lane m next N mouse drag :
  (0 < N)%Z → Vector2.y mouse == Measure.y (fields m) →
  (∀ r, getNotePointInfoFromMousePosition cache lane m next N mouse drag = Some r →
        verticalIndex r = (N - 1)%Z
        ∧ measureIndex r = Measure.index (Measure.dataOf (fields next))
        ∧ linePointInfo r
          = getNotePointInfo cache lane next
              (mkFraction (horizontalIndex r) (Lane.division (fields lane))) (mkFraction 0 N))
  ∧ (0 < Measure.height (fields m) →
     ∀ i data,
       i ∈ seqZ (if drag then - Lane.division (fields lane) else 0)%Z
                (Lane.division (fields lane) + (if drag then 1 else 0)
                 - (if drag then - Lane.division (fields lane) else 0))%Z →
       getNotePointInfo cache lane m (mkFraction i (Lane.division (fields lane))) (mkFraction N N)
         = Some data →
       Vector2.x (point data) <= Vector2.x mouse →
       Vector2.x mouse < Vector2.x (point data) + width data →
       is_Some (getNotePointInfoFromMousePosition cache lane m next N mouse drag)).
Proof.
  intros HN Hy. split.
  - intros r Hr. unfold getNotePointInfoFromMousePosition in Hr.
    apply firstSome_Some in Hr as (i & _ & Hr).
    apply firstSome_Some in Hr as (j & Hj & Hr).
    apply elem_of_seqZ in Hj.
    destruct (decide (j = N)) as [->|Hne].
    + apply hitCell_boundary_fields in Hr as (? & ? & <- & ?). done.
    + rewrite hitCell_below_boundary in Hr by (done || lia). done.
  - intros HH i data Hi E Hx1 Hx2. unfold getNotePointInfoFromMousePosition.
    eapply firstSome_is_Some; [exact Hi|].
    eapply (firstSome_is_Some _ _ N).
    + apply elem_of_seqZ. lia.
    + by eapply hitCell_boundary_hit.
Qed.

Local Close Scope Q_scope.

(** ** The properties on the concrete chart *)

Lemma plain_ok : @CollaboratorsOk plain.
Proof. split; intros; reflexivity. Qed.

Lemma world0_new : new chart0 data0 = Some world0.
Proof. vm_compute. reflexivity. Qed.

Lemma world0_reachable : reachable world0.
Proof. apply (reach_new chart0 data0); [reflexivity..|apply world0_new]. Qed.

Lemma world1_reachable : reachable world1.
Proof.
  apply (reach_save (applyEdit (removeNote 0 true) world0)).
  - apply reach_edit, world0_reachable.
  - vm_compute. reflexivity.
Qed.

Lemma world0_indexed : indexed world0.
Proof.
  unfold indexed, noteMapOk, lanePointMapOk, laneMapOk, timeCalculatorOk.
  repeat split; vm_compute; reflexivity.
Qed.


(** Undo then redo right after a save. *)
Lemma undo_redo_identity_witness :
  ∃ w1 w2 : @World plain,
    undo world1 = Some w1 ∧ redo w1 = Some w2 ∧ toJS w2 = toJS world1.
Proof.
  apply (@undo_redo_identity plain plain_ok world1 (toJS world1)).
  - apply world1_reachable.
  - reflexivity.
  - vm_compute. reflexivity.
  - vm_compute. reflexivity.
Defined.


(** C2, counterexample: with the removal of [n2] not yet saved, [canUndo]
    holds, and undo followed by redo brings [n2] back. *)
Lemma undo_redo_drops_pending_edit :
  ∃ w1 w2 : @World plain,
    reachable world1_pending
    ∧ canUndo (chart world1_pending) = true
    ∧ undo world1_pending = Some w1
    ∧ redo w1 = Some w2
    ∧ map Note.guid (d_notes (toJS world1_pending)) = ["n3"]
    ∧ map Note.guid (d_notes (toJS w2)) = ["n2"; "n3"]
    ∧ toJS w2 ≠ toJS world1_pending.
Proof.
  eexists _, _.
  split; [apply reach_edit, world1_reachable|].
  split; [reflexivity|].
  split; [vm_compute; reflexivity|].
  split; [vm_compute; reflexivity|].
  split; [vm_compute; reflexivity|].
  split; [vm_compute; reflexivity|].
  vm_compute. discriminate.
Qed.

(** Removing the only BPM marker of the concrete chart. *)
Lemma bpm_marker_invariant_witness :
  ∃ (w' : @World plain) r,
    removeOtherObject "fresh" 12 world0 = Some w'
    ∧ bpmChanges w' = [r]
    ∧ OtherObject.value (getOther w' r) = 120%Q
    ∧ OtherObject.measureIndex (getOther w' r) = 0%Z
    ∧ OtherObject.measurePosition (getOther w' r) = mkFraction 0 1.
Proof.
  assert (bpmChanges world0 = [12]) as H1 by (vm_compute; reflexivity).
  assert (∀ r, r ∈ otherObjects (live world0) → r < nextRef (store world0)) as H3.
  { intros r Hr.
    change (otherObjects (live world0)) with [12; 13] in Hr.
    change (nextRef (store world0)) with 14.
    apply elem_of_cons in Hr as [->|Hr]; [lia|].
    apply list_elem_of_singleton in Hr as ->. lia. }
  destruct (removeOtherObject "fresh" 12 world0) as [w'|] eqn:Hrm;
    [|vm_compute in Hrm; discriminate].
  destruct (proj1 (@bpm_marker_invariant plain) world0 "fresh" 12 w' H1 H3 Hrm)
    as (r & Hr).
  exists w', r. split; [reflexivity|exact Hr].
Defined.

(** C4, counterexample: a timeline without a BPM marker has none after
    [removeOtherObject] of its speed marker has returned, and none after
    [addOtherObject] puts the marker back. *)
Lemma no_bpm_marker_after_remove :
  ∃ w' : @World plain,
    removeOtherObject "fresh" 0 speedOnly = Some w'
    ∧ bpmChanges w' = []
    ∧ bpmChanges (addOtherObject 0 w') = [].
Proof.
  eexists. split; [vm_compute; reflexivity|].
  split; vm_compute; reflexivity.
Qed.

(** A timeline that [addOtherObject] of the speed marker has left with a
    stale time calculator: its three maps are consistent, and [addNote]
    makes every index consistent again. *)
Lemma run_keeps_indices_witness :
  ¬ timeCalculatorOk (addOtherObject 13 world0)
  ∧ ∃ w' : @World plain,
      run (OpAddNote 0) (addOtherObject 13 world0) = Some w' ∧ indexed w'.
Proof.
  split.
  { unfold timeCalculatorOk. vm_compute. discriminate. }
  eexists. split; [reflexivity|].
  destruct (@run_keeps_indices plain (OpAddNote 0) (addOtherObject 13 world0) _
              ltac:(unfold noteMapOk; vm_compute; reflexivity)
              ltac:(unfold lanePointMapOk; vm_compute; reflexivity)
              ltac:(unfold laneMapOk; vm_compute; reflexivity)
              eq_refl)
    as (Hn & Hp & Hl & Hc & _).
  split; [exact Hn|]. split; [exact Hp|]. split; [exact Hl|].
  apply Hc. exact I.
Defined.

(** C5, counterexample: after [removeOtherObject] of the speed marker returns,
    the time calculator still lists it. *)
Lemma removeOtherObject_leaves_stale_calculator :
  ∃ w' : @World plain,
    indexed world0
    ∧ run (OpRemoveOtherObject "fresh" 13) world0 = Some w'
    ∧ map OtherObject.guid (map (getOther w') (otherObjects (live w'))) = ["bpm"]
    ∧ map OtherObject.guid (tc_objects (timeCalculator (live w'))) = ["bpm"; "speed"]
    ∧ ¬ indexed w'.
Proof.
  eexists.
  split; [apply world0_indexed|].
  split; [vm_compute; reflexivity|].
  split; [vm_compute; reflexivity|].
  split; [vm_compute; reflexivity|].
  intros (_ & _ & _ & Hc). unfold timeCalculatorOk in Hc.
  vm_compute in Hc. discriminate.
Qed.

(** Removing the speed marker of the concrete chart. *)
Lemma removeOtherObject_nonBPM_frame_witness :
  ∃ w' : @World plain,
    removeOtherObject "fresh" 13 world0 = Some w'
    ∧ otherObjects (live w') = [12]
    ∧ store w' = store world0
    ∧ timeCalculator (live w') = timeCalculator (live world0).
Proof.
  destruct (@removeOtherObject_nonBPM_frame plain "fresh" 13 world0 eq_refl)
    as (w' & Hrm & Ho & _ & _ & _ & _ & _ & _ & _ & _ & Htc & Hs & _).
  exists w'. split; [exact Hrm|]. split; [rewrite Ho; reflexivity|].
  split; [exact Hs|exact Htc].
Defined.

Local Open Scope Q_scope.

(** A note dropped on the top boundary of measure 0, division 4. *)
Lemma mouse_on_last_row_boundary_witness :
  ∃ r, getNotePointInfoFromMousePosition renderedOnce wideLane measure0
         measure1 4%Z (Vector2.mk 35 0) false = Some r
       ∧ verticalIndex r = 3%Z ∧ measureIndex r = 1%Z.
Proof.
  destruct (mouse_on_last_row_boundary renderedOnce wideLane measure0
              measure1 4%Z (Vector2.mk 35 0) false) as [HA HB].
  - lia.
  - reflexivity.
  - destruct (getNotePointInfo renderedOnce wideLane measure0
                (mkFraction 1 (Lane.division (fields wideLane))) (mkFraction 4 4))
      as [data|] eqn:E; [|vm_compute in E; discriminate].
    destruct (HB ltac:(reflexivity) 1%Z data) as [r Hr].
    + apply elem_of_seqZ. simpl. lia.
    + exact E.
    + vm_compute in E. injection E as <-. apply Qle_bool_iff. reflexivity.
    + vm_compute in E. injection E as <-. apply Qlt_alt. reflexivity.
    + exists r. split; [exact Hr|]. destruct (HA r Hr) as (Hv & Hm & _).
      split; [exact Hv|exact Hm].
Defined.

(** One column to the right on the rendered lane. *)
Lemma getNotePointInfo_next_column_witness :
  ∃ r0 r1,
    getNotePointInfo renderedOnce wideLane measure0 (mkFraction 0 4) (mkFraction 1 2)
      = Some r0
    ∧ getNotePointInfo renderedOnce wideLane measure0 (mkFraction 1 4) (mkFraction 1 2)
      = Some r1
    ∧ Vector2.x (point r1) == Vector2.x (point r0) + width r0
    ∧ width r1 == width r0.
Proof.
  destruct (getNotePointInfo renderedOnce wideLane measure0 (mkFraction 0 4)
              (mkFraction 1 2)) as [r0|] eqn:E; [|vm_compute in E; discriminate].
  destruct (getNotePointInfo_next_column renderedOnce wideLane measure0
              (mkFraction 1 2) 4%Z r0 ltac:(lia) E) as (r1 & E1 & Hx & _ & Hw).
  exists r0, r1. split; [reflexivity|]. split; [exact E1|]. split; [exact Hx|exact Hw].
Defined.

(** C8, counterexample: the call for 0/4 returns x = 10, y = 50 and width 20;
    the call for 1/4 returns x = 30, which is 10 + 20 and not 10 + 20/4. *)
Lemma getNotePointInfo_quarter_counterexample :
  ∃ r0 r1,
    getNotePointInfo renderedOnce wideLane measure0 (mkFraction 0 4) (mkFraction 1 2)
      = Some r0
    ∧ Vector2.x (point r0) == 10 ∧ Vector2.y (point r0) == 50 ∧ width r0 == 20
    ∧ getNotePointInfo renderedOnce wideLane measure0 (mkFraction 1 4) (mkFraction 1 2)
      = Some r1
    ∧ Vector2.x (point r1) == 30
    ∧ ¬ (Vector2.x (point r1) == Vector2.x (point r0) + width r0 / 4).
Proof.
  eexists _, _.
  split; [vm_compute; reflexivity|].
  split; [reflexivity|]. split; [reflexivity|]. split; [reflexivity|].
  split; [vm_compute; reflexivity|].
  split; [reflexivity|].
  intros E. vm_compute in E. discriminate.
Qed.

Local Close Scope Q_scope.

(** A lane that was never rendered, next to one that was. *)
Lemma getNotePointInfo_never_rendered_witness :
  getNotePointInfo renderedOnce otherLane measure0 (mkFraction 0 4) (mkFraction 1 2)
  = None.
Proof.
  apply (getNotePointInfo_never_rendered
           [mkRenderCall wideLane wideLanePoints screenMeasures] otherLane).
  simpl. intros Hin. apply list_elem_of_singleton in Hin. discriminate.
Defined.

(** ** The history engine: cursor, flags and totality *)

Section HistoryMore.
Context `{Collaborators}.

(** The flags of a timeline that stands at checkpoint [k] of [snaps]. *)
Lemma reachable_exact `{!CollaboratorsOk} w :
  reachable w →
  ∃ snaps k, tracks snaps k w
             ∧ canUndo (chart w) = (1 <? Z.of_nat k)%Z
             ∧ canRedo (chart w) = (Z.of_nat k <? Z.of_nat (length snaps))%Z.
Proof.
  induction 1 as [c d w Hu Hr Hnew|e w _ IH|w w' _ IH Hs|w w' _ IH Hs|w w' _ IH Hs].
  - destruct (new_tracks c d) as (w0 & Hnew' & Ht & Hc & _).
    rewrite Hnew in Hnew'. injection Hnew' as <-.
    exists [toJS w], 1. rewrite Hc, Hu, Hr. done.
  - destruct IH as (snaps & k & Ht & HU & HR). exists snaps, k. done.
  - destruct IH as (snaps & k & Ht & HU & HR).
    destruct (save_tracks snaps k w (λ w, w) Ht) as (w1 & Hs1 & Ht1 & Hu1 & Hr1).
    rewrite applyEdit_id, Hs in Hs1. injection Hs1 as <-.
    pose proof Ht as (_ & _ & [Hk1 Hk2] & _).
    eexists _, _. split; [exact Ht1|]. rewrite Hu1, Hr1. split.
    + symmetry. apply Z.ltb_lt. lia.
    + symmetry. apply Z.ltb_ge. rewrite length_app, length_take. simpl. lia.
  - destruct IH as (snaps & k & Ht & HU & HR).
    pose proof Ht as (_ & _ & [Hk1 Hk2] & _).
    destruct (canUndo (chart w)) eqn:Hu.
    + symmetry in HU. apply Z.ltb_lt in HU.
      destruct (snaps !! (k - 2)) as [a0|] eqn:Ea0;
        [|apply lookup_ge_None in Ea0; lia].
      destruct (undo_tracks snaps k w a0 Ht ltac:(lia) Hu Ea0)
        as (w1 & Hs1 & Ht1 & Hu1 & Hr1 & _).
      rewrite Hs in Hs1. injection Hs1 as <-.
      exists snaps, (k - 1). split; [done|]. rewrite Hu1, Hr1. split; [done|].
      symmetry. apply Z.ltb_lt. lia.
    + unfold undo in Hs. rewrite Hu in Hs. injection Hs as <-.
      exists snaps, k. rewrite Hu. done.
  - destruct IH as (snaps & k & Ht & HU & HR).
    pose proof Ht as (_ & _ & [Hk1 Hk2] & _).
    destruct (canRedo (chart w)) eqn:Hr.
    + symmetry in HR. apply Z.ltb_lt in HR.
      destruct (snaps !! k) as [b|] eqn:Eb; [|apply lookup_ge_None in Eb; lia].
      destruct (redo_tracks snaps k w b Ht Hr Eb) as (w1 & Hs1 & Ht1 & Hu1 & Hr1 & _).
      rewrite Hs in Hs1. injection Hs1 as <-.
      exists snaps, (S k). split; [done|]. rewrite Hu1, Hr1. split; [|done].
      symmetry. apply Z.ltb_lt. lia.
    + unfold redo in Hs. rewrite Hr in Hs. injection Hs as <-.
      exists snaps, k. rewrite Hr. done.
Qed.

Lemma tracks_cursor snaps k w :
  tracks snaps k w →
  (1 ≤ historyIndex (hist w) ≤ Z.of_nat (length (histories (hist w))))%Z
  ∧ length (histories (hist w)) = length snaps
  ∧ is_Some (prevData (hist w)).
Proof.
  intros (Hh & Hi & [Hk1 Hk2] & Hp).
  rewrite Hh, Hi, Hp, chain_length. split; [lia|]. split; [done|].
  apply lookup_lt_is_Some. lia.
Qed.

(** X1.  In every state a timeline can reach (created by [TimelineRecord.new]
    on a chart whose flags are off, then edited, saved, undone and redone in
    any order) the cursor [historyIndex] lies between 1 and the number of
    checkpoints, [prevData] is set, and the chart's flags say exactly where
    the cursor stands: [canUndo] holds if and only if the cursor is past the
    first checkpoint, [canRedo] if and only if it is before the last. *)
Theorem history_flags_follow_cursor `{!CollaboratorsOk} w :
  reachable w →
  (1 ≤ historyIndex (hist w) ≤ Z.of_nat (length (histories (hist w))))%Z
  ∧ is_Some (prevData (hist w))
  ∧ canUndo (chart w) = (1 <? historyIndex (hist w))%Z
  ∧ canRedo (chart w)
    = (historyIndex (hist w) <? Z.of_nat (length (histories (hist w))))%Z.
Proof.
  intros (snaps & k & Ht & HU & HR)%reachable_exact.
  destruct (tracks_cursor _ _ _ Ht) as (Hc & Hlen & Hp).
  destruct Ht as (_ & Hi & _ & _).
  rewrite Hlen in *. rewrite Hi in *. done.
Qed.

(** X2.  In every reachable state [save()], [undo()] and [redo()] return:
    none of them reads a missing checkpoint or a [null] snapshot. *)
Theorem history_never_throws `{!CollaboratorsOk} w :
  reachable w → is_Some (save w) ∧ is_Some (undo w) ∧ is_Some (redo w).
Proof.
  intros (snaps & k & Ht & HU & HR)%reachable_exact.
  pose proof Ht as (_ & _ & [Hk1 Hk2] & _).
  split; [|split].
  - destruct (save_tracks snaps k w (λ w, w) Ht) as (w1 & Hs1 & _).
    rewrite applyEdit_id in Hs1. eauto.
  - destruct (canUndo (chart w)) eqn:Hu.
    + symmetry in HU. apply Z.ltb_lt in HU.
      destruct (snaps !! (k - 2)) as [a0|] eqn:Ea0;
        [|apply lookup_ge_None in Ea0; lia].
      destruct (undo_tracks snaps k w a0 Ht ltac:(lia) Hu Ea0) as (w1 & Hs1 & _). eauto.
    + unfold undo. rewrite Hu. eauto.
  - destruct (canRedo (chart w)) eqn:Hr.
    + symmetry in HR. apply Z.ltb_lt in HR.
      destruct (snaps !! k) as [b|] eqn:Eb; [|apply lookup_ge_None in Eb; lia].
      destruct (redo_tracks snaps k w b Ht Hr Eb) as (w1 & Hs1 & _). eauto.
    + unfold redo. rewrite Hr. eauto.
Qed.

(** X3.  A [save()] in a reachable state moves the cursor one step and makes
    the new checkpoint the last one: the checkpoints before the cursor are
    kept, those after it (the redo branch) are dropped, [prevData] is the
    serialised state, [canUndo] is on, [canRedo] is off, and a [redo()] right
    after changes nothing. *)
Theorem save_drops_redo_branch `{!CollaboratorsOk} w w' :
  reachable w → save w = Some w' →
  historyIndex (hist w') = (historyIndex (hist w) + 1)%Z
  ∧ Z.of_nat (length (histories (hist w'))) = historyIndex (hist w')
  ∧ take (Z.to_nat (historyIndex (hist w))) (histories (hist w'))
    = take (Z.to_nat (historyIndex (hist w))) (histories (hist w))
  ∧ prevData (hist w') = Some (toJS w')
  ∧ canUndo (chart w') = true
  ∧ canRedo (chart w') = false
  ∧ redo w' = Some w'.
Proof.
  intros (snaps & k & Ht & HU & HR)%reachable_exact Hs.
  destruct (save_tracks snaps k w (λ w, w) Ht) as (w1 & Hs1 & Ht1 & Hu1 & Hr1).
  rewrite applyEdit_id, Hs in Hs1. injection Hs1 as <-.
  pose proof Ht as (Hh & Hi & [Hk1 Hk2] & _).
  destruct Ht1 as (Hh' & Hi' & _ & Hp').
  assert (length (take k snaps) = k) as Hlen by (rewrite length_take; lia).
  rewrite Hh', Hi', Hh, Hi, Hp', chain_length, length_app, Hlen, Nat2Z.id.
  split; [lia|]. split; [simpl; lia|]. split.
  - rewrite !chain_take. f_equal.
    rewrite take_app_le by lia. rewrite take_take. f_equal. lia.
  - split.
    + replace (S k - 1) with (length (take k snaps)) by lia.
      by rewrite list_lookup_middle.
    + split; [done|]. split; [done|]. unfold redo. by rewrite Hr1.
Qed.

Lemma undos_exact `{!CollaboratorsOk} m : ∀ snaps k w,
  tracks snaps k w → m < k → canUndo (chart w) = (1 <? Z.of_nat k)%Z →
  canRedo (chart w) = (Z.of_nat k <? Z.of_nat (length snaps))%Z →
  ∃ w', undos m w = Some w'
        ∧ tracks snaps (k - m) w'
        ∧ canUndo (chart w') = (1 <? Z.of_nat (k - m))%Z
        ∧ canRedo (chart w') = (Z.of_nat (k - m) <? Z.of_nat (length snaps))%Z.
Proof.
  induction m as [|m IH]; intros snaps k w Ht Hm Hu Hr; simpl.
  - exists w. by rewrite Nat.sub_0_r.
  - pose proof Ht as (_ & _ & [Hk1 Hk2] & _).
    destruct (snaps !! (k - 2)) as [a0|] eqn:Ea0;
      [|apply lookup_ge_None in Ea0; lia].
    assert (canUndo (chart w) = true) as Hu'.
    { rewrite Hu. apply Z.ltb_lt. lia. }
    destruct (undo_tracks snaps k w a0 Ht ltac:(lia) Hu' Ea0)
      as (w1 & -> & Ht1 & Hu1 & Hr1 & _).
    simpl.
    destruct (IH snaps (k - 1) w1 Ht1 ltac:(lia) Hu1) as (w' & -> & Ht' & Hu2 & Hr2).
    { rewrite Hr1. symmetry. apply Z.ltb_lt. lia. }
    exists w'. replace (k - 1 - m) with (k - S m) in * by lia. done.
Qed.

Lemma redos_exact `{!CollaboratorsOk} m : ∀ snaps k w,
  tracks snaps k w → k + m ≤ length snaps →
  canRedo (chart w) = (Z.of_nat k <? Z.of_nat (length snaps))%Z →
  ∃ w', redos m w = Some w'
        ∧ tracks snaps (k + m) w'
        ∧ (0 < m → canUndo (chart w') = true)
        ∧ (0 < m → canRedo (chart w') = (Z.of_nat (k + m) <? Z.of_nat (length snaps))%Z)
        ∧ (0 < m → ∀ b, snaps !! (k + m - 1) = Some b → toJS w' = reloaded b)
        ∧ (m = 0 → w' = w).
Proof.
  induction m as [|m IH]; intros snaps k w Ht Hm Hr; simpl.
  - exists w. rewrite Nat.add_0_r. split; [done|]. split; [done|].
    split; [lia|]. split; [lia|]. split; [lia|done].
  - destruct (snaps !! k) as [b0|] eqn:Eb0; [|apply lookup_ge_None in Eb0; lia].
    assert (canRedo (chart w) = true) as Hr'.
    { rewrite Hr. apply Z.ltb_lt. lia. }
    destruct (redo_tracks snaps k w b0 Ht Hr' Eb0) as (w1 & -> & Ht1 & Hu1 & Hr1 & HJ1).
    simpl.
    destruct (IH snaps (S k) w1 Ht1 ltac:(lia) Hr1) as (w' & -> & Ht' & Hu2 & Hr2 & HJ2 & Hnil).
    exists w'. replace (S k + m) with (k + S m) in * by lia.
    split; [done|]. split; [done|].
    destruct m as [|m].
    + rewrite Hnil by done. split; [done|]. split; [intros _; rewrite Hr1; f_equal; lia|].
      split; [|lia]. intros _ b Hb. rewrite HJ1. f_equal.
      replace (k + 1 - 1) with k in Hb by lia. congruence.
    + split; [intros _; apply Hu2; lia|]. split; [intros _; apply Hr2; lia|].
      split; [|lia]. intros _. apply HJ2. lia.
Qed.

(** X4.  In a state reached by [TimelineRecord.new], [save()], [undo()],
    [redo()] and edits that leave the snapshot alone ([applyEdit]), [m] calls
    of [undo()] followed by [m] calls of [redo()] all return when at least
    [m] checkpoints lie behind the cursor after the first; they bring the
    history (checkpoints, cursor and [prevData]) and the flags back to what
    they were, and leave the entities as a reload of [prevData] gives
    them. *)
Theorem undos_then_redos `{!CollaboratorsOk} w m :
  reachable w → 0 < m → (Z.of_nat m < historyIndex (hist w))%Z →
  ∃ w1 w2 pd,
    undos m w = Some w1 ∧ redos m w1 = Some w2
    ∧ hist w2 = hist w
    ∧ canUndo (chart w2) = canUndo (chart w)
    ∧ canRedo (chart w2) = canRedo (chart w)
    ∧ prevData (hist w) = Some pd
    ∧ toJS w2 = reloaded pd.
Proof.
  intros (snaps & k & Ht & HU & HR)%reachable_exact Hm Hlt.
  pose proof Ht as (Hh & Hi & [Hk1 Hk2] & Hp).
  rewrite Hi in Hlt.
  destruct (undos_exact m snaps k w Ht ltac:(lia) HU HR) as (w1 & Hun & Ht1 & Hu1 & Hr1).
  destruct (redos_exact m snaps (k - m) w1 Ht1 ltac:(lia) Hr1)
    as (w2 & Hre & Ht2 & Hu2 & Hr2 & HJ2 & _).
  replace (k - m + m) with k in * by lia.
  destruct (snaps !! (k - 1)) as [pd|] eqn:Epd; [|apply lookup_ge_None in Epd; lia].
  exists w1, w2, pd. split; [done|]. split; [done|].
  destruct Ht2 as (Hh2 & Hi2 & _ & Hp2).
  split; [|split; [|split; [|split]]].
  - destruct (hist w2), (hist w). simpl in *. congruence.
  - rewrite Hu2, HU by done. symmetry. apply Z.ltb_lt. lia.
  - by rewrite Hr2, HR.
  - by rewrite Hp.
  - by apply HJ2.
Qed.

(** X5.  [TimelineRecord.new] returns for every chart and document.  The
    timeline it builds has exactly one checkpoint with the cursor on it, a
    [prevData] equal to its serialised state, the chart's flags as it found
    them, and it serialises to the document it was given with the judgment
    times recomputed and the notes normalised. *)
Theorem new_first_checkpoint c data :
  ∃ w, new c data = Some w
       ∧ chart w = c
       ∧ length (histories (hist w)) = 1
       ∧ historyIndex (hist w) = 1%Z
       ∧ prevData (hist w) = Some (toJS w)
       ∧ toJS w = mkData (map normalize (d_notes (reloaded data))) (d_noteLines data)
                         (d_measures data) (d_lanes data) (d_lanePoints data)
                         (d_otherObjects data).
Proof.
  destruct (new_tracks c data) as (w0 & Hnew & (Hh & Hi & _ & Hp) & Hc & HJ).
  exists w0. split; [done|]. split; [done|].
  rewrite Hh, Hi, Hp. split; [done|]. split; [done|]. split; [done|].
  rewrite HJ, toJS_normalizeNotes, toJS_toMutable; [done|].
  rewrite toMutable_notes. apply NoDup_seq.
Qed.

(** X6.  Reloading a document ([toMutable]) and serialising the timeline
    again gives the document back with only the judgment times recomputed,
    whatever the timeline held before; a second reload changes nothing more;
    and the reload leaves the three guid maps and the time calculator
    consistent with the collections. *)
Theorem toMutable_toJS data w :
  toJS (toMutable data w) = reloaded data
  ∧ reloaded (reloaded data) = reloaded data
  ∧ indexed (toMutable data w).
Proof.
  split; [apply toJS_toMutable|]. split; [|apply toMutable_indexed].
  unfold reloaded. simpl. f_equal. rewrite map_map. apply map_ext.
  intros n. apply retime_idem.
Qed.

End HistoryMore.

(** ** optimizeLane: what a run leaves behind *)

Section SortingMore.
Context {A : Type} (le : A → A → bool).

Lemma elem_of_insertBy x a l : x ∈ insertBy le a l ↔ x = a ∨ x ∈ l.
Proof.
  induction l as [|y l IH]; simpl.
  - rewrite list_elem_of_singleton, elem_of_nil. tauto.
  - destruct (le a y).
    + rewrite !elem_of_cons. tauto.
    + rewrite !elem_of_cons, IH. tauto.
Qed.

Lemma elem_of_sortBy x l : x ∈ sortBy le l ↔ x ∈ l.
Proof.
  induction l as [|a l IH]; [done|].
  rewrite sortBy_cons, elem_of_insertBy, elem_of_cons, IH. tauto.
Qed.

End SortingMore.

Lemma Sorted_weaken {A} (R R' : A → A → Prop) l :
  (∀ a b, R a b → R' a b) → Sorted R l → Sorted R' l.
Proof.
  intros HR. induction 1 as [|x l Hs IH Hhd]; constructor; [done|].
  destruct Hhd; constructor. by apply HR.
Qed.

Lemma elem_of_delete_ne {A} (l : list A) i x z :
  l !! i = Some x → z ∈ l → z ≠ x → z ∈ delete i l.
Proof.
  revert i. induction l as [|y l IH]; intros i Hi Hz Hne; [by apply elem_of_nil in Hz|].
  destruct i as [|i]; simpl in *.
  - injection Hi as ->. apply elem_of_cons in Hz as [?|?]; done.
  - apply elem_of_cons in Hz as [->|Hz]; [left|right]. by eapply IH.
Qed.

Section OptimizeLaneMore.
Context `{Collaborators}.

Lemma laneFrame_refl w : laneFrame w w.
Proof. by repeat split. Qed.

Lemma laneFrame_trans w1 w2 w3 : laneFrame w1 w2 → laneFrame w2 w3 → laneFrame w1 w3.
Proof.
  intros (A1 & A2 & A3 & A4 & A5) (B1 & B2 & B3 & B4 & B5).
  split; [congruence|]. split; [congruence|]. split; [congruence|]. split.
  - intros z. by rewrite B4.
  - intros z g. by rewrite B5.
Qed.

Lemma sortPoints_elem w pts pts' g :
  sortPoints w pts = Some pts' → g ∈ pts' ↔ g ∈ pts.
Proof.
  rewrite sortPoints_eq. destruct (length pts <? 2)%nat; [by intros [= <-]|].
  destruct (decide _); [|done]. intros [= <-]. apply elem_of_sortBy.
Qed.

Lemma sortLane_frame x w w' : sortLane x w = Some w' → laneFrame w w'.
Proof.
  intros (pts & Hs & ->)%sortLane_inv.
  split; [done|]. split; [done|]. split; [done|]. split.
  - intros z. unfold getLane. simpl. destruct (decide (x = z)) as [->|Hne].
    + by rewrite lookup_total_insert_eq.
    + by rewrite lookup_total_insert_ne.
  - intros z g. unfold getLane. simpl. destruct (decide (x = z)) as [->|Hne].
    + rewrite lookup_total_insert_eq. simpl. by eapply sortPoints_elem.
    + by rewrite lookup_total_insert_ne.
Qed.

Lemma forM_sortLane_frame ls w w' : forM sortLane ls w = Some w' → laneFrame w w'.
Proof.
  apply (forM_rel laneFrame).
  - apply laneFrame_refl.
  - apply laneFrame_trans.
  - apply sortLane_frame.
Qed.

Lemma laneFrame_attached w w' : laneFrame w w' → attached w → attached w'.
Proof.
  intros (E1 & E2 & E3 & E4 & _) Ha r Hr. rewrite E2 in Hr.
  destruct (Ha r Hr) as (z & Hz & Hg). exists z. rewrite E3, E4.
  split; [done|]. unfold getNote. by rewrite E1.
Qed.

Lemma laneFrame_onLane w w' g : laneFrame w w' → onLane w' g ↔ onLane w g.
Proof.
  intros (_ & _ & E3 & _ & E5). unfold onLane. rewrite E3.
  split; intros (z & Hz & Hg); exists z; (split; [done|]); by apply E5.
Qed.

Lemma findMerge_None w lane lane2 :
  findMerge w = None → lane ∈ lanes (live w) → lane2 ∈ lanes (live w) →
  follows w lane lane2 = false.
Proof.
  unfold findMerge. intros Hnone Hl Hl2.
  destruct (follows w lane lane2) eqn:Hf; [exfalso|done].
  assert (is_Some (nextLaneOf w lane)) as [n Hn].
  { unfold nextLaneOf. destruct (List.find _ _) as [n|] eqn:E; [eauto|].
    apply list_elem_of_In in Hl2. pose proof (find_none _ _ E lane2 Hl2). congruence. }
  assert ((lane, n) ∈ omap (λ lane, nextLane ← nextLaneOf w lane; Some (lane, nextLane))
                           (lanes (live w))) as Hin.
  { apply list_elem_of_omap. exists lane. split; [done|]. by rewrite Hn. }
  destruct (omap _ _); [by apply elem_of_nil in Hin|done].
Qed.

Lemma mergeLanes_notes lane next w :
  notes (live (mergeLanes lane next w)) = notes (live w).
Proof.
  unfold mergeLanes, setLanes, updateLaneMap. cbv zeta.
  by rewrite calculateTime_eq, foldl_putNote.
Qed.

Lemma setLane_idem g n : Note.setLane g (Note.setLane g n) = Note.setLane g n.
Proof. reflexivity. Qed.

(** The lane a note names after a merge. *)
Lemma mergeLanes_noteLane lane next w r :
  r ∈ notes (live w) →
  Note.lane (getNote (mergeLanes lane next w) r)
  = if decide (Note.lane (getNote w r) = Lane.guid (getLane w next))
    then Lane.guid (getLane w lane) else Note.lane (getNote w r).
Proof.
  intros Hr. unfold mergeLanes, setLanes, updateLaneMap. cbv zeta.
  rewrite calculateTime_eq, foldl_putNote. unfold getNote at 1. simpl.
  rewrite (mapCells_key Note.lane) by done.
  set (rs := filter _ _).
  destruct (decide (r ∈ rs)) as [Hin|Hout].
  - rewrite mapCells_idem by (done || apply setLane_idem).
    apply list_elem_of_filter in Hin as [Hg _]. unfold getNote in Hg.
    by rewrite decide_True.
  - rewrite mapCells_notin_total by done.
    rewrite decide_False; [done|]. intros Hg. apply Hout.
    apply list_elem_of_filter. done.
Qed.

Lemma mergeLanes_getLane lane next w z :
  getLane (mergeLanes lane next w) z
  = if decide (z = lane)
    then Lane.setPoints (Lane.points (getLane w lane) ++ drop 1 (Lane.points (getLane w next)))
                        (getLane w lane)
    else getLane w z.
Proof.
  unfold getLane at 1. rewrite mergeLanes_laneObjs.
  destruct (decide (z = lane)) as [->|Hne].
  - by rewrite lookup_total_insert_eq.
  - by rewrite lookup_total_insert_ne.
Qed.

Lemma mergeLanes_keeps lane next w z :
  next ∈ lanes (live w) → z ∈ lanes (live w) → z ≠ next →
  z ∈ lanes (live (mergeLanes lane next w)).
Proof.
  intros Hn Hz Hne. rewrite mergeLanes_lanes.
  destruct (list_find _ _) as [[i x]|] eqn:E; [|done].
  apply list_find_Some in E as (Hi & -> & _). by eapply elem_of_delete_ne.
Qed.

Lemma mergeLanes_attached lane next w :
  findMerge w = Some (lane, next) → attached w → attached (mergeLanes lane next w).
Proof.
  intros (Hl & Hn & Hf)%findMerge_Some Ha r Hr.
  rewrite mergeLanes_notes in Hr. rewrite mergeLanes_noteLane by done.
  unfold follows in Hf. apply andb_prop in Hf as [Hne _].
  apply bool_decide_eq_true in Hne.
  destruct (decide _) as [Hg|Hg].
  - exists lane. split; [by apply mergeLanes_keeps|].
    by rewrite mergeLanes_getLane, decide_True.
  - destruct (Ha r Hr) as (z & Hz & Hzg). exists z. split.
    + apply mergeLanes_keeps; [done..|]. intros ->. congruence.
    + rewrite mergeLanes_getLane. by destruct (decide (z = lane)) as [->|].
Qed.

Lemma mergeLanes_onLane lane next w g :
  findMerge w = Some (lane, next) → onLane (mergeLanes lane next w) g ↔ onLane w g.
Proof.
  intros (Hl & Hn & Hf)%findMerge_Some.
  unfold follows in Hf. apply andb_prop in Hf as [Hne Hj].
  apply bool_decide_eq_true in Hne. apply bool_decide_eq_true in Hj.
  split.
  - intros (z & Hz%mergeLanes_subset & Hg). rewrite mergeLanes_getLane in Hg.
    destruct (decide (z = lane)) as [->|]; [|by exists z].
    simpl in Hg. apply elem_of_app in Hg as [Hg|Hg]; [by exists lane|].
    exists next. split; [done|]. eapply elem_of_sublist; [exact Hg|]. apply sublist_drop.
  - intros (z & Hz & Hg).
    destruct (decide (z = next)) as [->|Hzn].
    + exists lane. split; [by apply mergeLanes_keeps|].
      rewrite mergeLanes_getLane, decide_True by done. simpl.
      destruct (Lane.points (getLane w next)) as [|p ps]; [by apply elem_of_nil in Hg|].
      simpl in *. rewrite drop_0. apply elem_of_app.
      apply elem_of_cons in Hg as [->|Hg]; [left|by right].
      symmetry in Hj. apply last_Some in Hj as [q ->]. apply elem_of_app. right. left.
    + exists z. split; [by apply mergeLanes_keeps|].
      rewrite mergeLanes_getLane. destruct (decide (z = lane)) as [->|]; [|done].
      simpl. apply elem_of_app. by left.
Qed.

Lemma mergeLanes_sublist lane next w :
  lanes (live (mergeLanes lane next w)) `sublist_of` lanes (live w).
Proof.
  rewrite mergeLanes_lanes. destruct (list_find _ _) as [[i x]|]; [|done].
  apply sublist_delete.
Qed.

Lemma mergeLoop_keeps fuel : ∀ w,
  lanes (live (mergeLoop fuel w)) `sublist_of` lanes (live w)
  ∧ (attached w → attached (mergeLoop fuel w))
  ∧ (∀ g, onLane (mergeLoop fuel w) g ↔ onLane w g).
Proof.
  induction fuel as [|fuel IH]; intros w; simpl; [done|].
  destruct (findMerge w) as [[lane next]|] eqn:E; [|done].
  destruct (IH (mergeLanes lane next w)) as (Hs & Ha & Ho).
  split; [|split].
  - etransitivity; [exact Hs|]. apply mergeLanes_sublist.
  - intros Hw. by apply Ha, mergeLanes_attached.
  - intros g. rewrite Ho. by apply mergeLanes_onLane.
Qed.

Lemma tidy_Sorted w pts :
  tidy w pts →
  Sorted (λ a b, (posOf w a <= posOf w b)%Q) pts
  ∧ (2 ≤ length pts → Forall (λ g, is_Some (pointPosition w g)) pts).
Proof.
  intros [Hlen|[Hall Hs]].
  - split; [|lia]. destruct pts as [|a [|b pts]]; [constructor|repeat constructor|].
    simpl in Hlen. lia.
  - split; [|done]. eapply Sorted_weaken; [|exact Hs].
    intros a b Hab. unfold leP, pointLe in Hab. apply Qle_bool_iff in Hab. lra.
Qed.

(** X7.  When [optimizeLane] returns, the lanes that are left are lanes of
    before, in the same order; on each of them the points ascend in chart
    position (and all of them exist, as soon as there are two); and no lane
    is left whose first point is the last point of another lane, so the
    merging loop has come to rest. *)
Theorem optimizeLane_result w w' :
  optimizeLane w = Some w' →
  lanes (live w') `sublist_of` lanes (live w)
  ∧ (∀ z, z ∈ lanes (live w') →
       Sorted (λ a b, (posOf w' a <= posOf w' b)%Q) (Lane.points (getLane w' z))
       ∧ (2 ≤ length (Lane.points (getLane w' z)) →
          Forall (λ g, is_Some (pointPosition w' g)) (Lane.points (getLane w' z))))
  ∧ (∀ z z2, z ∈ lanes (live w') → z2 ∈ lanes (live w') → z ≠ z2 →
       head (Lane.points (getLane w' z2)) ≠ last (Lane.points (getLane w' z))).
Proof.
  intros E. pose proof (optimizeLane_settled _ _ E) as [Hs Hf].
  split; [|split].
  - unfold optimizeLane in E.
    destruct (forM sortLane (lanes (live w)) w) as [w1|] eqn:E1; simpl in E; [|done].
    injection E as <-. apply forM_sortLane_frame in E1 as (_ & _ & <- & _).
    apply mergeLoop_keeps.
  - intros z Hz. destruct (Hs z Hz) as [_ Ht]. by apply tidy_Sorted.
  - intros z z2 Hz Hz2 Hne Hj.
    pose proof (findMerge_None w' z z2 Hf Hz Hz2) as Hfol.
    unfold follows in Hfol. rewrite bool_decide_eq_true_2 in Hfol by done.
    rewrite bool_decide_eq_true_2 in Hfol by done. done.
Qed.

(** X8.  [optimizeLane] keeps the notes on lanes: if every note of the
    timeline names the guid of one of its lanes before the call, so does
    every note after it; the notes of an absorbed lane are moved to the lane
    that absorbed it. *)
Theorem optimizeLane_keeps_notes_attached w w' :
  optimizeLane w = Some w' → attached w → attached w'.
Proof.
  unfold optimizeLane.
  destruct (forM sortLane (lanes (live w)) w) as [w1|] eqn:E1; simpl; [|done].
  intros [= <-] Ha. apply forM_sortLane_frame in E1.
  apply mergeLoop_keeps. by apply (laneFrame_attached w).
Qed.

(** X9.  [optimizeLane] neither loses nor invents a lane point: a guid is a
    point of some lane of the timeline after the call exactly when it was one
    before. *)
Theorem optimizeLane_keeps_points w w' g :
  optimizeLane w = Some w' → onLane w' g ↔ onLane w g.
Proof.
  unfold optimizeLane.
  destruct (forM sortLane (lanes (live w)) w) as [w1|] eqn:E1; simpl; [|done].
  intros [= <-]. apply forM_sortLane_frame in E1.
  destruct (mergeLoop_keeps (length (lanes (live w1))) w1) as (_ & _ & Ho).
  rewrite Ho. by apply laneFrame_onLane.
Qed.

End OptimizeLaneMore.

(** ** optimizeNoteLine *)

Section IndexByMore.
Context {A : Type} `{Inhabited A} (key : A → string).

(** An entry of a rebuilt index leads to an element of the collection that
    carries the key. *)
Lemma indexBy_lookup (h : gmap ref A) rs g r :
  indexBy key h rs !! g = Some r → key (h !!! r) = g ∧ r ∈ rs.
Proof.
  unfold indexBy. induction rs as [|x rs IH] using rev_ind; simpl.
  - by rewrite lookup_empty.
  - rewrite foldl_app. simpl.
    destruct (decide (key (h !!! x) = g)) as [<-|Hne].
    + rewrite lookup_insert_eq. intros [= <-]. split; [done|].
      apply elem_of_app. right. left.
    + rewrite lookup_insert_ne by done. intros [Hk Hin]%IH. split; [done|].
      apply elem_of_app. by left.
Qed.

End IndexByMore.

Section OptimizeNoteLineMore.
Context `{Collaborators}.

Local Open Scope Q_scope.
Local Arguments sortWith : simpl never.

(** The two ends of a line as [optimizeNoteLine] writes them. *)
Lemma sortWith_pair {A} (cmp : A → A → Q) (x y : A) :
  sortWith cmp [x; y] = if Qle_bool (cmp x y) 0 then [x; y] else [y; x].
Proof. reflexivity. Qed.

Lemma optimizeNoteLine_step ls : ∀ w w',
  NoDup ls →
  forM (λ lr w,
          let l := getLine w lr in
          h ← lookupNote w (NoteLine.head l);
          t ← lookupNote w (NoteLine.tail l);
          match sortWith (λ a b, sortMeasure (Note.getMeasurePosition a)
                                             (Note.getMeasurePosition b))
                         [h.2; t.2] with
          | [a; b] => Some (putLine lr (NoteLine.setEnds (Note.guid a) (Note.guid b) l) w)
          | _ => None
          end) ls w = Some w' →
  live w' = live w
  ∧ noteObjs (store w') = noteObjs (store w)
  ∧ (∀ z, z ∉ ls → getLine w' z = getLine w z)
  ∧ (∀ lr, lr ∈ ls →
       ∃ h t, lookupNote w (NoteLine.head (getLine w lr)) = Some h
              ∧ lookupNote w (NoteLine.tail (getLine w lr)) = Some t
              ∧ getLine w' lr
                = if Qle_bool (Note.getMeasurePosition h.2 - Note.getMeasurePosition t.2) 0
                  then NoteLine.setEnds (Note.guid h.2) (Note.guid t.2) (getLine w lr)
                  else NoteLine.setEnds (Note.guid t.2) (Note.guid h.2) (getLine w lr)).
Proof.
  induction ls as [|x ls IH]; intros w w' Hnd; simpl.
  - intros [= <-]. repeat split. intros lr Hlr. by apply elem_of_nil in Hlr.
  - apply NoDup_cons in Hnd as [Hx Hnd].
    destruct (lookupNote w (NoteLine.head (getLine w x))) as [h|] eqn:Eh; simpl; [|done].
    destruct (lookupNote w (NoteLine.tail (getLine w x))) as [t|] eqn:Et; simpl; [|done].
    rewrite sortWith_pair. unfold sortMeasure.
    pose (l' := if Qle_bool (Note.getMeasurePosition h.2 - Note.getMeasurePosition t.2) 0
                then NoteLine.setEnds (Note.guid h.2) (Note.guid t.2) (getLine w x)
                else NoteLine.setEnds (Note.guid t.2) (Note.guid h.2) (getLine w x)).
    assert (match (if Qle_bool (Note.getMeasurePosition h.2 - Note.getMeasurePosition t.2) 0
                   then [h.2; t.2] else [t.2; h.2]) with
            | [a; b] => Some (putLine x (NoteLine.setEnds (Note.guid a) (Note.guid b)
                                           (getLine w x)) w)
            | _ => None
            end = Some (putLine x l' w)) as ->.
    { unfold l'. by destruct (Qle_bool _ _). }
    simpl. intros Hrest.
    destruct (IH _ _ Hnd Hrest) as (El & En & Hout & Hin).
    split; [done|]. split; [done|]. split.
    + intros z Hz. apply not_elem_of_cons in Hz as [Hzx Hz].
      rewrite Hout by done. unfold getLine. simpl. by rewrite lookup_total_insert_ne.
    + intros lr [->|Hlr]%elem_of_cons.
      * exists h, t. split; [done|]. split; [done|].
        rewrite Hout by done. unfold getLine at 1. simpl.
        by rewrite lookup_total_insert_eq.
      * destruct (Hin lr Hlr) as (h' & t' & Eh' & Et' & El').
        assert (getLine (putLine x l' w) lr = getLine w lr) as Eg.
        { unfold getLine. simpl. rewrite lookup_total_insert_ne; [done|]. by intros ->. }
        rewrite Eg in Eh', Et', El'. exists h', t'. done.
Qed.

(** X10.  When the note lines are distinct objects, [optimizeNoteLine]
    returns exactly when the head and the tail of every note line are keys of
    [noteMap]; a line with a missing end makes it throw. *)
Theorem optimizeNoteLine_returns_iff w :
  NoDup (noteLines (live w)) →
  is_Some (optimizeNoteLine w)
  ↔ ∀ lr, lr ∈ noteLines (live w) →
      is_Some (noteMap (live w) !! NoteLine.head (getLine w lr))
      ∧ is_Some (noteMap (live w) !! NoteLine.tail (getLine w lr)).
Proof.
  unfold optimizeNoteLine. generalize (noteLines (live w)) as ls.
  intros ls. revert w. induction ls as [|x ls IH]; intros w Hnd; simpl.
  - split; [|eauto]. intros _ lr Hlr. by apply elem_of_nil in Hlr.
  - apply NoDup_cons in Hnd as [Hx Hnd].
    assert (∀ g, is_Some (lookupNote w g) ↔ is_Some (noteMap (live w) !! g)) as Hlk.
    { intros g. unfold lookupNote. destruct (noteMap (live w) !! g); simpl; [|done].
      split; eauto. }
    destruct (lookupNote w (NoteLine.head (getLine w x))) as [h|] eqn:Eh; simpl.
    2: { split; [by intros [? ?]|]. intros Hall.
         destruct (Hall x ltac:(left)) as [Hh%Hlk _]. rewrite Eh in Hh. by destruct Hh. }
    destruct (lookupNote w (NoteLine.tail (getLine w x))) as [t|] eqn:Et; simpl.
    2: { split; [by intros [? ?]|]. intros Hall.
         destruct (Hall x ltac:(left)) as [_ Ht%Hlk]. rewrite Et in Ht. by destruct Ht. }
    rewrite sortWith_pair.
    set (l' := if Qle_bool _ _ then [h.2; t.2] else [t.2; h.2]).
    assert (∃ a b, l' = [a; b]) as (a & b & ->).
    { unfold l'. destruct (Qle_bool _ _); eauto. }
    simpl. rewrite IH by done.
    set (w1 := putLine x _ w).
    assert (∀ z, z ≠ x → getLine w1 z = getLine w z) as Hg.
    { intros z Hz. unfold getLine, w1. simpl. by rewrite lookup_total_insert_ne. }
    change (noteMap (live w1)) with (noteMap (live w)).
    split.
    + intros Hall lr [->|Hlr]%elem_of_cons.
      * split; apply Hlk; [rewrite Eh|rewrite Et]; eauto.
      * destruct (Hall lr Hlr) as [H1 H2]. rewrite Hg in H1, H2 by (by intros ->). done.
    + intros Hall lr Hlr. rewrite Hg by (by intros ->). apply Hall. by right.
Qed.

(** X11.  On a timeline whose [noteMap] is current and whose note lines are
    distinct objects, a call of [optimizeNoteLine] that returns leaves every
    note line either as it was or with head and tail exchanged, and then the
    head's note is not after the tail's note in chart position.  The notes,
    the collections and the maps are untouched. *)
Theorem optimizeNoteLine_orders_ends w w' :
  NoDup (noteLines (live w)) → noteMapOk w →
  optimizeNoteLine w = Some w' →
  live w' = live w
  ∧ noteObjs (store w') = noteObjs (store w)
  ∧ ∀ lr, lr ∈ noteLines (live w) →
      (getLine w' lr = getLine w lr
       ∨ getLine w' lr = NoteLine.setEnds (NoteLine.tail (getLine w lr))
                                          (NoteLine.head (getLine w lr)) (getLine w lr))
      ∧ ∃ h t, lookupNote w' (NoteLine.head (getLine w' lr)) = Some h
               ∧ lookupNote w' (NoteLine.tail (getLine w' lr)) = Some t
               ∧ Note.getMeasurePosition h.2 <= Note.getMeasurePosition t.2.
Proof.
  intros Hnd Hok E. unfold optimizeNoteLine in E.
  destruct (optimizeNoteLine_step _ _ _ Hnd E) as (El & En & _ & Hin).
  split; [done|]. split; [done|].
  assert (∀ g, lookupNote w' g = lookupNote w g) as Hlk.
  { intros g. unfold lookupNote, getNote. by rewrite El, En. }
  assert (∀ g p, lookupNote w g = Some p → Note.guid p.2 = g) as Hkey.
  { intros g p. unfold lookupNote.
    destruct (noteMap (live w) !! g) as [r|] eqn:Er; simpl; [|done].
    intros [= <-]. simpl. rewrite Hok in Er.
    by apply indexBy_lookup in Er as [? _]. }
  intros lr Hlr. destruct (Hin lr Hlr) as (h & t & Eh & Et & Eg).
  rewrite (Hkey _ _ Eh), (Hkey _ _ Et) in Eg.
  destruct (Qle_bool _ _) eqn:Ele.
  - split.
    + left. rewrite Eg. by destruct (getLine w lr).
    + exists h, t. rewrite !Hlk, Eg. simpl. split; [done|]. split; [done|].
      apply Qle_bool_iff in Ele. lra.
  - split.
    + by right.
    + exists t, h. rewrite !Hlk, Eg. simpl. split; [done|]. split; [done|].
      assert (¬ Note.getMeasurePosition h.2 - Note.getMeasurePosition t.2 <= 0) as Hn.
      { intros Hc. apply Qle_bool_iff in Hc. congruence. }
      lra.
Qed.

Local Close Scope Q_scope.

End OptimizeNoteLineMore.

(** ** getLines: the segments of a lane *)

Lemma zip_adjacent {A} (R : A → A → Prop) (l : list A) a b :
  Sorted R l → (a, b) ∈ zip l (drop 1 l) → R a b.
Proof.
  induction 1 as [|x l Hs IH Hhd]; [by intros ?%elem_of_nil|].
  simpl. rewrite drop_0. destruct Hhd as [|y l' Hxy]; [by intros ?%elem_of_nil|].
  simpl. intros [[= -> ->]|Hin]%elem_of_cons; [done|].
  apply IH. simpl. by rewrite drop_0.
Qed.

Lemma zip_adjacent_elem {A} (l : list A) a b :
  (a, b) ∈ zip l (drop 1 l) → a ∈ l ∧ b ∈ l.
Proof.
  intros Hin. split.
  - apply (elem_of_zip_l _ _ _ _ Hin).
  - eapply elem_of_sublist; [apply (elem_of_zip_r _ _ _ _ Hin)|apply sublist_drop].
Qed.

(** Between two elements of a list on which a test differs there are two
    neighbours on which it differs. *)
Lemma zip_adjacent_cross {A} (f : A → bool) (l : list A) x y :
  x ∈ l → y ∈ l → f x = false → f y = true →
  ∃ a b, (a, b) ∈ zip l (drop 1 l) ∧ f a ≠ f b.
Proof.
  revert x y. induction l as [|c l IH]; intros x y; [by intros ?%elem_of_nil|].
  intros Hx Hy Hfx Hfy. simpl. rewrite drop_0.
  destruct l as [|d l].
  { apply list_elem_of_singleton in Hx as ->. apply list_elem_of_singleton in Hy as ->.
    congruence. }
  destruct (bool_decide (f c = f d)) eqn:Ecd.
  - apply bool_decide_eq_true in Ecd.
    assert (∃ x', x' ∈ d :: l ∧ f x' = false) as (x' & Hx' & Hfx').
    { apply elem_of_cons in Hx as [->|Hx]; [|by exists x].
      exists d. split; [left|congruence]. }
    assert (∃ y', y' ∈ d :: l ∧ f y' = true) as (y' & Hy' & Hfy').
    { apply elem_of_cons in Hy as [->|Hy]; [|by exists y].
      exists d. split; [left|congruence]. }
    destruct (IH x' y' Hx' Hy' Hfx' Hfy') as (a & b & Hab & Hne).
    exists a, b. split; [|done]. simpl in Hab. rewrite drop_0 in Hab. by right.
  - apply bool_decide_eq_false in Ecd. exists c, d. split; [left|done].
Qed.

Section GetLines.

Local Open Scope Q_scope.

Lemma inject_Z_succ (k : Z) : inject_Z (k + 1) == inject_Z k + 1.
Proof. rewrite inject_Z_plus. reflexivity. Qed.

Lemma floor_bounds v : inject_Z (Qfloor v) <= v ∧ v < inject_Z (Qfloor v) + 1.
Proof.
  split; [apply Qfloor_le|]. pose proof (Qlt_floor v) as Hlt.
  by rewrite inject_Z_succ in Hlt.
Qed.

Lemma floor_unique v (k : Z) : inject_Z k <= v → v < inject_Z k + 1 → Qfloor v = k.
Proof.
  intros H1 H2. destruct (floor_bounds v) as [H3 H4].
  assert (inject_Z (Qfloor v) < inject_Z (k + 1)) as Ha by (rewrite inject_Z_succ; lra).
  assert (inject_Z k < inject_Z (Qfloor v + 1)) as Hb by (rewrite inject_Z_succ; lra).
  rewrite <- Zlt_Qlt in Ha, Hb. lia.
Qed.

Lemma floor_le_Z v (k : Z) : v <= inject_Z k + 1 → (Qfloor v <= k + 1)%Z.
Proof.
  intros Hv. destruct (floor_bounds v) as [H3 _].
  assert (inject_Z (Qfloor v) <= inject_Z (k + 1)) as Ha by (rewrite inject_Z_succ; lra).
  by rewrite <- Zle_Qle in Ha.
Qed.

Lemma floor_next v w : w == inject_Z (Qfloor v) + 1 → Qfloor w = (Qfloor v + 1)%Z.
Proof.
  intros Hw. apply floor_unique; rewrite inject_Z_succ; lra.
Qed.

Lemma inStep_start v pv :
  v <= pv → inStep pv v (Qmin (inject_Z (Qfloor v) + 1) pv).
Proof.
  intros Hv. destruct (floor_bounds v) as [H1 H2]. unfold inStep.
  destruct (Q.min_spec (inject_Z (Qfloor v) + 1) pv) as [[Hlt ->]|[Hle ->]].
  - split; [lra|]. split; [lra|]. split; [lra|]. by right.
  - split; [lra|]. split; [lra|]. split; [lra|]. by left.
Qed.

Lemma inStep_next pv v1 v2 :
  inStep pv v1 v2 → ¬ v2 == pv → inStep pv v2 (Qmin (v2 + 1) pv).
Proof.
  intros (H1 & H2 & H3 & [H4|H4]) Hne; [done|].
  pose proof (floor_next v1 v2 H4) as Hf. unfold inStep. rewrite Hf, inject_Z_succ.
  destruct (Q.min_spec (v2 + 1) pv) as [[Hlt ->]|[Hle ->]].
  - split; [lra|]. split; [lra|]. split; [lra|]. right. lra.
  - split; [lra|]. split; [lra|]. split; [lra|]. by left.
Qed.

Context (measures : list (Obj Measure.t)) (p1 p2 : Knot).

Lemma toLinePointInfo_Some m v mo :
  nthZ measures m = Some mo →
  ∃ A, toLinePointInfo measures p1 p2 m v = Some A
       ∧ Vector2.y (point A)
         = Measure.y (fields mo) + Measure.height (fields mo) * (inject_Z m + 1 - v).
Proof. intros E. unfold toLinePointInfo. rewrite E. simpl. eauto. Qed.

Lemma segments_S fuel v1 v2 lines :
  segments (S fuel) measures p1 p2 v1 v2 = Some lines →
  ∃ line, lineAt measures p1 p2 (Qfloor v1) v1 v2 line
          ∧ ((Qeq_bool v2 (k_value p2) = true ∧ lines = [line])
             ∨ (Qeq_bool v2 (k_value p2) = false
                ∧ ∃ rest, segments fuel measures p1 p2 v2 (Qmin (v2 + 1) (k_value p2))
                          = Some rest
                          ∧ lines = line :: rest)).
Proof.
  simpl.
  destruct (nthZ measures (Qfloor v1)) as [mo|] eqn:Em; simpl; [|done].
  destruct (toLinePointInfo measures p1 p2 (Qfloor v1) v1) as [A|] eqn:EA; simpl; [|done].
  destruct (toLinePointInfo measures p1 p2 (Qfloor v1) v2) as [B|] eqn:EB; simpl; [|done].
  intros Hl. exists (mkLineInfo (self mo) A B). split.
  { exists mo, A, B. done. }
  destruct (Qeq_bool v2 (k_value p2)).
  - left. by injection Hl as <-.
  - right. split; [done|].
    destruct (segments fuel _ _ _ _ _) as [rest|]; simpl in Hl; [|done].
    injection Hl as <-. eauto.
Qed.

(** Every segment of the loop stays in one measure. *)
Lemma segments_inside fuel : ∀ v1 v2 lines,
  inStep (k_value p2) v1 v2 →
  segments fuel measures p1 p2 v1 v2 = Some lines →
  Forall (λ line, ∃ m a b, lineAt measures p1 p2 m a b line
                           ∧ inject_Z m <= a ∧ a <= b ∧ b <= inject_Z m + 1) lines.
Proof.
  induction fuel as [|fuel IH]; intros v1 v2 lines Hin Hs; [done|].
  apply segments_S in Hs as (line & Hline & Hcase).
  assert (∃ m a b, lineAt measures p1 p2 m a b line
                   ∧ inject_Z m <= a ∧ a <= b ∧ b <= inject_Z m + 1) as Hhere.
  { exists (Qfloor v1), v1, v2. destruct Hin as (H1 & H2 & _).
    destruct (floor_bounds v1). done. }
  destruct Hcase as [[_ ->]|(Hne & rest & Hrest & ->)].
  - by repeat constructor.
  - constructor; [done|]. apply (IH _ _ _ (inStep_next _ _ _ Hin ltac:(
      intros Hc; apply Qeq_bool_iff in Hc; congruence)) Hrest).
Qed.

(** The loop has fuel enough to reach [p2], and returns when the measures it
    crosses exist. *)
Lemma segments_returns fuel : ∀ v1 v2,
  inStep (k_value p2) v1 v2 →
  (Z.to_nat (Qfloor (k_value p2) - Qfloor v1) < fuel)%nat →
  (∀ m, (Qfloor v1 <= m <= Qfloor (k_value p2))%Z → is_Some (nthZ measures m)) →
  is_Some (segments fuel measures p1 p2 v1 v2).
Proof.
  induction fuel as [|fuel IH]; intros v1 v2 Hin Hfuel Hms; [lia|].
  assert (Qfloor v1 <= Qfloor (k_value p2))%Z as Hle.
  { apply Qfloor_resp_le. destruct Hin as (? & ? & ? & _). lra. }
  destruct (Hms (Qfloor v1) ltac:(lia)) as [mo Emo].
  simpl. rewrite Emo. simpl.
  destruct (toLinePointInfo_Some (Qfloor v1) v1 mo Emo) as (A & -> & _).
  destruct (toLinePointInfo_Some (Qfloor v1) v2 mo Emo) as (B & -> & _).
  simpl. destruct (Qeq_bool v2 (k_value p2)) eqn:Eq; [eauto|].
  assert (¬ v2 == k_value p2) as Hne
    by (intros Hc; apply Qeq_bool_iff in Hc; congruence).
  pose proof (inStep_next _ _ _ Hin Hne) as Hin'.
  destruct Hin as (H1 & H2 & H3 & [H4|H4]); [done|].
  pose proof (floor_next v1 v2 H4) as Hf.
  assert (Qfloor v2 <= Qfloor (k_value p2))%Z as Hle2 by (by apply Qfloor_resp_le).
  destruct (IH v2 (Qmin (v2 + 1) (k_value p2)) Hin') as [rest ->].
  - rewrite Hf. lia.
  - intros m Hm. apply Hms. lia.
  - simpl. eauto.
Qed.

(** The loop leaves a segment over every position [t] between [v1] and [p2],
    inside the measure [m] that [t] is looked up in. *)
Lemma segments_cover fuel : ∀ v1 v2 lines t m,
  inStep (k_value p2) v1 v2 →
  segments fuel measures p1 p2 v1 v2 = Some lines →
  v1 <= t → t <= k_value p2 →
  inject_Z m <= t → t <= inject_Z m + 1 →
  (t == inject_Z m → t < k_value p2) →
  (t == inject_Z m + 1 → v1 < t) →
  ∃ line a b, line ∈ lines ∧ lineAt measures p1 p2 m a b line ∧ a <= t ∧ t <= b.
Proof.
  induction fuel as [|fuel IH]; intros v1 v2 lines t m Hin Hs Hv1 Hpv Hm1 Hm2 Hlo Hhi;
    [done|].
  apply segments_S in Hs as (line & Hline & Hcase).
  destruct (floor_bounds v1) as [Hf1 Hf2].
  pose proof (floor_le_Z v1 m ltac:(lra)) as Hfm.
  destruct (Z.eq_dec (Qfloor v1) (m + 1)%Z) as [E1|N1].
  { exfalso. rewrite E1, inject_Z_succ in Hf1.
    assert (t == inject_Z m + 1) as Ht by lra. specialize (Hhi Ht). lra. }
  destruct (Z.eq_dec (Qfloor v1) m) as [E2|N2].
  - exists line, v1, v2. rewrite E2 in Hline. split.
    { destruct Hcase as [[_ ->]|(_ & rest & _ & ->)]; left. }
    split; [done|]. split; [done|].
    destruct Hin as (_ & _ & _ & [H4|H4]); [lra|]. rewrite E2 in H4. lra.
  - assert (inject_Z (Qfloor v1) + 1 <= inject_Z m) as Hbelow.
    { rewrite <- inject_Z_succ, <- Zle_Qle. lia. }
    destruct Hcase as [[Heq ->]|(Hne & rest & Hrest & ->)].
    + exfalso. apply Qeq_bool_iff in Heq.
      destruct Hin as (_ & H2 & _ & _).
      assert (t == inject_Z m) as Ht by lra. specialize (Hlo Ht). lra.
    + assert (¬ v2 == k_value p2) as Hne'
        by (intros Hc; apply Qeq_bool_iff in Hc; congruence).
      pose proof (inStep_next _ _ _ Hin Hne') as Hin'.
      destruct Hin as (_ & H2 & _ & _).
      destruct (IH v2 _ rest t m Hin' Hrest) as (l' & a & b & Hl' & Hat & Ha & Hb);
        [lra|done|done|done|done|intros Ht; lra|].
      exists l', a, b. split; [by right|done].
Qed.

End GetLines.


Lemma Sorted_map {A B} (R : A → A → Prop) (R' : B → B → Prop) (f : A → B) l :
  (∀ a b, R a b → R' (f a) (f b)) → Sorted R l → Sorted R' (map f l).
Proof.
  intros HR. induction 1 as [|x l Hs IH Hhd]; simpl; constructor; [done|].
  destruct Hhd; simpl; constructor. by apply HR.
Qed.

Lemma find_is_Some {A} (f : A → bool) (l : list A) x :
  x ∈ l → f x = true → is_Some (List.find f l).
Proof.
  intros Hin Hf. destruct (List.find f l) eqn:E; [eauto|].
  apply list_elem_of_In in Hin. pose proof (find_none _ _ E x Hin). congruence.
Qed.

Lemma mapM_elem {A B} (f : A → option B) (l : list A) (k : list B) x y :
  mapM f l = Some k → x ∈ l → f x = Some y → y ∈ k.
Proof.
  intros Hm%mapM_Some Hx Hf. revert Hx.
  induction Hm as [|a b l k Hab Hm IH]; [by intros ?%elem_of_nil|].
  intros [->|Hx]%elem_of_cons.
  - assert (b = y) as -> by congruence. left.
  - right. by apply IH.
Qed.

Lemma mapM_elem_inv {A B} (f : A → option B) (l : list A) (k : list B) y :
  mapM f l = Some k → y ∈ k → ∃ x, x ∈ l ∧ f x = Some y.
Proof.
  intros Hm%mapM_Some. induction Hm as [|a b l k Hab Hm IH]; [by intros ?%elem_of_nil|].
  intros [->|Hy]%elem_of_cons.
  - exists a. split; [left|done].
  - destruct (IH Hy) as (x & Hx & Hf). exists x. split; [by right|done].
Qed.

Section GetLinesList.

Local Open Scope Q_scope.

Lemma byValue_le a b : byValue a b = true ↔ pointValue a <= pointValue b.
Proof.
  unfold byValue, sortMeasure, chartPosition, pointValue, toKnot. simpl.
  rewrite Qle_bool_iff, !Qred_correct. split; lra.
Qed.

Lemma byValue_total a b : byValue a b = false → byValue b a = true.
Proof.
  intros Hab. apply byValue_le.
  assert (¬ pointValue a <= pointValue b) as Hn.
  { intros Hc. apply byValue_le in Hc. congruence. }
  lra.
Qed.

(** The control points as [getLines] walks them. *)
Lemma knots_sorted points :
  Sorted (λ a b, k_value a <= k_value b) (map toKnot (sortBy byValue points)).
Proof.
  eapply Sorted_map; [|apply (sortBy_Sorted byValue byValue_total)].
  intros a b Hab. by apply byValue_le.
Qed.

Lemma elem_of_knots points k :
  k ∈ map toKnot (sortBy byValue points) ↔ ∃ p, p ∈ points ∧ k = toKnot p.
Proof.
  rewrite list_elem_of_In, in_map_iff. split.
  - intros (p & <- & Hp%list_elem_of_In). exists p. by rewrite elem_of_sortBy in Hp.
  - intros (p & Hp & ->). exists p. by rewrite <- list_elem_of_In, elem_of_sortBy.
Qed.

(** [getLines] as the segments of the pairs of neighbouring control points. *)
Lemma getLines_pairs points measures lines :
  getLines points measures = Some lines →
  ∀ line, line ∈ lines ↔
    ∃ p1 p2 segs,
      (p1, p2) ∈ zip (map toKnot (sortBy byValue points))
                     (drop 1 (map toKnot (sortBy byValue points)))
      ∧ segments (Z.to_nat (Qfloor (k_value p2) - Qfloor (k_value p1)) + 2) measures p1 p2
                 (k_value p1) (Qmin (inject_Z (Qfloor (k_value p1)) + 1) (k_value p2))
        = Some segs
      ∧ line ∈ segs.
Proof.
  unfold getLines. cbv zeta.
  change (sortWith _ points) with (sortBy byValue points).
  destruct (mapM _ _) as [ls|] eqn:E; simpl; [|done].
  intros [= <-] line. rewrite list_elem_of_In, in_concat. split.
  - intros (segs & Hsegs%list_elem_of_In & Hline%list_elem_of_In).
    destruct (mapM_elem_inv _ _ _ _ E Hsegs) as ([p1 p2] & Hp & Hs).
    exists p1, p2, segs. done.
  - intros (p1 & p2 & segs & Hp & Hs & Hline). exists segs.
    rewrite <- !list_elem_of_In. split; [|done].
    by apply (mapM_elem _ _ _ (p1, p2) segs E).
Qed.

Lemma lineAt_y measures p1 p2 m a b line :
  lineAt measures p1 p2 m a b line →
  ∃ mo, nthZ measures m = Some mo ∧ measure line = self mo
        ∧ Vector2.y (point (start line))
          = Measure.y (fields mo) + Measure.height (fields mo) * (inject_Z m + 1 - a)
        ∧ Vector2.y (point (end_ line))
          = Measure.y (fields mo) + Measure.height (fields mo) * (inject_Z m + 1 - b).
Proof.
  intros (mo & A & B & Em & EA & EB & ->). exists mo.
  destruct (toLinePointInfo_Some measures p1 p2 m a mo Em) as (A' & EA' & HA).
  destruct (toLinePointInfo_Some measures p1 p2 m b mo Em) as (B' & EB' & HB).
  rewrite EA in EA'. rewrite EB in EB'. injection EA' as <-. injection EB' as <-.
  done.
Qed.

(** X12.  Every segment [getLines] returns belongs to one measure of the
    array it was given, and lies inside it vertically: its end is not below
    its start, and both are between the top and the bottom of the measure
    (for a measure whose height is not negative). *)
Theorem getLines_inside_measure points measures lines line :
  getLines points measures = Some lines → line ∈ lines →
  ∃ i mo, nthZ measures i = Some mo
          ∧ measure line = self mo
          ∧ (0 <= Measure.height (fields mo) →
             Measure.y (fields mo) <= Vector2.y (point (end_ line))
             ∧ Vector2.y (point (end_ line)) <= Vector2.y (point (start line))
             ∧ Vector2.y (point (start line))
               <= Measure.y (fields mo) + Measure.height (fields mo)).
Proof.
  intros E Hline.
  apply (getLines_pairs _ _ _ E) in Hline as (p1 & p2 & segs & Hp & Hs & Hline).
  pose proof (zip_adjacent _ _ _ _ (knots_sorted points) Hp) as Hle.
  pose proof (segments_inside measures p1 p2 _ _ _ _ (inStep_start _ _ Hle) Hs) as Hall.
  rewrite Forall_forall in Hall.
  destruct (Hall line Hline) as (m & a & b & Hat & Ha & Hab & Hb).
  destruct (lineAt_y _ _ _ _ _ _ _ Hat) as (mo & Em & Eself & Es & Ee).
  exists m, mo. split; [done|]. split; [done|]. intros HH.
  rewrite Es, Ee.
  assert (0 <= Measure.height (fields mo) * (inject_Z m + 1 - b))
    by (apply Qmult_le_0_compat; lra).
  assert (0 <= Measure.height (fields mo) * (b - a))
    by (apply Qmult_le_0_compat; lra).
  assert (0 <= Measure.height (fields mo) * (a - inject_Z m))
    by (apply Qmult_le_0_compat; lra).
  split; [lra|]. split; lra.
Qed.

Lemma floor_in_range v (n : nat) :
  0 <= v → v < inject_Z (Z.of_nat n) → (0 <= Qfloor v < Z.of_nat n)%Z.
Proof.
  intros H0 Hn. destruct (floor_bounds v) as [H1 H2]. split.
  - change 0%Z with (Qfloor 0). by apply Qfloor_resp_le.
  - rewrite Zlt_Qlt. lra.
Qed.

(** X13.  [getLines] returns when every control point has a
    [measurePosition] whose denominator is not 0 and lies in a measure of the
    array: at a chart position that is not negative and below the number of
    measures.  The loop between two control points then ends, and no measure
    it reads is missing. *)
Theorem getLines_returns points measures :
  Forall (λ p, denominator (LanePoint.measurePosition p) ≠ 0%Z
               ∧ 0 <= pointValue p
               ∧ pointValue p < inject_Z (Z.of_nat (length measures)))
         points →
  is_Some (getLines points measures).
Proof.
  intros Hall. unfold getLines. cbv zeta.
  change (sortWith _ points) with (sortBy byValue points).
  set (knots := map toKnot (sortBy byValue points)).
  assert (is_Some (mapM (λ p : Knot * Knot,
            segments (Z.to_nat (Qfloor (k_value p.2) - Qfloor (k_value p.1)) + 2) measures
                     p.1 p.2 (k_value p.1)
                     (Qmin (inject_Z (Qfloor (k_value p.1)) + 1) (k_value p.2)))
            (zip knots (drop 1 knots)))) as [ls Els].
  { apply mapM_is_Some. apply Forall_forall. intros [p1 p2] Hp. simpl.
    pose proof (zip_adjacent _ _ _ _ (knots_sorted points) Hp) as Hle.
    destruct (zip_adjacent_elem _ _ _ Hp) as [H1 H2].
    apply elem_of_knots in H1 as (q1 & Hq1 & ->).
    apply elem_of_knots in H2 as (q2 & Hq2 & ->).
    rewrite Forall_forall in Hall.
    destruct (Hall q1 Hq1) as (_ & Ha1 & Hb1). destruct (Hall q2 Hq2) as (_ & Ha2 & Hb2).
    pose proof (floor_in_range _ _ Ha1 Hb1) as Hf1.
    pose proof (floor_in_range _ _ Ha2 Hb2) as Hf2.
    apply segments_returns; [by apply inStep_start|lia|].
    intros m Hm. unfold nthZ.
    destruct (Z.ltb_spec m 0) as [|_]; [unfold pointValue in *; lia|].
    apply lookup_lt_is_Some. unfold pointValue in *. lia. }
  change (mapM _ (zip knots (drop 1 knots))) with
    (mapM (λ p : Knot * Knot,
            segments (Z.to_nat (Qfloor (k_value p.2) - Qfloor (k_value p.1)) + 2) measures
                     p.1 p.2 (k_value p.1)
                     (Qmin (inject_Z (Qfloor (k_value p.1)) + 1) (k_value p.2)))
            (zip knots (drop 1 knots))).
  rewrite Els. simpl. eauto.
Qed.

Lemma to01_unit (f : Fraction) :
  (0 < denominator f)%Z → (0 <= numerator f <= denominator f)%Z →
  0 <= to01 f ∧ to01 f <= 1.
Proof.
  intros Hd [Hn1 Hn2]. unfold to01.
  assert (0 < inject_Z (denominator f)) as Hd'
    by (change 0 with (inject_Z 0); rewrite <- Zlt_Qlt; lia).
  assert (0 <= inject_Z (numerator f)) as Hn1'
    by (change 0 with (inject_Z 0); rewrite <- Zle_Qle; lia).
  assert (inject_Z (numerator f) <= inject_Z (denominator f)) as Hn2'
    by (rewrite <- Zle_Qle; lia).
  split.
  - apply Qle_shift_div_l; [done|]. lra.
  - apply Qle_shift_div_r; [done|]. lra.
Qed.

(** A pair of neighbouring control points around the position [t]. *)
Lemma knots_around points ka kb t (strict : bool) :
  ka ∈ map toKnot (sortBy byValue points) →
  kb ∈ map toKnot (sortBy byValue points) →
  (if strict then k_value ka < t ∧ t <= k_value kb
   else k_value ka <= t ∧ t < k_value kb) →
  ∃ a b, (a, b) ∈ zip (map toKnot (sortBy byValue points))
                      (drop 1 (map toKnot (sortBy byValue points)))
         ∧ (if strict then k_value a < t ∧ t <= k_value b
            else k_value a <= t ∧ t < k_value b).
Proof.
  intros Ha Hb Hab.
  set (above := λ k : Knot,
         if strict then Qle_bool t (k_value k) else negb (Qle_bool (k_value k) t)).
  assert (∀ k, above k = true ↔ if strict then t <= k_value k else t < k_value k) as Habove.
  { intros k. unfold above. destruct strict.
    - apply Qle_bool_iff.
    - rewrite negb_true_iff. split.
      + intros E. destruct (Qlt_le_dec t (k_value k)) as [|Hc]; [done|].
        apply Qle_bool_iff in Hc. congruence.
      + intros Hlt. destruct (Qle_bool (k_value k) t) eqn:E; [|done].
        apply Qle_bool_iff in E. lra. }
  assert (above ka = false) as Hfa.
  { destruct (above ka) eqn:E; [|done]. apply Habove in E. destruct strict; lra. }
  assert (above kb = true) as Hfb.
  { apply Habove. destruct strict; lra. }
  destruct (zip_adjacent_cross above _ ka kb Ha Hb Hfa Hfb) as (a & b & Hin & Hne).
  exists a, b. split; [done|].
  pose proof (zip_adjacent _ _ _ _ (knots_sorted points) Hin) as Hle.
  cbv beta in Hle.
  destruct (above b) eqn:Eb.
  - destruct (above a) eqn:Ea; [done|].
    apply Habove in Eb.
    assert (¬ (if strict then t <= k_value a else t < k_value a)) as Hna.
    { intros Hc. apply Habove in Hc. congruence. }
    destruct strict; lra.
  - destruct (above a) eqn:Ea; [|done].
    apply Habove in Ea.
    assert (¬ (if strict then t <= k_value b else t < k_value b)) as Hnb.
    { intros Hc. apply Habove in Hc. congruence. }
    destruct strict; lra.
Qed.

(** X14.  Once [render] has returned for a lane, [getNotePointInfo] answers
    on that lane for every measure the lane runs through and every vertical
    position of the measure from 0 to 1: it is enough that one control point
    of the lane lies at or before the start of the measure and one at or
    after its end. *)
Theorem getNotePointInfo_after_render cache cache' lane lanePointMap measures
    i mo ga gb pa pb horizontal vertical :
  render cache lane lanePointMap measures = Some cache' →
  nthZ measures i = Some mo →
  0 <= Measure.height (fields mo) →
  ga ∈ Lane.points (fields lane) → lanePointMap !! ga = Some pa →
  gb ∈ Lane.points (fields lane) → lanePointMap !! gb = Some pb →
  pointValue pa <= inject_Z i → inject_Z i + 1 <= pointValue pb →
  (0 < denominator vertical)%Z → (0 <= numerator vertical <= denominator vertical)%Z →
  is_Some (getNotePointInfo cache' lane mo horizontal vertical).
Proof.
  intros Hrender Emo HH Hga Epa Hgb Epb Hlo Hhi Hd Hn.
  unfold render in Hrender.
  destruct (mapM _ (Lane.points (fields lane))) as [pts|] eqn:Epts; simpl in Hrender; [|done].
  destruct (getLines pts measures) as [lines|] eqn:Elines; simpl in Hrender; [|done].
  injection Hrender as <-.
  pose proof (mapM_elem _ _ _ _ _ Epts Hga Epa) as Hpa.
  pose proof (mapM_elem _ _ _ _ _ Epts Hgb Epb) as Hpb.
  destruct (to01_unit vertical Hd Hn) as [Hv0 Hv1].
  assert (∃ t, t == inject_Z i + to01 vertical) as [t Et] by (eexists; reflexivity).
  assert (∃ a b, (a, b) ∈ zip (map toKnot (sortBy byValue pts))
                              (drop 1 (map toKnot (sortBy byValue pts)))
                 ∧ k_value a <= t ∧ t <= k_value b
                 ∧ (t == inject_Z i → t < k_value b)
                 ∧ (t == inject_Z i + 1 → k_value a < t)) as (a & b & Hin & Hat & Htb & H1 & H2).
  { assert (toKnot pa ∈ map toKnot (sortBy byValue pts)) as Ka
      by (apply elem_of_knots; eauto).
    assert (toKnot pb ∈ map toKnot (sortBy byValue pts)) as Kb
      by (apply elem_of_knots; eauto).
    unfold pointValue in Hlo, Hhi.
    destruct (Qlt_le_dec t (inject_Z i + 1)) as [Hlt|Hge].
    - destruct (knots_around pts _ _ t false Ka Kb) as (a & b & Hin & Ha & Hb);
        [split; lra|].
      exists a, b. split; [done|]. split; [done|]. split; [lra|].
      split; [done|]. intros Ht. lra.
    - destruct (knots_around pts _ _ t true Ka Kb) as (a & b & Hin & Ha & Hb);
        [split; lra|].
      exists a, b. split; [done|]. split; [lra|]. split; [done|].
      split; [|done]. intros Ht. lra. }
  pose proof (getLines_pairs _ _ _ Elines) as Hpairs.
  assert (∃ segs, segments (Z.to_nat (Qfloor (k_value b) - Qfloor (k_value a)) + 2) measures
                           a b (k_value a)
                           (Qmin (inject_Z (Qfloor (k_value a)) + 1) (k_value b))
                  = Some segs) as [segs Hsegs].
  { unfold getLines in Elines. cbv zeta in Elines.
    change (sortWith _ pts) with (sortBy byValue pts) in Elines.
    destruct (mapM _ (zip _ _)) as [ls|] eqn:E; simpl in Elines; [|done].
    assert (is_Some (mapM (λ p : Knot * Knot,
              segments (Z.to_nat (Qfloor (k_value p.2) - Qfloor (k_value p.1)) + 2) measures
                       p.1 p.2 (k_value p.1)
                       (Qmin (inject_Z (Qfloor (k_value p.1)) + 1) (k_value p.2)))
              (zip (map toKnot (sortBy byValue pts))
                   (drop 1 (map toKnot (sortBy byValue pts)))))) as Hs by (rewrite E; eauto).
    rewrite mapM_is_Some, Forall_forall in Hs.
    destruct (Hs (a, b) Hin) as [segs Hsegs]. eauto. }
  assert (k_value a <= k_value b) as Hab by lra.
  destruct (segments_cover measures a b _ _ _ _ t i
              (inStep_start _ _ Hab) Hsegs Hat Htb)
    as (line & a' & b' & Hline & Hlat & Ha' & Hb'); [lra..|done|done|].
  destruct (lineAt_y _ _ _ _ _ _ _ Hlat) as (mo' & Emo' & Eself & Es & Ee).
  rewrite Emo in Emo'. injection Emo' as <-.
  assert (line ∈ lines) as Hl by (apply Hpairs; eauto 6).
  unfold getNotePointInfo. rewrite lookup_insert_eq. simpl.
  destruct (find_is_Some
              (λ line, bool_decide (measure line = self mo)
                       && Qle_bool (Measure.y (fields mo)
                                    + Measure.height (fields mo) * (1 - to01 vertical))
                                   (Vector2.y (point (start line)))
                       && Qle_bool (Vector2.y (point (end_ line)))
                                   (Measure.y (fields mo)
                                    + Measure.height (fields mo) * (1 - to01 vertical)))
              lines line Hl) as [target ->]; [|simpl; eauto].
  rewrite Es, Ee.
  assert (0 <= Measure.height (fields mo) * (inject_Z i + to01 vertical - a'))
    by (apply Qmult_le_0_compat; lra).
  assert (0 <= Measure.height (fields mo) * (b' - (inject_Z i + to01 vertical)))
    by (apply Qmult_le_0_compat; lra).
  rewrite bool_decide_eq_true_2 by done. simpl.
  apply andb_true_intro. split; apply Qle_bool_iff; lra.
Qed.

End GetLinesList.

(** ** getNotePointInfoFromMousePosition: what a hit reports *)

Section HitTest.

Local Open Scope Q_scope.

Lemma Qlt_bool_iff a b : Qlt_bool a b = true ↔ a < b.
Proof.
  unfold Qlt_bool. rewrite negb_true_iff. split.
  - intros E. destruct (Qlt_le_dec a b) as [|Hc]; [done|].
    apply Qle_bool_iff in Hc. congruence.
  - intros Hlt. destruct (Qle_bool b a) eqn:E; [|done].
    apply Qle_bool_iff in E. lra.
Qed.

Lemma inCell_iff height mouse data :
  inCell height mouse data = true
  ↔ Vector2.x (point data) <= Vector2.x mouse
    ∧ Vector2.x mouse < Vector2.x (point data) + width data
    ∧ Vector2.y (point data) - height <= Vector2.y mouse
    ∧ Vector2.y mouse < Vector2.y (point data) + height.
Proof.
  unfold inCell. rewrite !andb_true_iff, !Qle_bool_iff, !Qlt_bool_iff. tauto.
Qed.

(** X15.  A hit that [getNotePointInfoFromMousePosition] reports for a
    positive division [N] names the lane it was asked about, a column among
    those it scans and a row between 0 and [N - 1].  Either it is a hit in the
    measure itself, and then the cell it reports (the column, and the row
    [N - 1 - verticalIndex] counted from the bottom) contains the mouse:
    horizontally from its left edge up to its width, vertically within half a
    row of its line; or it is a hit on the top boundary, reported as the last
    row of the next measure. *)
Theorem mouse_hit_in_range cache lane m next N mouse drag r :
  (0 < N)%Z →
  getNotePointInfoFromMousePosition cache lane m next N mouse drag = Some r →
  npLane r = self lane
  ∧ ((if drag then - Lane.division (fields lane) else 0) <= horizontalIndex r
     < Lane.division (fields lane) + (if drag then 1 else 0))%Z
  ∧ (0 <= verticalIndex r <= N - 1)%Z
  ∧ ((∃ data,
        linePointInfo r = Some data
        ∧ measureIndex r = Measure.index (Measure.dataOf (fields m))
        ∧ getNotePointInfo cache lane m
            (mkFraction (horizontalIndex r) (Lane.division (fields lane)))
            (mkFraction (N - 1 - verticalIndex r) N) = Some data
        ∧ Vector2.x (point data) <= Vector2.x mouse
        ∧ Vector2.x mouse < Vector2.x (point data) + width data
        ∧ Vector2.y (point data) - Measure.height (fields m) / inject_Z N / 2
          <= Vector2.y mouse
        ∧ Vector2.y mouse
          < Vector2.y (point data) + Measure.height (fields m) / inject_Z N / 2)
     ∨ (measureIndex r = Measure.index (Measure.dataOf (fields next))
        ∧ verticalIndex r = (N - 1)%Z
        ∧ linePointInfo r
          = getNotePointInfo cache lane next
              (mkFraction (horizontalIndex r) (Lane.division (fields lane)))
              (mkFraction 0 N))).
Proof.
  intros HN Hr. unfold getNotePointInfoFromMousePosition in Hr.
  apply firstSome_Some in Hr as (i & Hi & Hr).
  apply firstSome_Some in Hr as (j & Hj & Hr).
  apply elem_of_seqZ in Hi. apply elem_of_seqZ in Hj.
  unfold hitCell in Hr.
  destruct (getNotePointInfo cache lane m _ _) as [data|] eqn:E; simpl in Hr; [|done].
  destruct (inCell _ _ _) eqn:Hin; [|done].
  apply inCell_iff in Hin as (H1 & H2 & H3 & H4).
  destruct (Z.eqb_spec j N) as [->|Hne]; injection Hr as <-; simpl.
  - split; [done|]. split; [lia|]. split; [lia|]. right. done.
  - split; [done|]. split; [lia|]. split; [lia|]. left.
    exists data. split; [done|]. split; [done|].
    replace (N - 1 - (N - j - 1))%Z with j by lia. done.
Qed.

End HitTest.

(** ** The renderers *)

Section Renderers.

Local Open Scope Q_scope.

(** X16.  A segment for which [defaultRender] draws nothing lies outside the
    render area as long as it is not wider at its end than at its start:
    both its start edge and its end edge are entirely to the left of the
    area, or both are entirely to the right of it. *)
Theorem defaultRender_skips_outside renderArea line laneTemplate :
  defaultRender renderArea [line] laneTemplate = [] →
  width (end_ line) <= width (start line) →
  (Vector2.x (point (start line)) + width (start line) < ra_left renderArea
   ∧ Vector2.x (point (end_ line)) + width (end_ line) < ra_left renderArea)
  ∨ (ra_right renderArea < Vector2.x (point (start line))
     ∧ ra_right renderArea < Vector2.x (point (end_ line))).
Proof.
  unfold defaultRender. simpl. rewrite app_nil_r.
  destruct (culled renderArea line) eqn:E; [|done].
  intros _ Hw. unfold culled in E.
  apply orb_true_iff in E as [E|E]; apply andb_true_iff in E as [E1 E2];
    apply Qlt_bool_iff in E1; apply Qlt_bool_iff in E2.
  - left. split; lra.
  - right. done.
Qed.

(** X17.  [NoteRenderer.render] draws exactly when [getBounds] returns: when
    the lane's renderer has no answer for the note, [getBounds] throws and
    [render] draws nothing; otherwise [render] draws one horizontal stroke
    from the left edge of the bounds to their right edge, and the bounds are
    the box 10 high that starts 5 above the stroke. *)
Theorem noteRenderer_stroke_in_bounds resolved color note lane m :
  match NoteRenderer.getBounds resolved note lane m with
  | None => NoteRenderer.render resolved color note lane m = []
  | Some b =>
      ∃ from to,
        NoteRenderer.render resolved color note lane m = [DrawLine 6 color from to]
        ∧ Vector2.x from = r_x b
        ∧ Vector2.x to = r_x b + r_width b
        ∧ Vector2.y from = Vector2.y to
        ∧ r_y b = Vector2.y from - 5
        ∧ r_height b = 10
  end.
Proof.
  unfold NoteRenderer.getBounds, NoteRenderer.render.
  destruct (resolved lane m _ _) as [q|]; simpl; [|done].
  eexists _, _. split; [reflexivity|]. simpl. done.
Qed.

(** *** OtherObjectRenderer *)

Section OtherObjects.
Variable positionText : OtherObject.t → Measure.t → string.

(** The counter of a position is the number of calls made at it. *)
Lemma frame_drawn calls st : ∀ key,
  OtherObjectRenderer.drawedPositions (OtherObjectRenderer.frame positionText calls st)
    !! key
  = match drawnAt positionText key calls with
    | O => None
    | S k => Some (Z.of_nat (S k))
    end.
Proof.
  unfold OtherObjectRenderer.frame.
  induction calls as [|[object m] calls IH] using rev_ind; intros key; [done|].
  rewrite foldl_app. cbn [foldl fst snd].
  set (st' := foldl _ _ calls) in *.
  unfold drawnAt. rewrite filter_app, length_app.
  fold (drawnAt positionText key calls).
  unfold OtherObjectRenderer.render. cbv zeta. cbn [fst snd fields].
  pose proof (IH (positionText object.(fields) m)) as IHo.
  destruct (decide (positionText (fields object) m = key)) as [E|E].
  - rewrite filter_cons_True by exact E. cbn [filter length].
    rewrite E in *. rewrite IHo. rewrite filter_nil. cbn [length].
    destruct (drawnAt positionText key calls) as [|k];
      cbn [fst OtherObjectRenderer.drawedPositions Nat.add];
      rewrite lookup_insert_eq; [f_equal; lia|].
    replace (k + 1)%nat with (S k) by lia. f_equal. lia.
  - rewrite filter_cons_False by exact E. rewrite filter_nil. cbn [length].
    rewrite Nat.add_0_r, <- IH.
    destruct (OtherObjectRenderer.drawedPositions st' !! _);
      cbn [fst OtherObjectRenderer.drawedPositions]; by rewrite lookup_insert_ne.
Qed.

(** X18.  Within a frame (after [updateFrame]), [OtherObjectRenderer.render]
    numbers the objects drawn at one position in the order of the calls: if
    [k] objects were rendered before whose bounds give the same position
    text as the object's, the object gets the render order [k + 1], which
    [getRenderOrder] then returns, and its label is moved by [20 * k]. *)
Theorem render_order_counts calls object m st :
  (OtherObjectRenderer.render positionText object m
     (OtherObjectRenderer.frame positionText calls st)).2
  = (Z.of_nat (drawnAt positionText (positionText (fields object) m) calls) * 20)%Z
  ∧ OtherObjectRenderer.getRenderOrder
      (OtherObjectRenderer.render positionText object m
         (OtherObjectRenderer.frame positionText calls st)).1
      (self object)
    = Some (Z.of_nat (drawnAt positionText (positionText (fields object) m) calls) + 1)%Z.
Proof.
  unfold OtherObjectRenderer.render, OtherObjectRenderer.getRenderOrder. cbv zeta.
  rewrite frame_drawn.
  destruct (drawnAt positionText (positionText (fields object) m) calls) as [|k];
    cbn [fst snd OtherObjectRenderer.renderOrders];
    rewrite lookup_insert_eq, lookup_insert_eq; cbn [default];
    (split; [lia|f_equal; lia]).
Qed.

End OtherObjects.

End Renderers.

(** ** Inspector: a colour survives the inspector *)

Section InspectorColour.

Lemma digits16_of_pos p : ∀ rest acc seen,
  Inspector.digits16 (HexString.Raw.of_pos p rest) acc seen
  = Inspector.digits16 rest
      (match acc with
       | N0 => Npos p
       | Npos v => Npos (HexString.pos_hex_app v p)
       end) true.
Proof.
  remember (Pos.to_nat p) as n eqn:En. revert p En.
  induction n as [n IH] using lt_wf_ind. intros p -> rest acc seen.
  do 4 try destruct p as [p|p|]; destruct acc; try reflexivity;
    cbn; (rewrite (IH (Pos.to_nat p)); [reflexivity|lia|reflexivity]).
Qed.

Lemma allHex_of_pos p : ∀ rest,
  allHex rest = true → allHex (HexString.Raw.of_pos p rest) = true.
Proof.
  remember (Pos.to_nat p) as n eqn:En. revert p En.
  induction n as [n IH] using lt_wf_ind. intros p -> rest Hrest.
  do 4 try destruct p as [p|p|]; try exact Hrest;
    cbn; (apply (IH (Pos.to_nat p)); [lia|reflexivity|exact Hrest]).
Qed.

Lemma of_pos_nonempty p rest : HexString.Raw.of_pos p rest ≠ EmptyString.
Proof.
  intros E.
  assert (Inspector.digits16 (HexString.Raw.of_pos p rest) 0 false
          = Inspector.digits16 EmptyString 0 false) as Hd by (by rewrite E).
  rewrite digits16_of_pos in Hd. simpl in Hd.
  assert (∀ s acc, Inspector.digits16 s acc true ≠ None) as Hne.
  { induction s as [|c s IHs]; intros acc; simpl; [done|].
    destruct (HexString.ascii_to_digit c); [apply IHs|done]. }
  by apply Hne in Hd.
Qed.

Lemma toString16_hex n :
  allHex (Inspector.toString16 n) = true
  ∧ Inspector.toString16 n ≠ EmptyString
  ∧ Inspector.digits16 (Inspector.toString16 n) 0 false = Some n.
Proof.
  destruct n as [|p]; simpl; [done|].
  split; [by apply allHex_of_pos|]. split; [apply of_pos_nonempty|].
  by rewrite digits16_of_pos.
Qed.

Lemma padded_hex k s :
  allHex s = true → s ≠ EmptyString →
  allHex (Nat.iter k (String "0"%char) s) = true
  ∧ Nat.iter k (String "0"%char) s ≠ EmptyString
  ∧ Inspector.digits16 (Nat.iter k (String "0"%char) s) 0 false
    = Inspector.digits16 s 0 true.
Proof.
  intros Hs Hne. induction k as [|k (IH1 & IH2 & IH3)]; simpl.
  - split; [done|]. split; [done|].
    destruct s as [|c s]; [done|]. simpl in *.
    by destruct (HexString.ascii_to_digit c).
  - split; [done|]. split; [done|].
    destruct (Nat.iter k (String "0"%char) s) as [|c s'] eqn:E; [done|].
    simpl in *. by destruct (HexString.ascii_to_digit c).
Qed.

Lemma digits16_seen s acc :
  s ≠ EmptyString → allHex s = true →
  Inspector.digits16 s acc true = Inspector.digits16 s acc false.
Proof.
  destruct s as [|c s]; [done|]. simpl.
  by destruct (HexString.ascii_to_digit c).
Qed.

(** A text of digits is read from its first character on. *)
Lemma parseInt16_hex s v :
  s ≠ EmptyString → allHex s = true →
  Inspector.digits16 s 0 false = Some v →
  Inspector.parseInt16 s = Some (Z.of_N v).
Proof.
  intros Hne Hs Hd. destruct s as [|c s]; [done|].
  simpl in Hs. destruct (HexString.ascii_to_digit c) as [d|] eqn:Ec; [|done].
  assert (Inspector.isWhiteSpace c = false ∧ c ≠ "-"%char ∧ c ≠ "+"%char) as (Hw & Hm & Hp).
  { destruct c as [[] [] [] [] [] [] [] []]; try discriminate Ec; done. }
  unfold Inspector.parseInt16. simpl. rewrite Hw.
  assert (match c with
          | "-"%char => ((-1)%Z, s)
          | "+"%char => (1%Z, s)
          | _ => (1%Z, String c s)
          end = (1%Z, String c s)) as ->.
  { destruct c as [[] [] [] [] [] [] [] []]; done. }
  assert (match String c s with
          | String "0"%char (String "x"%char s') => s'
          | String "0"%char (String "X"%char s') => s'
          | _ => String c s
          end = String c s) as ->.
  { destruct s as [|c2 s]; [by destruct c as [[] [] [] [] [] [] [] []]|].
    simpl in Hs. destruct (HexString.ascii_to_digit c2) as [d2|] eqn:Ec2; [|done].
    destruct c as [[] [] [] [] [] [] [] []]; try done.
    destruct c2 as [[] [] [] [] [] [] [] []]; try discriminate Ec2; done. }
  rewrite Hd. simpl. f_equal. lia.
Qed.

(** X20.  A colour given as a non-negative integer survives the inspector:
    the text shown for it ([#] and at least six hexadecimal digits), handed
    back unchanged to the change handler, is read as the same number. *)
Theorem colour_round_trip n :
  Inspector.colorValue (Inspector.colorText n) = Some (Z.of_N n).
Proof.
  unfold Inspector.colorValue, Inspector.colorText, Inspector.padStart0.
  change (Inspector.substr1 ("#" +:+ ?s)) with s.
  destruct (toString16_hex n) as (Hh & Hne & Hd).
  destruct (padded_hex (6 - String.length (Inspector.toString16 n)) _ Hh Hne)
    as (Ph & Pne & Pd).
  apply parseInt16_hex; [done..|].
  by rewrite Pd, digits16_seen.
Qed.

End InspectorColour.

(** ** The editor store *)

Section EditorMore.

Lemma indexOf_bounds x l : (-1 <= Editor.indexOf x l < Z.of_nat (length l))%Z.
Proof.
  unfold Editor.indexOf. destruct (list_find _ l) as [[i y]|] eqn:E; [|lia].
  apply list_find_Some in E as (Hi & _). apply lookup_lt_Some in Hi. lia.
Qed.

Lemma indexOf_found x l : x ∈ l → (0 <= Editor.indexOf x l)%Z.
Proof.
  intros Hx. unfold Editor.indexOf. destruct (list_find _ l) as [[i y]|] eqn:E; [lia|].
  apply list_find_None in E. rewrite Forall_forall in E. by destruct (E x Hx).
Qed.

Lemma indexOf_elem x l d :
  x ∈ l → l !! Z.to_nat (Editor.indexOf x l) = Some d → d = x.
Proof.
  intros Hx. unfold Editor.indexOf. destruct (list_find _ l) as [[i y]|] eqn:E.
  - apply list_find_Some in E as (Hi & -> & _). rewrite Nat2Z.id. congruence.
  - apply list_find_None in E. rewrite Forall_forall in E. by destruct (E x Hx).
Qed.

(** X21.  [changeMeasureDivision] never leaves the list of divisions: for a
    list that is not empty the new division is an element of it, whatever
    the step and whether or not the current division is in the list.  A step
    of 0 from a division of the list keeps it, a step of at least the length
    of the list ends on the last division, and a step of at most minus the
    length on the first. *)
Theorem changeMeasureDivision_in_range divs measureDivision index :
  divs ≠ [] →
  ∃ d, Editor.changeMeasureDivision divs measureDivision index = Some d
       ∧ d ∈ divs
       ∧ (index = 0%Z → measureDivision ∈ divs → d = measureDivision)
       ∧ ((Z.of_nat (length divs) <= index)%Z → last divs = Some d)
       ∧ ((index <= - Z.of_nat (length divs))%Z → head divs = Some d).
Proof.
  intros Hne. unfold Editor.changeMeasureDivision. cbv zeta.
  pose proof (indexOf_bounds measureDivision divs) as Hb.
  assert (0 < length divs)%nat as Hlen by (destruct divs; [done|simpl; lia]).
  set (i := Z.max 0 (Z.min (Z.of_nat (length divs) - 1)
                            (index + Editor.indexOf measureDivision divs))).
  assert (0 <= i < Z.of_nat (length divs))%Z as Hi by (unfold i; lia).
  unfold nthZ. destruct (Z.ltb_spec i 0) as [|_]; [lia|].
  destruct (divs !! Z.to_nat i) as [d|] eqn:Ed;
    [|apply lookup_ge_None in Ed; lia].
  exists d. split; [done|]. split; [by eapply list_elem_of_lookup_2|].
  split; [|split].
  - intros -> Hin. apply (indexOf_elem _ divs); [done|].
    pose proof (indexOf_found _ _ Hin).
    replace (Editor.indexOf measureDivision divs) with i; [done|]. unfold i. lia.
  - intros Hbig. rewrite last_lookup.
    replace (Nat.pred (length divs)) with (Z.to_nat i); [done|]. unfold i. lia.
  - intros Hsmall. rewrite head_lookup.
    replace 0%nat with (Z.to_nat i); [done|]. unfold i. lia.
Qed.

(** X22.  After [removeChart] the current chart is the first of the charts
    that are left and the current index is 0; the current chart is [null]
    exactly when no chart is left, and never [undefined].  [setCurrentChart]
    alone leaves it [undefined] exactly when there are charts and the index
    is none of theirs. *)
Theorem removeChart_current chartIndex e :
  Editor.charts (Editor.removeChart chartIndex e) = Editor.removeAt chartIndex (Editor.charts e)
  ∧ Editor.currentChartIndex (Editor.removeChart chartIndex e) = 0%Z
  ∧ Editor.currentChart (Editor.removeChart chartIndex e)
    = match Editor.removeAt chartIndex (Editor.charts e) with
      | [] => Editor.CurrentNull
      | c :: _ => Editor.CurrentChart c
      end
  ∧ (Editor.currentChart (Editor.setCurrentChart chartIndex e) = Editor.CurrentUndefined
     ↔ Editor.charts e ≠ []
       ∧ ¬ (0 <= chartIndex < Z.of_nat (length (Editor.charts e)))%Z).
Proof.
  unfold Editor.removeChart, Editor.setCurrentChart. simpl.
  destruct (Editor.removeAt chartIndex (Editor.charts e)) as [|c cs] eqn:E; simpl.
  - split; [done|]. split; [done|]. split; [done|].
    destruct (Editor.charts e) as [|c0 cs0] eqn:E0; simpl.
    + split; [done|]. by intros [? _].
    + unfold nthZ. destruct (Z.ltb_spec chartIndex 0) as [Hneg|Hpos]; simpl.
      * split; [|done]. intros _. split; [done|]. lia.
      * destruct ((c0 :: cs0) !! Z.to_nat chartIndex) as [c|] eqn:Ec; simpl.
        -- split; [done|]. intros [_ Hout]. apply lookup_lt_Some in Ec. simpl in *. lia.
        -- split; [|done]. intros _. split; [done|].
           apply lookup_ge_None in Ec. simpl in *. lia.
  - split; [done|]. split; [done|]. split; [done|].
    destruct (Editor.charts e) as [|c0 cs0] eqn:E0; simpl.
    + split; [done|]. by intros [? _].
    + unfold nthZ. destruct (Z.ltb_spec chartIndex 0) as [Hneg|Hpos]; simpl.
      * split; [|done]. intros _. split; [done|]. lia.
      * destruct ((c0 :: cs0) !! Z.to_nat chartIndex) as [c'|] eqn:Ec; simpl.
        -- split; [done|]. intros [_ Hout]. apply lookup_lt_Some in Ec. simpl in *. lia.
        -- split; [|done]. intros _. split; [done|].
           apply lookup_ge_None in Ec. simpl in *. lia.
Qed.

(** *** moveLane *)

Lemma moveNote_cases indexer lanes typeMap note note' :
  Editor.moveNote indexer lanes typeMap note = Some note' →
  note' = note
  ∨ ∃ lane, lane ∈ lanes
            ∧ nthZ lanes (indexer (Editor.findLane (Note.lane note) lanes)) = Some lane
            ∧ (Lane.templateName lane ∉ excluded typeMap (Note.type note))
            ∧ note' = Note.setLane (Lane.guid lane) note.
Proof.
  unfold Editor.moveNote, excluded.
  destruct (nthZ lanes _) as [lane|] eqn:El; [|intros [= <-]; by left].
  destruct (typeMap !! Note.type note) as [ex|]; simpl; [|done].
  case_bool_decide as Hin; intros [= <-]; [by left|].
  right. exists lane. split; [|done].
  unfold nthZ in El. destruct (_ <? 0)%Z; [done|]. by eapply list_elem_of_lookup_2.
Qed.

(** X23.  [moveLane] moves a note only to a lane of the timeline and never to
    a lane its type excludes: when it returns, every inspected note is as it
    was, or differs only in its lane, which is then the guid of a lane of the
    timeline whose template is not among the type's [excludeLanes]. *)
Theorem moveLane_safe indexer lanes typeMap notes notes' :
  Editor.moveLane indexer lanes typeMap notes = Some notes' →
  Forall2 (λ note note',
             note' = note
             ∨ ∃ lane, lane ∈ lanes
                       ∧ (Lane.templateName lane ∉ excluded typeMap (Note.type note))
                       ∧ note' = Note.setLane (Lane.guid lane) note)
          notes notes'.
Proof.
  intros Hm%mapM_Some. eapply Forall2_impl; [exact Hm|].
  intros note note' [->|(lane & Hl & _ & Hex & ->)]%moveNote_cases; [by left|].
  right. eauto.
Qed.

Lemma findLane_nth lanes j lane :
  NoDup (map Lane.guid lanes) → lanes !! j = Some lane →
  Editor.findLane (Lane.guid lane) lanes = Z.of_nat j.
Proof.
  intros Hnd Hj. unfold Editor.findLane.
  destruct (list_find _ lanes) as [[i y]|] eqn:E.
  - apply list_find_Some in E as (Hi & Hg & _). f_equal.
    change (map Lane.guid lanes) with (Lane.guid <$> lanes) in Hnd.
    eapply NoDup_lookup; [exact Hnd|..].
    + rewrite list_lookup_fmap, Hi. simpl. by rewrite Hg.
    + by rewrite list_lookup_fmap, Hj.
  - apply list_find_None in E. rewrite Forall_forall in E.
    destruct (E lane); [by eapply list_elem_of_lookup_2|done].
Qed.

Lemma setLane_back note g : Note.setLane (Note.lane note) (Note.setLane g note) = note.
Proof. by destruct note. Qed.

Lemma moveNote_on indexer lanes typeMap note (i : Z) T ex :
  Editor.findLane (Note.lane note) lanes = i →
  nthZ lanes (indexer i) = Some T →
  typeMap !! Note.type note = Some ex →
  Editor.moveNote indexer lanes typeMap note
  = Some (if bool_decide (Lane.templateName T ∈ default [] ex) then note
          else Note.setLane (Lane.guid T) note).
Proof.
  intros Hi HT Hex. unfold Editor.moveNote. rewrite Hi, HT, Hex. simpl.
  by case_bool_decide.
Qed.

Lemma moveNote_flip_twice lanes typeMap note :
  NoDup (map Lane.guid lanes) →
  is_Some (typeMap !! Note.type note) →
  (∀ lane, lane ∈ lanes → Lane.guid lane = Note.lane note →
           Lane.templateName lane ∉ excluded typeMap (Note.type note)) →
  ∃ note1, Editor.moveNote (Editor.flip lanes) lanes typeMap note = Some note1
           ∧ Editor.moveNote (Editor.flip lanes) lanes typeMap note1 = Some note.
Proof.
  intros Hnd [ex Hex] Hfree.
  destruct (list_find (λ l, Lane.guid l = Note.lane note) lanes) as [[i L]|] eqn:E.
  - pose proof E as (Hi & Hg & _)%list_find_Some.
    pose proof (lookup_lt_Some _ _ _ Hi) as Hlt.
    assert (Editor.findLane (Note.lane note) lanes = Z.of_nat i) as Hfi
      by (unfold Editor.findLane; by rewrite E).
    assert (Editor.flip lanes (Z.of_nat i) = Z.of_nat (length lanes - i - 1)) as Hflip
      by (unfold Editor.flip; lia).
    destruct (lanes !! (length lanes - i - 1)) as [T|] eqn:ET;
      [|apply lookup_ge_None in ET; lia].
    assert (nthZ lanes (Editor.flip lanes (Z.of_nat i)) = Some T) as HT
      by (by rewrite Hflip, nthZ_nat).
    rewrite (moveNote_on _ _ _ _ _ T ex Hfi HT Hex).
    case_bool_decide as Hin.
    + exists note. split; [done|].
      rewrite (moveNote_on _ _ _ _ _ T ex Hfi HT Hex).
      by rewrite bool_decide_eq_true_2.
    + eexists. split; [reflexivity|].
      assert (Editor.findLane (Note.lane (Note.setLane (Lane.guid T) note)) lanes
              = Z.of_nat (length lanes - i - 1)) as Hfj
        by (by apply findLane_nth).
      assert (nthZ lanes (Editor.flip lanes (Z.of_nat (length lanes - i - 1))) = Some L)
        as HL.
      { replace (Editor.flip lanes (Z.of_nat (length lanes - i - 1))) with (Z.of_nat i)
          by (unfold Editor.flip; lia).
        by rewrite nthZ_nat. }
      rewrite (moveNote_on _ _ _ _ _ L ex Hfj HL Hex).
      rewrite bool_decide_eq_false_2.
      * by rewrite Hg, setLane_back.
      * pose proof (Hfree L ltac:(by eapply list_elem_of_lookup_2) Hg) as Hnot.
        unfold excluded in Hnot. by rewrite Hex in Hnot.
  - assert (Editor.findLane (Note.lane note) lanes = (-1)%Z) as Hfi
      by (unfold Editor.findLane; by rewrite E).
    assert (nthZ lanes (Editor.flip lanes (-1)) = None) as Hout.
    { unfold nthZ, Editor.flip. destruct (_ <? 0)%Z; [done|].
      apply lookup_ge_None. lia. }
    exists note. unfold Editor.moveNote. by rewrite Hfi, Hout.
Qed.

(** X24.  Flipping the lanes twice brings every inspected note back: when
    the lanes have distinct guids, the type of every inspected note is known
    and no note sits on a lane its type excludes, [moveLane] with the
    [flipLane] indexer returns, and a second call on its result returns the
    notes as they were. *)
Theorem flipLane_twice lanes typeMap notes :
  NoDup (map Lane.guid lanes) →
  Forall (λ note,
            is_Some (typeMap !! Note.type note)
            ∧ ∀ lane, lane ∈ lanes → Lane.guid lane = Note.lane note →
                      Lane.templateName lane ∉ excluded typeMap (Note.type note))
         notes →
  ∃ notes1, Editor.moveLane (Editor.flip lanes) lanes typeMap notes = Some notes1
            ∧ Editor.moveLane (Editor.flip lanes) lanes typeMap notes1 = Some notes.
Proof.
  intros Hnd. unfold Editor.moveLane.
  induction 1 as [|note notes [Hty Hfree] Hall (notes1 & E1 & E2)].
  - by exists [].
  - destruct (moveNote_flip_twice lanes typeMap note Hnd Hty Hfree) as (note1 & F1 & F2).
    exists (note1 :: notes1). simpl. rewrite F1, E1. simpl. rewrite F2, E2. done.
Qed.

End EditorMore.

(** ** AudioSelect and ChartInformation *)

Section Strings.

Lemma append_cons c s t : String c s +:+ t = String c (s +:+ t).
Proof. reflexivity. Qed.

Lemma append_nil_l s : EmptyString +:+ s = s.
Proof. reflexivity. Qed.

Lemma append_nil_r s : s +:+ EmptyString = s.
Proof. induction s as [|c s IH]; [done|]. by rewrite append_cons, IH. Qed.

Lemma append_assoc s1 s2 s3 : (s1 +:+ s2) +:+ s3 = s1 +:+ (s2 +:+ s3).
Proof. induction s1 as [|c s1 IH]; [done|]. by rewrite !append_cons, IH. Qed.

Lemma noSeparator_app s1 s2 :
  noSeparator (s1 +:+ s2) = noSeparator s1 && noSeparator s2.
Proof.
  induction s1 as [|c s1 IH]; [done|].
  rewrite append_cons. simpl. rewrite IH. by rewrite andb_assoc.
Qed.

Lemma split_last path : ∀ cur,
  noSeparator cur = true →
  ∃ name, last (AudioSelect.split cur path) = Some name
          ∧ noSeparator name = true
          ∧ (name = cur +:+ path
             ∨ ∃ prefix sep, AudioSelect.isSeparator sep = true
                             ∧ cur +:+ path = prefix +:+ String sep name).
Proof.
  induction path as [|c rest IH]; intros cur Hcur; simpl.
  - exists cur. split; [done|]. split; [done|]. left. by rewrite append_nil_r.
  - destruct (AudioSelect.isSeparator c) eqn:Ec.
    + destruct (IH EmptyString eq_refl) as (name & Hl & Hn & Hcase).
      exists name. split.
      { rewrite last_cons, Hl. done. }
      split; [done|]. right. rewrite append_nil_l in Hcase.
      destruct Hcase as [->|(prefix & sep & Hsep & ->)].
      * exists cur, c. done.
      * exists (cur +:+ String c prefix), sep. split; [done|].
        by rewrite append_assoc, append_cons.
    + destruct (IH (cur +:+ String c EmptyString)) as (name & Hl & Hn & Hcase).
      { rewrite noSeparator_app, Hcur. simpl. by rewrite Ec. }
      exists name. split; [done|]. split; [done|].
      rewrite append_assoc, append_cons, append_nil_l in Hcase. done.
Qed.

(** X25.  The name [AudioSelect] hands on for a picked file contains neither
    [/] nor [\\]; it is the whole path when the path contains none, and
    otherwise what follows the last of them. *)
Theorem pickedName_is_last_component path :
  noSeparator (AudioSelect.pickedName path) = true
  ∧ (AudioSelect.pickedName path = path
     ∨ ∃ prefix sep, AudioSelect.isSeparator sep = true
                     ∧ path = prefix +:+ String sep (AudioSelect.pickedName path)).
Proof.
  unfold AudioSelect.pickedName.
  destruct (split_last path EmptyString eq_refl) as (name & -> & Hn & Hcase).
  rewrite append_nil_l in Hcase. done.
Qed.

End Strings.

Section GroupBy.
Context {A : Type} (key : A → string).

Lemma groupBy_snoc l x :
  ChartInformation.groupBy key (l ++ [x])
  = ChartInformation.addTo (key x) x (ChartInformation.groupBy key l).
Proof. unfold ChartInformation.groupBy. by rewrite foldl_app. Qed.

Lemma addTo_sum k (x : A) gs :
  sum_list (map (λ g, length g.2) (ChartInformation.addTo k x gs))
  = S (sum_list (map (λ g : string * list A, length g.2) gs)).
Proof.
  induction gs as [|[k' xs] gs IH]; simpl; [done|].
  case_bool_decide; simpl.
  - rewrite length_app. simpl. lia.
  - rewrite IH. lia.
Qed.

Lemma addTo_keys k (x : A) gs :
  map fst (ChartInformation.addTo k x gs)
  = if decide (k ∈ map fst gs) then map fst gs else map fst gs ++ [k].
Proof.
  induction gs as [|[k' xs] gs IH]; simpl.
  - destruct (decide (k ∈ [])) as [Hin|_]; [by apply elem_of_nil in Hin|done].
  - case_bool_decide as Hk; simpl.
    + subst. destruct (decide (k' ∈ k' :: map fst gs)) as [_|Hout]; [done|].
      destruct Hout. left.
    + rewrite IH. destruct (decide (k ∈ map fst gs)) as [Hin|Hout];
        destruct (decide (k ∈ k' :: map fst gs)) as [Hin'|Hout']; try done.
      * destruct Hout'. by right.
      * apply elem_of_cons in Hin' as [?|?]; done.
Qed.

Lemma addTo_elem k (x : A) gs k' g' :
  (k', g') ∈ ChartInformation.addTo k x gs →
  (k' ≠ k ∧ (k', g') ∈ gs)
  ∨ (k' = k ∧ ((∃ g, (k, g) ∈ gs ∧ g' = g ++ [x]) ∨ ((k ∉ map fst gs) ∧ g' = [x])))
  ∨ (k' = k ∧ (k', g') ∈ gs ∧ ¬ NoDup (map fst gs)).
Proof.
  induction gs as [|[k0 xs] gs IH]; simpl.
  - intros [= -> ->]%list_elem_of_singleton. right. left. split; [done|]. right.
    split; [|done]. by intros ?%elem_of_nil.
  - case_bool_decide as Hk.
    + subst k0. intros [[= -> ->]|Hin]%elem_of_cons.
      * right. left. split; [done|]. left. exists xs. split; [left|done].
      * destruct (decide (k' = k)) as [->|Hne].
        -- right. right. split; [done|]. split; [by right|].
           intros Hnd. apply NoDup_cons in Hnd as [Hout _]. apply Hout.
           apply list_elem_of_In, in_map_iff. exists (k, g'). split; [done|].
           by apply list_elem_of_In.
        -- left. split; [done|]. by right.
    + intros [[= -> ->]|Hin]%elem_of_cons.
      * left. split; [done|]. left.
      * destruct (IH Hin) as [[Hne Hg]|[[-> Hcase]|(-> & Hg & Hnd)]].
        -- left. split; [done|]. by right.
        -- right. left. split; [done|].
           destruct Hcase as [(g & Hg & ->)|[Hout ->]].
           ++ left. exists g. split; [by right|done].
           ++ right. split; [|done]. intros [?|?]%elem_of_cons; done.
        -- right. right. split; [done|]. split; [by right|].
           intros Hnd'. apply NoDup_cons in Hnd' as [_ Hnd']. done.
Qed.

(** The groups of [groupBy]: distinct keys, each group the elements of its
    key in their order, no key missing. *)
Lemma groupBy_groups l :
  NoDup (map fst (ChartInformation.groupBy key l))
  ∧ (∀ k g, (k, g) ∈ ChartInformation.groupBy key l →
            g ≠ [] ∧ g = filter (λ x, key x = k) l)
  ∧ (∀ x, x ∈ l → key x ∈ map fst (ChartInformation.groupBy key l)).
Proof.
  induction l as [|x l (Hnd & Hg & Hk)] using rev_ind.
  - split; [constructor|]. split; [by intros k g ?%elem_of_nil|by intros x ?%elem_of_nil].
  - rewrite groupBy_snoc. split; [|split].
    + rewrite addTo_keys. destruct (decide _) as [Hin|Hout]; [done|].
      apply NoDup_app. split; [done|]. split; [|apply NoDup_singleton].
      intros k Hk1 Hk2. apply list_elem_of_singleton in Hk2 as ->. done.
    + intros k g Hin. rewrite filter_app.
      apply addTo_elem in Hin as [[Hne Hin]|[[-> Hcase]|(_ & _ & Hbad)]]; [..|done].
      * destruct (Hg k g Hin) as [Hn ->]. split; [done|].
        rewrite (filter_cons_False _ x) by (by intros ?). by rewrite app_nil_r.
      * rewrite filter_cons_True by done. simpl.
        destruct Hcase as [(g0 & Hg0 & ->)|[Hout ->]].
        -- destruct (Hg _ _ Hg0) as [_ <-]. split; [|done]. by destruct g0.
        -- split; [done|].
           assert (filter (λ x0, key x0 = key x) l = []) as ->; [|done].
           apply filter_nil_iff. intros y Hy Hky.
           apply Hout. rewrite <- Hky. by apply Hk.
    + intros y Hy. rewrite addTo_keys.
      apply elem_of_app in Hy as [Hy|Hy].
      * destruct (decide _); [by apply Hk|]. apply elem_of_app. left. by apply Hk.
      * apply list_elem_of_singleton in Hy as ->.
        destruct (decide _) as [Hin|Hout]; [done|]. apply elem_of_app. right. left.
Qed.

Lemma groupBy_sum l :
  sum_list (map (λ g, length g.2) (ChartInformation.groupBy key l)) = length l.
Proof.
  induction l as [|x l IH] using rev_ind; [done|].
  rewrite groupBy_snoc, addTo_sum, IH, length_app. simpl. lia.
Qed.

End GroupBy.

Lemma insertBy_Permutation {A} (le : A → A → bool) x l : insertBy le x l ≡ₚ x :: l.
Proof.
  induction l as [|y l IH]; simpl; [done|].
  destruct (le x y); [done|]. rewrite IH. apply Permutation_swap.
Qed.

Lemma sortBy_Permutation {A} (le : A → A → bool) l : sortBy le l ≡ₚ l.
Proof.
  induction l as [|x l IH]; simpl; [done|].
  change (foldr (insertBy le) [] l) with (sortBy le l).
  by rewrite insertBy_Permutation, IH.
Qed.

(** [Object.entries] lists every property once. *)
Lemma ownEntries_Permutation {A} (props : list (string * A)) :
  ChartInformation.ownEntries props ≡ₚ props.
Proof.
  unfold ChartInformation.ownEntries. rewrite sortBy_Permutation.
  apply filter_app_complement.
Qed.

(** X26.  The table of [ChartInformation] adds up: the counts shown for the
    note types sum to the total shown, there is one count per type name and
    no type name twice, and the count of a type is the number of notes of the
    timeline that have this type (at least one). *)
Theorem chartInformation_counts notes :
  sum_list (ChartInformation.countRow notes).2 = (ChartInformation.countRow notes).1
  ∧ NoDup (ChartInformation.headerRow notes)
  ∧ Forall2 (λ k n, n = length (filter (λ x, Note.type x = k) notes) ∧ 0 < n)
            (ChartInformation.headerRow notes) (ChartInformation.countRow notes).2.
Proof.
  unfold ChartInformation.countRow, ChartInformation.headerRow. simpl.
  destruct (groupBy_groups Note.type notes) as (Hnd & Hg & _).
  pose proof (ownEntries_Permutation (ChartInformation.groupBy Note.type notes)) as HP.
  split; [|split].
  - rewrite <- (groupBy_sum Note.type notes).
    change (sum_list (map ?f ?l)) with (sum_list (f <$> l)).
    by rewrite HP.
  - change (map fst ?l) with (fst <$> l). rewrite HP. exact Hnd.
  - apply Forall2_fmap, Forall_Forall2_diag, Forall_forall.
    intros [k g] Hin. rewrite HP in Hin. simpl. destruct (Hg k g Hin) as [Hne <-].
    split; [done|]. destruct g; [done|simpl; lia].
Qed.

(** ** Notes: removing, adding and pruning *)

Lemma foldl_filter_sublist {A} (P : A → A → Prop) `{∀ x y, Decision (P x y)}
    (ts : list A) : ∀ ls,
  foldl (λ ls t, filter (P t) ls) ls ts `sublist_of` ls.
Proof.
  induction ts as [|t ts IH]; intros ls; simpl; [done|].
  etransitivity; [apply IH|]. apply sublist_filter.
Qed.

Lemma filter_snoc_out {A} `{EqDecision A} (l : list A) (x : A) :
  x ∉ l → filter (λ r, r ≠ x) (l ++ [x]) = l.
Proof.
  intros Hx. rewrite filter_app.
  rewrite (filter_cons_False _ x) by (by intros ?). rewrite filter_nil, app_nil_r.
  induction l as [|y l IH]; [done|].
  apply not_elem_of_cons in Hx as [Hne Hx].
  rewrite filter_cons_True by done. by rewrite IH.
Qed.

Section NotesMore.
Context `{Collaborators}.

(** [removeNote(note, false)], field by field. *)
Lemma removeNote_false_spec note w :
  notes (live (removeNote note false w)) = filter (λ r, r ≠ note) (notes (live w))
  ∧ noteLines (live (removeNote note false w)) `sublist_of` noteLines (live w)
  ∧ (∀ lr, lr ∈ noteLines (live (removeNote note false w))
           ↔ lr ∈ noteLines (live w)
             ∧ endsAt (Note.guid (getNote w note)) (getLine w lr) = false)
  ∧ (∀ lr, getLine (removeNote note false w) lr
           = if decide (lr ∈ noteLines (live (removeNote note false w)))
             then stripInner (Note.guid (getNote w note)) (getLine w lr)
             else getLine w lr)
  ∧ noteObjs (store (removeNote note false w)) = noteObjs (store w)
  ∧ noteMap (live (removeNote note false w)) = noteMap (live w)
  ∧ sameRest w (removeNote note false w)
  ∧ noteLines (live (removeNote note false w))
    = foldl (λ ls lr, filter (λ r, r ≠ lr) ls) (noteLines (live w))
            (filter (λ lr, endsAt (Note.guid (getNote w note)) (getLine w lr))
                    (noteLines (live w)))
  ∧ laneObjs (store (removeNote note false w)) = laneObjs (store w).
Proof.
  pose proof (removeNote_false_rest note w) as Hrest.
  remember (removeNote note false w) as w' eqn:E.
  set (g := Note.guid (getNote w note)) in *.
  unfold removeNote in E. fold g in E.
  set (w0 := match previouslyCreatedNote (live w) with
             | Some p => if bool_decide (g = Note.guid (getNote w p))
                         then updLive (setPreviouslyCreatedNote None) w else w
             | None => w end) in E.
  assert (store w0 = store w ∧ notes (live w0) = notes (live w)
          ∧ noteLines (live w0) = noteLines (live w)
          ∧ noteMap (live w0) = noteMap (live w)) as (Es & En & El & Em).
  { unfold w0. destruct (previouslyCreatedNote (live w)) as [p|]; [|done].
    by case_bool_decide. }
  assert (∀ lr, getLine w0 lr = getLine w lr) as Eg
    by (intros lr; unfold getLine; by rewrite Es).
  cbv zeta in E. rewrite foldl_removeNoteLine, foldl_putLine in E. simpl in E.
  set (kept := foldl (λ ls lr, filter (λ r, r ≠ lr) ls) (noteLines (live w0))
                 (filter (λ lr, endsAt g (getLine w0 lr)) (noteLines (live w0)))) in E.
  assert (∀ lr, lr ∈ kept ↔ lr ∈ noteLines (live w) ∧ endsAt g (getLine w lr) = false)
    as Hkept.
  { intros lr. unfold kept. rewrite elem_of_foldl_filter, list_elem_of_filter, El, Eg.
    destruct (endsAt g (getLine w lr)); split; intros [? ?]; split; try done.
    - exfalso. eauto.
    - intros [? ?]. done. }
  assert (∀ lr, mapCells (stripInner g) (lineObjs (store w0)) kept !!! lr
                = if decide (lr ∈ kept) then stripInner g (getLine w lr) else getLine w lr)
    as Hcell.
  { intros lr. destruct (decide (lr ∈ kept)) as [Hin|Hout].
    - rewrite mapCells_idem by (done || apply stripInner_idem).
      fold (getLine w0 lr). by rewrite Eg.
    - rewrite mapCells_notin_total by done. fold (getLine w0 lr). by rewrite Eg. }
  assert (notes (live w') = filter (λ r, r ≠ note) (notes (live w))
          ∧ noteLines (live w') = kept
          ∧ lineObjs (store w') = mapCells (stripInner g) (lineObjs (store w0)) kept
          ∧ noteObjs (store w') = noteObjs (store w)
          ∧ noteMap (live w') = noteMap (live w)
          ∧ laneObjs (store w') = laneObjs (store w)) as (F1 & F2 & F3 & F4 & F5 & F6).
  { rewrite E. simpl. by rewrite En, Es, Em. }
  split; [done|]. split.
  { rewrite F2, <- El. apply (foldl_filter_sublist (λ t r, r ≠ t)). }
  split; [by rewrite F2|]. split.
  { intros lr. unfold getLine at 1. rewrite F3, F2. apply Hcell. }
  split; [done|]. split; [done|]. split; [done|]. split; [|done].
  rewrite F2. unfold kept. rewrite El. f_equal. apply list_filter_iff.
  intros lr. by rewrite Eg.
Qed.

Lemma stripInner_out g l : g ∉ NoteLine.innerNotes l → stripInner g l = l.
Proof.
  intros Hout. unfold stripInner, NoteLine.setInnerNotes.
  assert (filter (λ x, x ≠ g) (NoteLine.innerNotes l) = NoteLine.innerNotes l) as ->.
  { induction (NoteLine.innerNotes l) as [|x xs IH]; [done|].
    apply not_elem_of_cons in Hout as [Hne Hout].
    rewrite filter_cons_True by done. by rewrite IH. }
  by destruct l.
Qed.

Lemma removesCleanly_refl w : removesCleanly w w.
Proof. by repeat split. Qed.

Lemma removesCleanly_trans w1 w2 w3 :
  removesCleanly w1 w2 → removesCleanly w2 w3 → removesCleanly w1 w3.
Proof.
  intros (A1 & A2 & A3 & A4 & A5) (B1 & B2 & B3 & B4 & B5).
  split; [by etransitivity|]. split; [by etransitivity|]. split.
  { intros r. by rewrite B3. }
  split; [eauto|].
  intros r Hr Hout. destruct (decide (r ∈ notes (live w2))) as [Hin|Hout2].
  - rewrite <- A3. by apply B5.
  - apply B4. by apply A5.
Qed.

Lemma removeNote_false_cleanly note w : removesCleanly w (removeNote note false w).
Proof.
  destruct (removeNote_false_spec note w) as (E1 & E2 & E3 & E4 & E5 & _).
  assert (∀ r, getNote (removeNote note false w) r = getNote w r) as En
    by (intros r; unfold getNote; by rewrite E5).
  split; [rewrite E1; apply sublist_filter|]. split; [done|].
  split; [intros r; by rewrite En|]. split.
  - intros g Hg. unfold unreferenced in *. rewrite Forall_forall in *.
    intros lr Hlr. rewrite E4, decide_True by done.
    apply E3 in Hlr as [Hlr _]. destruct (Hg lr Hlr) as (H1 & H2 & H3).
    split; [done|]. split; [done|]. simpl.
    intros [_ Hin]%list_elem_of_filter. done.
  - intros r Hr Hout. rewrite E1 in Hout.
    assert (r = note) as ->.
    { destruct (decide (r = note)); [done|]. destruct Hout.
      by apply list_elem_of_filter. }
    unfold unreferenced. rewrite Forall_forall. intros lr Hlr.
    rewrite E4, decide_True by done. apply E3 in Hlr as [Hlr Hends].
    unfold endsAt in Hends. apply orb_false_iff in Hends as [Hh Ht].
    apply bool_decide_eq_false in Hh. apply bool_decide_eq_false in Ht.
    split; [done|]. split; [done|]. simpl.
    intros [Hne _]%list_elem_of_filter. done.
Qed.

Lemma updateNoteMap_cleanly w : removesCleanly w (updateNoteMap w).
Proof.
  destruct (calculateTime_sameNotes
              (updLive (setNoteMap (indexBy Note.guid (noteObjs (store w)) (notes (live w)))) w))
    as (_ & Hn & Hg).
  split; [unfold updateNoteMap; by rewrite Hn|].
  split; [by rewrite updateNoteMap_noteLines|].
  split; [exact Hg|].
  assert (∀ g, unreferenced g w → unreferenced g (updateNoteMap w)) as Hu.
  { intros g Hu. unfold unreferenced in *. rewrite updateNoteMap_noteLines.
    eapply Forall_impl; [exact Hu|]. intros lr. by rewrite updateNoteMap_getLine. }
  split; [exact Hu|].
  intros r Hr Hout. destruct Hout. unfold updateNoteMap. by rewrite Hn.
Qed.

Lemma pruneLine_cleanly lr st st' :
  pruneLine lr st = Some st' → removesCleanly st.2 st'.2.
Proof.
  unfold pruneLine. cbv zeta.
  destruct (lookupNote st.2 (NoteLine.head (getLine st.2 lr))) as [h|]; simpl; [|done].
  destruct (lookupNote st.2 (NoteLine.tail (getLine st.2 lr))) as [t|]; simpl; [|done].
  apply (forM_rel (λ st st' : gset string * World, removesCleanly st.2 st'.2)).
  - intros ?. apply removesCleanly_refl.
  - intros ? ? ?. apply removesCleanly_trans.
  - intros g s s'. unfold pruneInner.
    destruct (lookupNote s.2 g) as [n|]; simpl; [|done].
    destruct (_ || _); intros [= <-]; simpl.
    + apply removeNote_false_cleanly.
    + apply removesCleanly_refl.
Qed.

(** X27.  [optimizeNote] only removes, and removes cleanly: the notes and the
    note lines it leaves are notes and note lines of before, in their order,
    and no note line that is left mentions a note it removed, neither as
    head or tail nor among its inner notes. *)
Theorem optimizeNote_removes_cleanly w w' :
  optimizeNote w = Some w' →
  notes (live w') `sublist_of` notes (live w)
  ∧ noteLines (live w') `sublist_of` noteLines (live w)
  ∧ ∀ r, r ∈ notes (live w) → r ∉ notes (live w') →
         unreferenced (Note.guid (getNote w r)) w'.
Proof.
  unfold optimizeNote.
  destruct (forM pruneLine (noteLines (live w)) (∅, w)) as [st|] eqn:E; simpl; [|done].
  intros [= <-].
  assert (removesCleanly w st.2) as H1.
  { revert E. apply (forM_rel (λ st st' : gset string * World, removesCleanly st.2 st'.2)).
    - intros ?. apply removesCleanly_refl.
    - intros ? ? ?. apply removesCleanly_trans.
    - apply pruneLine_cleanly. }
  assert (removesCleanly st.2
            (foldl (λ w r, dropLooseNote st.1 r w) st.2 (notes (live st.2)))) as H2.
  { apply (foldl_rel removesCleanly).
    - apply removesCleanly_refl.
    - apply removesCleanly_trans.
    - intros r w0. unfold dropLooseNote. destruct (_ && _).
      + apply removeNote_false_cleanly.
      + apply removesCleanly_refl. }
  pose proof (removesCleanly_trans _ _ _ (removesCleanly_trans _ _ _ H1 H2)
                (updateNoteMap_cleanly _)) as (A1 & A2 & _ & _ & A5).
  done.
Qed.

Lemma freshTimeCalculator_ext w w' :
  sameRest w w' → freshTimeCalculator w' = freshTimeCalculator w.
Proof.
  intros (_ & _ & _ & E2 & E3 & E4 & E5).
  unfold freshTimeCalculator, getOther, getMeasure. by rewrite E2, E3, E4, E5.
Qed.

(** The document after a note that no line mentions is removed. *)
Lemma toJS_removeNote_false note w :
  unreferenced (Note.guid (getNote w note)) w →
  toJS (removeNote note false w)
  = mkData (map (getNote w) (filter (λ r, r ≠ note) (notes (live w))))
           (d_noteLines (toJS w)) (d_measures (toJS w)) (d_lanes (toJS w))
           (d_lanePoints (toJS w)) (d_otherObjects (toJS w)).
Proof.
  intros Hu.
  destruct (removeNote_false_spec note w)
    as (E1 & _ & E3 & E4 & E5 & _ & (Sp & Sl & Sc) & E8 & E9).
  assert (filter (λ lr, endsAt (Note.guid (getNote w note)) (getLine w lr))
                 (noteLines (live w)) = []) as Hnone.
  { apply filter_nil_iff. unfold unreferenced in Hu. rewrite Forall_forall in Hu.
    intros lr Hlr Hends. destruct (Hu lr Hlr) as (H1 & H2 & _).
    unfold endsAt in Hends. apply Is_true_true, orb_true_iff in Hends.
    destruct Hends as [Hc|Hc]; apply bool_decide_eq_true in Hc; done. }
  rewrite Hnone in E8. cbn [foldl] in E8.
  destruct Sp as (_ & P2 & P3). destruct Sl as (_ & L2 & _).
  destruct Sc as (_ & C2 & C3 & C4 & C5).
  unfold toJS. rewrite E1, E8, P2, L2, C2, C4. f_equal.
  - apply map_ext. intros r. unfold getNote. by rewrite E5.
  - apply map_ext_in. intros lr Hlr%list_elem_of_In.
    rewrite E4, decide_True by (by rewrite E8).
    apply stripInner_out. unfold unreferenced in Hu. rewrite Forall_forall in Hu.
    by destruct (Hu lr Hlr) as (_ & _ & ?).
  - apply map_ext. intros r. unfold getMeasure. by rewrite C5.
  - apply map_ext. intros r. unfold getLane. by rewrite E9.
  - apply map_ext. intros r. unfold getPoint. by rewrite P3.
  - apply map_ext. intros r. unfold getOther. by rewrite C3.
Qed.

(** X28.  Adding a note and removing it again restores the document: for a
    note that is not yet in the timeline and that no note line mentions,
    [removeNote] after [addNote] (both with the same [updateNoteMap]) leaves
    the serialised timeline as it was; with [updateNoteMap] on, the judgment
    times are the recalculated ones. *)
Theorem removeNote_after_addNote note updateMap w :
  note ∉ notes (live w) →
  unreferenced (Note.guid (getNote w note)) w →
  toJS (removeNote note updateMap (addNote note updateMap w))
  = toJS (if updateMap then calculateTime w else w).
Proof.
  intros Hnew Hu.
  pose (A := updLive (λ l, setNotes (notes l ++ [note]) l) w).
  assert (toJS (removeNote note false A) = toJS w) as HA.
  { rewrite toJS_removeNote_false by exact Hu.
    change (notes (live A)) with (notes (live w) ++ [note]).
    rewrite filter_snoc_out by done. by destruct w as [? [] ? ?]. }
  destruct updateMap; [|exact HA].
  change (addNote note true w) with (updateNoteMap A).
  set (B := updateNoteMap A).
  change (removeNote note true B) with (updateNoteMap (removeNote note false B)).
  destruct (updateNoteMap_cleanly A) as (_ & _ & Bg & Bu & _).
  assert (notes (live B) = notes (live w) ++ [note]) as Bn.
  { unfold B, updateNoteMap. by rewrite calculateTime_eq. }
  assert (unreferenced (Note.guid (getNote B note)) B) as HuB.
  { rewrite Bg. by apply Bu. }
  assert (∀ X, toJS (updateNoteMap X)
               = mkData (map (retime (freshTimeCalculator X)) (d_notes (toJS X)))
                        (d_noteLines (toJS X)) (d_measures (toJS X)) (d_lanes (toJS X))
                        (d_lanePoints (toJS X)) (d_otherObjects (toJS X))) as HJ.
  { intros X. unfold updateNoteMap. by rewrite toJS_calculateTime. }
  assert (freshTimeCalculator B = freshTimeCalculator w) as HtcB.
  { unfold B, updateNoteMap. by rewrite freshTimeCalculator_calculateTime. }
  assert (toJS B = mkData (map (retime (freshTimeCalculator w)) (d_notes (toJS A)))
                          (d_noteLines (toJS w)) (d_measures (toJS w)) (d_lanes (toJS w))
                          (d_lanePoints (toJS w)) (d_otherObjects (toJS w))) as HB.
  { unfold B. rewrite HJ. reflexivity. }
  assert (∀ r, r ∈ notes (live w) →
               getNote B r = retime (freshTimeCalculator w) (getNote w r)) as HgB.
  { intros r Hr. unfold B, updateNoteMap. rewrite calculateTime_eq.
    unfold getNote. simpl.
    rewrite mapCells_idem; [done|apply retime_idem|].
    apply elem_of_app. by left. }
  rewrite HJ, toJS_removeNote_false by exact HuB.
  rewrite (freshTimeCalculator_ext B) by apply removeNote_false_rest.
  rewrite HtcB, Bn, filter_snoc_out, HB by done.
  cbn [d_notes d_noteLines d_measures d_lanes d_lanePoints d_otherObjects].
  rewrite toJS_calculateTime. f_equal.
  unfold toJS. cbn [d_notes]. rewrite !map_map.
  apply map_ext_in. intros r Hr%list_elem_of_In.
  rewrite HgB by done. apply retime_idem.
Qed.

Lemma forM_inv {A W : Type} (I : W → Prop) (body : A → W → option W) (l : list A) :
  (∀ x w w', x ∈ l → I w → body x w = Some w' → I w') →
  ∀ w w', I w → forM body l w = Some w' → I w'.
Proof.
  induction l as [|x l IH]; intros Hbody w w' Hw; simpl.
  - by intros [= <-].
  - destruct (body x w) as [w1|] eqn:E; simpl; [|done].
    apply IH.
    + intros y v v' Hy. apply Hbody. by right.
    + eapply Hbody; [left|exact Hw|exact E].
Qed.

Local Arguments removeNote : simpl never.

Lemma pruneInner_pruned w0 lr0 hp tp g st st' :
  lr0 ∈ noteLines (live w0) → g ∈ NoteLine.innerNotes (getLine w0 lr0) →
  pruned w0 st → pruneInner hp tp g st = Some st' → pruned w0 st'.
Proof.
  intros Hlr Hg (I1 & I2 & I3 & I4 & I5). unfold pruneInner, lookupNote.
  destruct (noteMap (live st.2) !! g) as [r'|] eqn:Em; simpl; [|done].
  destruct (_ || _); intros [= <-]; unfold pruned; cbn [fst snd].
  - destruct (removeNote_false_spec r' st.2) as (E1 & _ & _ & E4 & E5 & E6 & _).
    split; [by rewrite E5|]. split; [by rewrite E6|]. split.
    { intros lr x. rewrite E4. destruct (decide _); [|apply I3].
      simpl. intros [_ Hx]%list_elem_of_filter. by apply I3. }
    split; [done|].
    intros r Hr Hout. destruct (decide (r ∈ notes (live st.2))) as [Hin|Hout2].
    + assert (r = r') as ->.
      { destruct (decide (r = r')); [done|]. destruct Hout. rewrite E1.
        by apply list_elem_of_filter. }
      exists g. split; [by rewrite <- I2|]. by exists lr0.
    + by apply I5.
  - split; [done|]. split; [done|]. split; [done|]. split; [|done].
    intros x [->%elem_of_singleton|Hx]%elem_of_union; [by exists lr0|by apply I4].
Qed.

Lemma pruneLine_pruned w0 lr0 st st' :
  lr0 ∈ noteLines (live w0) →
  pruned w0 st → pruneLine lr0 st = Some st' → pruned w0 st'.
Proof.
  intros Hlr Hst. unfold pruneLine. cbv zeta.
  destruct (lookupNote st.2 (NoteLine.head (getLine st.2 lr0))) as [h|]; simpl; [|done].
  destruct (lookupNote st.2 (NoteLine.tail (getLine st.2 lr0))) as [t|]; simpl; [|done].
  apply forM_inv; [|exact Hst].
  intros g s s' Hg Hs. apply (pruneInner_pruned w0 lr0); [done| |done].
  destruct Hst as (_ & _ & I3 & _). by apply I3.
Qed.

(** The second loop of [optimizeNote]. *)
Lemma dropLooseNotes inner l : ∀ w,
  noteObjs (store (foldl (λ w r, dropLooseNote inner r w) w l)) = noteObjs (store w)
  ∧ (∀ r, r ∈ notes (live (foldl (λ w r, dropLooseNote inner r w) w l)) →
          r ∈ notes (live w))
  ∧ (∀ r, r ∈ notes (live w) →
          r ∉ notes (live (foldl (λ w r, dropLooseNote inner r w) w l)) →
          Note.horizontalSize (getNote w r) = 0%Z)
  ∧ (∀ r, r ∈ l → Note.horizontalSize (getNote w r) = 0%Z →
          Note.guid (getNote w r) ∉ inner →
          r ∉ notes (live (foldl (λ w r, dropLooseNote inner r w) w l))).
Proof.
  induction l as [|x l IH]; intros w; simpl.
  { split; [done|]. split; [done|]. split; [done|]. intros r Hr. by apply elem_of_nil in Hr. }
  destruct (IH (dropLooseNote inner x w)) as (J1 & J2 & J3 & J4).
  assert (noteObjs (store (dropLooseNote inner x w)) = noteObjs (store w)
          ∧ (∀ r, r ∈ notes (live (dropLooseNote inner x w)) → r ∈ notes (live w))
          ∧ (∀ r, r ∈ notes (live w) → r ∉ notes (live (dropLooseNote inner x w)) →
                  r = x ∧ Note.horizontalSize (getNote w x) = 0%Z)
          ∧ (Note.horizontalSize (getNote w x) = 0%Z → Note.guid (getNote w x) ∉ inner →
             x ∉ notes (live (dropLooseNote inner x w)))) as (K1 & K2 & K3 & K4).
  { unfold dropLooseNote. cbv zeta.
    destruct (Z.eqb_spec (Note.horizontalSize (getNote w x)) 0) as [Hz|Hnz]; cbn [andb].
    - case_bool_decide as Hg; cbn [andb].
      + destruct (removeNote_false_spec x w) as (E1 & _ & _ & _ & E5 & _).
        split; [done|]. rewrite E1. split; [by intros r [_ ?]%list_elem_of_filter|].
        split.
        * intros r Hr Hout. destruct (decide (r = x)) as [->|Hne]; [done|].
          destruct Hout. by apply list_elem_of_filter.
        * intros _ _ [Hne _]%list_elem_of_filter. done.
      + split; [done|]. split; [done|]. split; [done|]. done.
    - split; [done|]. split; [done|]. split; [done|]. done. }
  assert (∀ r, getNote (dropLooseNote inner x w) r = getNote w r) as Kg
    by (intros r; unfold getNote; by rewrite K1).
  split; [by rewrite J1|]. split; [eauto|]. split.
  - intros r Hr Hout.
    destruct (decide (r ∈ notes (live (dropLooseNote inner x w)))) as [Hin|Hout1].
    + rewrite <- Kg. by apply J3.
    + by destruct (K3 r Hr Hout1) as [-> ?].
  - intros r [->|Hr]%elem_of_cons Hz Hg.
    + intros Hin%J2. by apply K4.
    + apply J4; [done|by rewrite Kg|by rewrite Kg].
Qed.

(** X29.  What [optimizeNote] does to a note that is no note line's inner
    note is decided by its size alone: on a timeline whose [noteMap] is
    current, such a note is still in the timeline after the call exactly when
    its [horizontalSize] is not 0. *)
Theorem optimizeNote_size_decides w w' r :
  noteMapOk w → optimizeNote w = Some w' →
  r ∈ notes (live w) → ¬ innerOfSomeLine (Note.guid (getNote w r)) w →
  (r ∈ notes (live w') ↔ Note.horizontalSize (getNote w r) ≠ 0%Z).
Proof.
  intros Hmap Hopt Hr Hloose. unfold optimizeNote in Hopt.
  destruct (forM pruneLine (noteLines (live w)) (∅, w)) as [st|] eqn:E; simpl in Hopt; [|done].
  injection Hopt as <-.
  assert (pruned w st) as (I1 & I2 & I3 & I4 & I5).
  { revert E. apply forM_inv.
    - intros lr s s' Hlr. by apply pruneLine_pruned.
    - split; [done|]. split; [done|]. split; [done|]. split.
      + intros g Hg. by apply elem_of_empty in Hg.
      + intros ? ? ?. done. }
  destruct (dropLooseNotes st.1 (notes (live st.2)) st.2) as (J1 & J2 & J3 & J4).
  assert (getNote st.2 r = getNote w r) as Eg by (unfold getNote; by rewrite I1).
  assert (∀ X, notes (live (updateNoteMap X)) = notes (live X)) as Hn.
  { intros X. unfold updateNoteMap. by rewrite calculateTime_eq. }
  rewrite Hn. split.
  - intros Hin Hz.
    assert (Note.guid (getNote st.2 r) ∉ st.1) as Hset.
    { rewrite Eg. intros Hg. by apply Hloose, I4. }
    destruct (decide (r ∈ notes (live st.2))) as [Hin2|Hout2].
    + apply (J4 r Hin2); [by rewrite Eg|done|done].
    + by apply Hout2, J2.
  - intros Hnz.
    assert (r ∈ notes (live st.2)) as Hin2.
    { destruct (decide (r ∈ notes (live st.2))) as [|Hout2]; [done|].
      destruct (I5 r Hr Hout2) as (g & Hg & Hinner). destruct Hloose.
      unfold noteMapOk in Hmap. rewrite Hmap in Hg.
      apply indexBy_lookup in Hg as [<- _]. exact Hinner. }
    destruct (decide (r ∈ notes (live (foldl (λ w r, dropLooseNote st.1 r w) st.2
                                          (notes (live st.2)))))) as [|Hout]; [done|].
    destruct Hnz. rewrite <- Eg. by apply J3.
Qed.

End NotesMore.

(** ** The further properties on concrete data *)

(** The timeline after one saved edit. *)
Lemma history_flags_follow_cursor_witness :
  (1 ≤ historyIndex (hist world1) ≤ Z.of_nat (length (histories (hist world1))))%Z
  ∧ is_Some (prevData (hist world1))
  ∧ canUndo (chart world1) = (1 <? historyIndex (hist world1))%Z
  ∧ canRedo (chart world1)
    = (historyIndex (hist world1) <? Z.of_nat (length (histories (hist world1))))%Z.
Proof. exact (@history_flags_follow_cursor plain plain_ok world1 world1_reachable). Defined.

Lemma history_never_throws_witness :
  is_Some (save world1) ∧ is_Some (undo world1) ∧ is_Some (redo world1).
Proof. exact (@history_never_throws plain plain_ok world1 world1_reachable). Defined.

(** Saving the pending removal of [n2]. *)
Lemma save_drops_redo_branch_witness :
  ∃ w' : @World plain,
    save world1_pending = Some w'
    ∧ historyIndex (hist w') = 3%Z
    ∧ canRedo (chart w') = false
    ∧ redo w' = Some w'.
Proof.
  destruct (save world1_pending) as [w'|] eqn:E; [|vm_compute in E; discriminate].
  destruct (@save_drops_redo_branch plain plain_ok world1_pending w'
              (reach_edit _ _ world1_reachable) E)
    as (Hi & _ & _ & _ & _ & Hr & Hredo).
  exists w'. split; [reflexivity|]. split; [rewrite Hi; reflexivity|].
  split; [exact Hr|exact Hredo].
Defined.

(** One undo and one redo on the timeline after one saved edit. *)
Lemma undos_then_redos_witness :
  ∃ (w1 w2 : @World plain) pd,
    undos 1 world1 = Some w1 ∧ redos 1 w1 = Some w2
    ∧ hist w2 = hist world1
    ∧ canUndo (chart w2) = canUndo (chart world1)
    ∧ canRedo (chart w2) = canRedo (chart world1)
    ∧ prevData (hist world1) = Some pd
    ∧ toJS w2 = reloaded (H := plain) pd.
Proof.
  apply (@undos_then_redos plain plain_ok world1 1 world1_reachable).
  - lia.
  - vm_compute. reflexivity.
Defined.

(** [optimizeLane] on the concrete chart: lane-b is absorbed by lane-a. *)
Lemma optimizeLane_result_witness :
  ∃ w' : @World plain,
    optimizeLane world0 = Some w'
    ∧ lanes (live w') `sublist_of` lanes (live world0)
    ∧ map (λ z, Lane.points (getLane w' z)) (lanes (live w')) = [["a"; "b"; "c"]].
Proof.
  destruct (optimizeLane world0) as [w'|] eqn:E; [|vm_compute in E; discriminate].
  destruct (@optimizeLane_result plain world0 w' E) as (Hs & _ & _).
  exists w'. split; [reflexivity|]. split; [exact Hs|].
  vm_compute in E. injection E as <-. vm_compute. reflexivity.
Defined.

Lemma world0_attached : attached world0.
Proof.
  intros r Hr. exists 8. split; [vm_compute; right; left|].
  change (notes (live world0)) with [0; 1; 2] in Hr.
  repeat (apply elem_of_cons in Hr as [->|Hr]; [vm_compute; reflexivity|]).
  by apply elem_of_nil in Hr.
Qed.

Lemma optimizeLane_keeps_notes_attached_witness :
  ∃ w' : @World plain, optimizeLane world0 = Some w' ∧ attached w'.
Proof.
  destruct (optimizeLane world0) as [w'|] eqn:E; [|vm_compute in E; discriminate].
  exists w'. split; [reflexivity|].
  exact (@optimizeLane_keeps_notes_attached plain world0 w' E world0_attached).
Defined.

Lemma optimizeLane_keeps_points_witness :
  ∃ w' : @World plain,
    optimizeLane world0 = Some w' ∧ (onLane w' "c" ↔ onLane world0 "c").
Proof.
  destruct (optimizeLane world0) as [w'|] eqn:E; [|vm_compute in E; discriminate].
  exists w'. split; [reflexivity|].
  exact (@optimizeLane_keeps_points plain world0 w' "c" E).
Defined.

Lemma world0_noteLines_NoDup : NoDup (noteLines (live world0)).
Proof. change (noteLines (live world0)) with [3; 4]. apply NoDup_ListNoDup. repeat constructor; simpl; intuition lia. Qed.

Lemma optimizeNoteLine_returns_iff_witness :
  is_Some (optimizeNoteLine world0)
  ↔ ∀ lr, lr ∈ noteLines (live world0) →
      is_Some (noteMap (live world0) !! NoteLine.head (getLine world0 lr))
      ∧ is_Some (noteMap (live world0) !! NoteLine.tail (getLine world0 lr)).
Proof. exact (@optimizeNoteLine_returns_iff plain world0 world0_noteLines_NoDup). Defined.

(** The second note line of the concrete chart runs from [n2] back to [n3];
    [optimizeNoteLine] turns it round. *)
Lemma optimizeNoteLine_orders_ends_witness :
  ∃ w' : @World plain,
    optimizeNoteLine world0 = Some w'
    ∧ NoteLine.head (getLine world0 4) = "n2" ∧ NoteLine.tail (getLine world0 4) = "n3"
    ∧ getLine w' 4 = NoteLine.setEnds "n3" "n2" (getLine world0 4).
Proof.
  destruct (optimizeNoteLine world0) as [w'|] eqn:E; [|vm_compute in E; discriminate].
  destruct (@optimizeNoteLine_orders_ends plain world0 w' world0_noteLines_NoDup
              (proj1 world0_indexed) E) as (_ & _ & Hl).
  destruct (Hl 4) as [[Hsame|Hswap] _].
  - vm_compute. right. left.
  - exfalso. vm_compute in E. injection E as <-. vm_compute in Hsame. discriminate.
  - exists w'. split; [reflexivity|]. split; [reflexivity|]. split; [reflexivity|].
    exact Hswap.
Defined.

Local Open Scope Q_scope.

(** The segments of the lane through the three measures. *)
Lemma getLines_inside_measure_witness :
  ∃ lines line,
    getLines [pointA; pointC] screenMeasures = Some lines
    ∧ lines !! 0%nat = Some line
    ∧ measure line = 100%nat
    ∧ 0 <= Vector2.y (point (end_ line))
    ∧ Vector2.y (point (end_ line)) <= Vector2.y (point (start line))
    ∧ Vector2.y (point (start line)) <= 0 + 100.
Proof.
  destruct (getLines [pointA; pointC] screenMeasures) as [lines|] eqn:E;
    [|vm_compute in E; discriminate].
  destruct (lines !! 0%nat) as [line|] eqn:El;
    [|vm_compute in E; injection E as <-; discriminate El].
  destruct (getLines_inside_measure _ _ lines line E) as (i & mo & Hi & Hm & Hy).
  { by eapply list_elem_of_lookup_2. }
  exists lines, line. split; [reflexivity|]. split; [exact El|].
  assert (measure line = 100%nat) as Hm100.
  { vm_compute in E. injection E as <-. injection El as <-. reflexivity. }
  split; [exact Hm100|].
  assert (mo = measure0) as ->.
  { rewrite Hm100 in Hm.
    assert (i = 0 ∨ i = 1 ∨ i = 2 ∨ nthZ screenMeasures i = None)%Z as Hcases.
    { unfold nthZ. destruct (Z.ltb_spec i 0); [by right; right; right|].
      destruct (Z.to_nat i) as [|[|[|n]]] eqn:En; [left|right; left|right; right; left|]; try lia.
      right; right; right. done. }
    destruct Hcases as [->|[->|[->|Hn]]]; [| | |congruence];
      vm_compute in Hi; injection Hi as <-; [reflexivity|discriminate Hm..]. }
  apply Hy. vm_compute. discriminate.
Defined.

Lemma getLines_returns_witness : is_Some (getLines [pointA; pointC] screenMeasures).
Proof.
  apply getLines_returns.
  repeat (apply Forall_cons_2 || apply Forall_nil_2);
    (split; [vm_compute; discriminate|split; vm_compute; congruence]).
Defined.

(** After [wideLane] is rendered, a note in the middle of measure 0 has a
    place on it. *)
Lemma getNotePointInfo_after_render_witness :
  is_Some (getNotePointInfo renderedOnce wideLane measure0 (mkFraction 1 4) (mkFraction 1 2)).
Proof.
  apply (getNotePointInfo_after_render noLines renderedOnce wideLane wideLanePoints
           screenMeasures 0%Z measure0 "a" "c" pointA pointC).
  - vm_compute. reflexivity.
  - reflexivity.
  - vm_compute. discriminate.
  - vm_compute. left.
  - vm_compute. reflexivity.
  - vm_compute. right. left.
  - vm_compute. reflexivity.
  - vm_compute. discriminate.
  - vm_compute. discriminate.
  - reflexivity.
  - simpl. lia.
Defined.

(** A click in the second column, a quarter below the middle of measure 0. *)
Lemma mouse_hit_in_range_witness :
  ∃ r, getNotePointInfoFromMousePosition renderedOnce wideLane measure0 measure1 4%Z
         (Vector2.mk 35 50) false = Some r
       ∧ npLane r = self wideLane
       ∧ (0 <= horizontalIndex r < 4 + 0)%Z
       ∧ (0 <= verticalIndex r <= 4 - 1)%Z.
Proof.
  destruct (getNotePointInfoFromMousePosition renderedOnce wideLane measure0 measure1 4%Z
              (Vector2.mk 35 50) false) as [r|] eqn:E; [|vm_compute in E; discriminate].
  destruct (mouse_hit_in_range _ _ _ _ 4%Z _ _ r ltac:(lia) E) as (Hl & Hh & Hv & _).
  exists r. split; [reflexivity|]. split; [exact Hl|]. split; [exact Hh|exact Hv].
Defined.

(** A segment to the left of the render area is skipped. *)
Lemma defaultRender_skips_outside_witness :
  defaultRender areaToTheRight [someLine] (mkLaneTemplate 255 4) = []
  ∧ 10 + 80 < 200.
Proof.
  assert (defaultRender areaToTheRight [someLine] (mkLaneTemplate 255 4) = []) as E
    by (vm_compute; reflexivity).
  split; [exact E|].
  destruct (defaultRender_skips_outside _ _ _ E) as [[Hl _]|[Hr _]].
  - vm_compute. discriminate.
  - exact Hl.
  - exfalso. vm_compute in Hr. discriminate.
Defined.

Local Close Scope Q_scope.

(** Two steps up from the division 4. *)
Lemma changeMeasureDivision_in_range_witness :
  ∃ d, Editor.changeMeasureDivision someDivisions 4 2 = Some d ∧ d ∈ someDivisions.
Proof.
  destruct (changeMeasureDivision_in_range someDivisions 4 2) as (d & Hd & Hin & _).
  - discriminate.
  - exists d. split; [exact Hd|exact Hin].
Defined.

(** Moving the two notes one lane up. *)
Lemma moveLane_safe_witness :
  Editor.moveLane (λ i, i + 1)%Z threeLanes someTypes [tapOnA; holdOnB]
  = Some [Note.setLane "lane-b" tapOnA; Note.setLane "lane-c" holdOnB]
  ∧ Forall2 (λ note note',
               note' = note
               ∨ ∃ lane, lane ∈ threeLanes
                         ∧ (Lane.templateName lane ∉ excluded someTypes (Note.type note))
                         ∧ note' = Note.setLane (Lane.guid lane) note)
            [tapOnA; holdOnB]
            [Note.setLane "lane-b" tapOnA; Note.setLane "lane-c" holdOnB].
Proof.
  assert (Editor.moveLane (λ i, i + 1)%Z threeLanes someTypes [tapOnA; holdOnB]
          = Some [Note.setLane "lane-b" tapOnA; Note.setLane "lane-c" holdOnB]) as E
    by (vm_compute; reflexivity).
  split; [exact E|exact (moveLane_safe _ _ _ _ _ E)].
Defined.

Lemma threeLanes_NoDup : NoDup (map Lane.guid threeLanes).
Proof.
  apply NoDup_ListNoDup. simpl.
  repeat constructor; simpl; intuition discriminate.
Qed.

(** Flipping twice: the hold goes from lane-b to lane-b, the tap from lane-a
    to lane-a (the side lane refuses it both times). *)
Lemma flipLane_twice_witness :
  ∃ notes1,
    Editor.moveLane (Editor.flip threeLanes) threeLanes someTypes [tapOnA; holdOnB]
    = Some notes1
    ∧ Editor.moveLane (Editor.flip threeLanes) threeLanes someTypes notes1
      = Some [tapOnA; holdOnB].
Proof.
  apply flipLane_twice; [apply threeLanes_NoDup|].
  repeat constructor.
  - vm_compute. eauto.
  - intros lane Hin Hg. 
    change threeLanes with [ Lane.mk "lane-a" [] "normal" 4; Lane.mk "lane-b" [] "normal" 4;
                             Lane.mk "lane-c" [] "side" 4 ] in Hin.
    repeat (apply elem_of_cons in Hin as [->|Hin]);
      [|discriminate Hg|discriminate Hg|by apply elem_of_nil in Hin].
    vm_compute. intros Hc. apply list_elem_of_singleton in Hc. discriminate.
  - vm_compute. eauto.
  - intros lane Hin Hg. vm_compute. intros Hc. by apply elem_of_nil in Hc.
Defined.

(** [optimizeNote] on the concrete chart removes the note [n1]. *)
Lemma optimizeNote_removes_cleanly_witness :
  ∃ w' : @World plain,
    optimizeNote world0 = Some w'
    ∧ notes (live w') `sublist_of` notes (live world0)
    ∧ unreferenced "n1" w'.
Proof.
  destruct (optimizeNote world0) as [w'|] eqn:E; [|vm_compute in E; discriminate].
  destruct (@optimizeNote_removes_cleanly plain world0 w' E) as (Hs & _ & Hu).
  exists w'. split; [reflexivity|]. split; [exact Hs|].
  apply (Hu 0).
  - vm_compute. left.
  - vm_compute in E. injection E as <-. vm_compute.
    intros Hin.
    repeat (apply elem_of_cons in Hin as [Hin|Hin]; [discriminate|]).
    by apply elem_of_nil in Hin.
Defined.

(** The note [n2] of the concrete chart has a size and is no line's inner
    note: [optimizeNote] keeps it. *)
Lemma optimizeNote_size_decides_witness :
  ∃ w' : @World plain,
    optimizeNote world0 = Some w'
    ∧ (1 ∈ notes (live w') ↔ Note.horizontalSize (getNote world0 1) ≠ 0%Z).
Proof.
  destruct (optimizeNote world0) as [w'|] eqn:E; [|vm_compute in E; discriminate].
  exists w'. split; [reflexivity|].
  apply (@optimizeNote_size_decides plain world0 w' 1 (proj1 world0_indexed) E).
  - vm_compute. right. left.
  - intros (lr & Hlr & Hin).
    change (noteLines (live world0)) with [3; 4] in Hlr.
    replace (Note.guid (getNote world0 1)) with "n2" in Hin by (vm_compute; reflexivity).
    apply elem_of_cons in Hlr as [->|Hlr].
    + replace (NoteLine.innerNotes (getLine world0 3)) with ["n3"] in Hin
        by (vm_compute; reflexivity).
      apply list_elem_of_singleton in Hin. discriminate.
    + apply list_elem_of_singleton in Hlr as ->.
      replace (NoteLine.innerNotes (getLine world0 4)) with ["n1"] in Hin
        by (vm_compute; reflexivity).
      apply list_elem_of_singleton in Hin. discriminate.
Defined.

(** Putting back the note [n1] that [world1] has lost, and removing it
    again. *)
Lemma removeNote_after_addNote_witness :
  toJS (removeNote 0 false (addNote 0 false world1)) = toJS world1.
Proof.
  apply (@removeNote_after_addNote plain 0 false world1).
  - replace (notes (live world1)) with [1; 2] by (vm_compute; reflexivity).
    intros Hin.
    repeat (apply elem_of_cons in Hin as [Hin|Hin]; [discriminate|]).
    by apply elem_of_nil in Hin.
  - unfold unreferenced.
    replace (noteLines (live world1)) with [4] by (vm_compute; reflexivity).
    replace (Note.guid (getNote world1 0)) with "n1" by (vm_compute; reflexivity).
    apply Forall_cons_2; [|apply Forall_nil_2].
    replace (getLine world1 4) with (NoteLine.mk "l2" "n2" "n3" [])
      by (vm_compute; reflexivity).
    cbn [NoteLine.head NoteLine.tail NoteLine.innerNotes].
    split; [discriminate|]. split; [discriminate|].
    intros Hin. by apply elem_of_nil in Hin.
Defined.
